(** * raggy: the retrieval pipeline, embedded in Rocq

    A shallow embedding of the TypeScript sources of the retrieval core

      - [src/core/chunker.ts]      (class [TextChunker]),
      - [src/utils/cache.ts]       (class [Cache]),
      - [src/core/embeddings.ts]   (class [LocalEmbeddingService]),
      - [src/core/vector-db.ts]    (class [PersistentVectorDB]),
      - [src/core/rag-service.ts]  (method [RAGService.query], and the
        statements of [indexDocument] that store the passages),

    followed by the properties of the specification that concern them,
    and by further properties of the code.

    Conventions of the embedding.

      - A JavaScript string is the list of its UTF-16 code units
        ([jsstring], a [list N]).
      - A JavaScript [number] that the program uses as a size, an index or a
        count is a [Z]; the coordinates of embedding vectors and the
        similarity scores live in a type [num] with the operations of the
        interface [Number].  Its instance is IEEE binary64 ([float]),
        which is what the engine computes with; what does not depend on
        the arithmetic is stated for every instance.
      - [undefined] is [None]; an exception is the constructor [Thrown].
      - Mutable objects (the collections map, the cache, the directory of
        JSON files) are threaded explicitly through the functions.
      - The file system is a POSIX one; what it does at the entries of the
        directory of the store is fixed, the rest is left to an instance
        of the interface [FileSystem].
      - Logging and wall-clock measurements are left out. *)

From Stdlib Require Import ZArith List Lia Floats String Ascii.
From Stdlib Require Import Permutation Sorting.Sorted DecimalString.
From stdpp Require Import gmap strings list.

Set Default Proof Using "Type".

(* ------------------------------------------------------------------ *)
(** * JavaScript values *)

(** Strings as sequences of UTF-16 code units. *)
Abbreviation jsstring := (list N).

(** The code units of an ASCII literal. *)
Definition js (s : string) : jsstring :=
  N_of_ascii <$> list_ascii_of_string s.

(** What a call does: it returns a value or throws. *)
Inductive error :=
  | ChunkSizeNotPositive      (* 'Chunk size must be positive' *)
  | OverlapNotLessThanSize    (* 'Overlap size must be less than chunk size' *)
  | ModelInitFailed           (* 'Embedding model initialization failed: ...' *)
  | EmbeddingsFailed          (* 'Failed to generate embeddings: ...' *)
  | QueryEmbeddingFailed      (* 'Failed to generate query embedding: ...' *)
  | SearchFailed              (* 'Search failed: ...' *)
  | InitializationFailed (cause : error)  (* 'Initialization failed: ...' *)
  | QueryFailed (cause : error).          (* 'Query failed: ...' *)

Inductive outcome (A : Type) :=
  | Returned (a : A)
  | Thrown (e : error).
Arguments Returned {A} a.
Arguments Thrown {A} e.

Definition returns {A} (o : outcome A) : Prop := ∃ a, o = Returned a.

(** [x || d] on an optional integer: [undefined] and [0] are falsy. *)
Definition or_default (x : option Z) (d : Z) : Z :=
  match x with
  | Some v => if (v =? 0)%Z then d else v
  | None => d
  end.

(** [Array.prototype.slice(start)] and [String.prototype.slice(start)]. *)
Definition slice_from {A} (l : list A) (start : Z) : list A :=
  let len := Z.of_nat (length l) in
  let k := if (start <? 0)%Z then Z.max (len + start) 0 else Z.min start len in
  drop (Z.to_nat k) l.

(** [Array.prototype.slice(0, end)]. *)
Definition slice_to {A} (l : list A) (stop : Z) : list A :=
  let len := Z.of_nat (length l) in
  let k := if (stop <? 0)%Z then Z.max (len + stop) 0 else Z.min stop len in
  take (Z.to_nat k) l.

(** [Array.prototype.join(sep)] on strings. *)
Fixpoint join (sep : jsstring) (l : list jsstring) : jsstring :=
  match l with
  | [] => []
  | [s] => s
  | s :: rest => s ++ sep ++ join sep rest
  end.

(** ** Numbers *)

(** The arithmetic the vector store performs on a [number].  [num_json x]
    is [JSON.parse (JSON.stringify x)]: the number read back from the file,
    or [None] where [JSON.stringify] prints [null]. *)
Class Number (num : Type) := {
  num_zero : num;
  num_add : num → num → num;
  num_sub : num → num → num;
  num_mul : num → num → num;
  num_div : num → num → num;
  num_sqrt : num → num;
  num_eqb : num → num → bool;      (* x === y *)
  num_ltb : num → num → bool;      (* x < y   *)
  num_leb : num → num → bool;      (* x <= y  *)
  num_json : num → option num
}.

(** IEEE 754 binary64, the engine's [number]: non-finite values are printed
    as [null], and the sign of a zero is not printed. *)
#[export] Instance float_Number : Number float := {|
  num_zero := 0%float;
  num_add := PrimFloat.add;
  num_sub := PrimFloat.sub;
  num_mul := PrimFloat.mul;
  num_div := PrimFloat.div;
  num_sqrt := PrimFloat.sqrt;
  num_eqb := PrimFloat.eqb;
  num_ltb := PrimFloat.ltb;
  num_leb := PrimFloat.leb;
  num_json := λ x,
    if PrimFloat.is_finite x
    then Some (if PrimFloat.is_zero x then 0%float else x)
    else None
|}.


(** ** Configuration ([config.rag], src/config/index.ts) *)

(** The numeric settings of [RagConfig]; the paths and the model name are
    constants of the environment and do not appear in the embedding. *)
Module Config.
Record rag (num : Type) := {
  chunkSize : Z;             (* RAG_CHUNK_SIZE, default 1000 *)
  chunkOverlap : Z;          (* RAG_CHUNK_OVERLAP, default 200 *)
  maxResults : Z;            (* RAG_MAX_RESULTS, default 5 *)
  similarityThreshold : num  (* RAG_SIMILARITY_THRESHOLD, default 0.7 *)
}.
Arguments chunkSize {num} _.
Arguments chunkOverlap {num} _.
Arguments maxResults {num} _.
Arguments similarityThreshold {num} _.
End Config.
Abbreviation RagConfig := Config.rag.

(* ------------------------------------------------------------------ *)
(** * The chunker (src/core/chunker.ts) *)

Module Chunker.

(** The code units that [String.prototype.trim] strips and that [\s]
    matches: ECMAScript's WhiteSpace and LineTerminator. *)
Definition is_space (c : N) : bool :=
  existsb (N.eqb c)
    [9; 10; 11; 12; 13; 32; 160; 5760; 8232; 8233; 8239; 8287; 12288; 65279]%N
  || ((8192 <=? c) && (c <=? 8202))%N.

(** The class [[.!?]]. *)
Definition is_terminal (c : N) : bool :=
  existsb (N.eqb c) [46; 33; 63]%N.

Fixpoint trimStart (s : jsstring) : jsstring :=
  match s with
  | c :: rest => if is_space c then trimStart rest else s
  | [] => []
  end.

Definition trimEnd (s : jsstring) : jsstring :=
  reverse (trimStart (reverse s)).

Definition trim (s : jsstring) : jsstring := trimEnd (trimStart s).

(** A string used as a condition: the empty string is falsy. *)
Definition truthy (s : jsstring) : bool :=
  match s with [] => false | _ => true end.

(** [text.split(/(?<=[.!?])\s+/)]: a match is a maximal run of white space
    that directly follows a terminal punctuation mark; every match is cut
    out and the pieces between the matches are returned.  The scanner
    remembers the code unit it has just read and whether it is inside a
    match. *)
Inductive scanner :=
  | AtStart
  | After (c : N)
  | InMatch.

Fixpoint split_from (st : scanner) (piece : jsstring) (s : jsstring)
  : list jsstring :=
  match s with
  | [] => [piece]
  | c :: rest =>
      match st with
      | InMatch =>
          if is_space c then split_from InMatch piece rest
          else split_from (After c) (piece ++ [c]) rest
      | After p =>
          if is_space c && is_terminal p
          then piece :: split_from InMatch [] rest
          else split_from (After c) (piece ++ [c]) rest
      | AtStart => split_from (After c) (piece ++ [c]) rest
      end
  end.

Definition split_on_sentence_ends (text : jsstring) : list jsstring :=
  split_from AtStart [] text.

Definition splitIntoSentences (text : jsstring) : list jsstring :=
  (λ sentence, trim sentence ++ js " ") <$>
  List.filter (λ sentence, (0 <? length (trim sentence))%nat)
    (split_on_sentence_ends text).

(** The loop of [getOverlapText]:
    [for (let i = overlapSize; i > overlapSize - 50 && i > 0; i--)].
    It runs at most 50 times, which is the fuel given to it; [chunk[i]]
    counts from the start of [chunk]. *)
Fixpoint findBreakPoint (chunk : jsstring) (overlapSize i : Z) (fuel : nat)
  : Z :=
  match fuel with
  | O => overlapSize
  | S fuel' =>
      if (i >? overlapSize - 50)%Z && (i >? 0)%Z then
        if bool_decide (chunk !! Z.to_nat i = Some 32%N)
        then (i + 1)%Z
        else findBreakPoint chunk overlapSize (i - 1)%Z fuel'
      else overlapSize
  end.

Definition getOverlapText (chunk : jsstring) (overlapSize : Z) : jsstring :=
  if (Z.of_nat (length chunk) <=? overlapSize)%Z then chunk
  else
    let breakPoint := findBreakPoint chunk overlapSize overlapSize 50 in
    slice_from chunk (- breakPoint).

(** The variables of the loop of [chunkText]. *)
Record buffer := {
  chunks : list jsstring;
  currentChunk : jsstring;
  currentSize : Z
}.

Definition flush (overlapSize : Z) (b : buffer) : buffer :=
  let overlap := getOverlapText (currentChunk b) overlapSize in
  {| chunks := chunks b ++ [trim (currentChunk b)];
     currentChunk := overlap;
     currentSize := Z.of_nat (length overlap) |}.

(** One iteration of [for (const sentence of sentences)]. *)
Definition addSentence (size overlapSize : Z) (b : buffer)
    (sentence : jsstring) : buffer :=
  let sentenceSize := Z.of_nat (length sentence) in
  let b' :=
    if (currentSize b + sentenceSize >? size)%Z
       && truthy (trim (currentChunk b))
    then flush overlapSize b
    else b in
  {| chunks := chunks b';
     currentChunk := currentChunk b' ++ sentence;
     currentSize := (currentSize b' + sentenceSize)%Z |}.

Definition emptyBuffer : buffer :=
  {| chunks := []; currentChunk := []; currentSize := 0 |}.

(** The passages once [size] and [overlapSize] are settled. *)
Definition chunksOf (size overlapSize : Z) (text : jsstring)
  : list jsstring :=
  let b := fold_left (addSentence size overlapSize)
             (splitIntoSentences text) emptyBuffer in
  if truthy (trim (currentChunk b))
  then chunks b ++ [trim (currentChunk b)]
  else chunks b.

Definition chunkText {num} (config : RagConfig num) (text : jsstring)
    (chunkSize overlap : option Z) : outcome (list jsstring) :=
  let size := or_default chunkSize config.(Config.chunkSize) in
  let overlapSize := or_default overlap config.(Config.chunkOverlap) in
  if (size <=? 0)%Z then Thrown ChunkSizeNotPositive
  else if (overlapSize >=? size)%Z then Thrown OverlapNotLessThanSize
  else Returned (chunksOf size overlapSize text).

(** ** The buffers of which the passages are made *)

(** The test under which an iteration pushes the buffer before it takes
    the sentence. *)
Definition emits (size : Z) (b : buffer) (sentence : jsstring) : bool :=
  (currentSize b + Z.of_nat (length sentence) >? size)%Z
  && truthy (trim (currentChunk b)).

(** The values of [currentChunk] at the calls of [chunks.push], in the loop
    from the variables [b] on and after it: the passages are these
    buffers, trimmed. *)
Fixpoint emittedFrom (size overlapSize : Z) (b : buffer)
    (sentences : list jsstring) : list jsstring :=
  match sentences with
  | [] => if truthy (trim (currentChunk b)) then [currentChunk b] else []
  | sentence :: rest =>
      (if emits size b sentence then [currentChunk b] else [])
      ++ emittedFrom size overlapSize
           (addSentence size overlapSize b sentence) rest
  end.

Definition emitted (size overlapSize : Z) (text : jsstring)
  : list jsstring :=
  emittedFrom size overlapSize emptyBuffer (splitIntoSentences text).

(** ** The overlap between consecutive passages *)

(** A string of white space only. *)
Definition blank (s : jsstring) : bool := forallb is_space s.

(** The text carried over from an emitted buffer into the next passage:
    [getOverlapText], as it shows in the passages, which are trimmed. *)
Definition carried (overlapSize : Z) (buf : jsstring) : jsstring :=
  trim (getOverlapText buf overlapSize).

Definition adjacent (P : jsstring → jsstring → Prop) (l : list jsstring)
  : Prop :=
  ∀ i p q, l !! i = Some p → l !! S i = Some q → P p q.

(** A sentence as [splitIntoSentences] delivers it. *)
Definition sentenceLike (s : jsstring) : Prop :=
  ∃ x, s = x ++ [32%N] ∧ blank x = false.

End Chunker.

(* ------------------------------------------------------------------ *)
(** * Documents and their JSON form (src/types/index.ts, vector-db.ts) *)

(** [DocumentChunk['metadata']], with the four fields that [addDocuments]
    reads through [as any]. *)
Record ChunkMetadata := {
  cm_source : jsstring;
  cm_page : option Z;               (* page?: number *)
  cm_chunkIndex : Z;
  cm_totalChunks : Z;
  cm_documentType : option jsstring;
  cm_title : option jsstring;
  cm_fileSize : option Z;
  cm_fileName : option jsstring
}.

Record DocumentChunk := {
  chunk_id : jsstring;
  chunk_content : jsstring;
  chunk_metadata : ChunkMetadata
}.

(** The [metadata] object that [addDocuments] builds. *)
Record StoredMetadata := {
  source : jsstring;
  page : Z;
  chunkIndex : Z;
  totalChunks : Z;
  documentType : option jsstring;
  title : option jsstring;
  fileSize : option Z;
  fileName : option jsstring
}.

(** [interface StoredDocument].  [embedding] is [None] when the record was
    built from [embeddings[i]] with [i] out of range. *)
Record StoredDocument (num : Type) := {
  doc_id : jsstring;
  doc_content : jsstring;
  doc_embedding : option (list num);
  doc_metadata : StoredMetadata
}.
Arguments doc_id {num} _.
Arguments doc_content {num} _.
Arguments doc_embedding {num} _.
Arguments doc_metadata {num} _.

Record SearchResult (num : Type) := {
  res_content : jsstring;
  res_score : num;
  res_metadata : StoredMetadata
}.
Arguments res_content {num} _.
Arguments res_score {num} _.
Arguments res_metadata {num} _.

(** A JSON text, as the value it denotes.  [JInt] is a number written at a
    position that holds an integer, [JNum] one at a position that holds a
    coordinate. *)
#[local] Unset Elimination Schemes.
Inductive json (num : Type) :=
  | JNull
  | JInt (z : Z)
  | JNum (x : num)
  | JStr (s : jsstring)
  | JArr (items : list (json num))
  | JObj (fields : list (jsstring * json num)).
Arguments JNull {num}.
Arguments JInt {num} z.
Arguments JNum {num} x.
Arguments JStr {num} s.
Arguments JArr {num} items.
Arguments JObj {num} fields.
#[local] Set Elimination Schemes.

Module Json.
Section Json.
Context {num : Type} `{!Number num}.

(** A property whose value is [undefined] is not written. *)
Definition field (key : string) (v : option (json num))
  : list (jsstring * json num) :=
  match v with
  | Some j => [(js key, j)]
  | None => []
  end.

(** [JSON.stringify] of a number. *)
Definition of_number (x : num) : json num :=
  match num_json x with
  | Some y => JNum y
  | None => JNull
  end.

Definition of_metadata (m : StoredMetadata) : json num :=
  JObj (field "source" (Some (JStr m.(source)))
        ++ field "page" (Some (JInt m.(page)))
        ++ field "chunkIndex" (Some (JInt m.(chunkIndex)))
        ++ field "totalChunks" (Some (JInt m.(totalChunks)))
        ++ field "documentType" (JStr <$> m.(documentType))
        ++ field "title" (JStr <$> m.(title))
        ++ field "fileSize" (JInt <$> m.(fileSize))
        ++ field "fileName" (JStr <$> m.(fileName))).

Definition of_document (d : StoredDocument num) : json num :=
  JObj (field "id" (Some (JStr d.(doc_id)))
        ++ field "content" (Some (JStr d.(doc_content)))
        ++ field "embedding"
             ((λ v, JArr (of_number <$> v)) <$> d.(doc_embedding))
        ++ field "metadata" (Some (of_metadata d.(doc_metadata)))).

(** [JSON.stringify(collection, null, 2)]. *)
Definition stringify (collection : list (StoredDocument num)) : json num :=
  JArr (of_document <$> collection).

(** Reading a property of a parsed object; of two equal keys the later
    one counts. *)
Fixpoint get (fields : list (jsstring * json num)) (key : jsstring)
  : option (json num) :=
  match fields with
  | [] => None
  | (k, v) :: rest =>
      match get rest key with
      | Some w => Some w
      | None => if decide (k = key) then Some v else None
      end
  end.

Definition as_string (j : json num) : option jsstring :=
  match j with JStr s => Some s | _ => None end.

Definition as_int (j : json num) : option Z :=
  match j with JInt z => Some z | _ => None end.

(** A coordinate read from the file.  [null], which is what a non-finite
    coordinate was written as, acts as [0] in the arithmetic of
    [cosineSimilarity]. *)
Definition as_number (j : json num) : option num :=
  match j with
  | JNum x => Some x
  | JNull => Some num_zero
  | _ => None
  end.

(** An absent property reads as [undefined]. *)
Definition optional {A} (f : json num → option A) (v : option (json num))
  : option (option A) :=
  match v with
  | None => Some None
  | Some j => Some <$> f j
  end.

Definition as_vector (j : json num) : option (list num) :=
  match j with
  | JArr items => mapM as_number items
  | _ => None
  end.

Definition to_metadata (j : json num) : option StoredMetadata :=
  match j with
  | JObj f =>
      src ← get f (js "source") ≫= as_string;
      pg ← get f (js "page") ≫= as_int;
      ci ← get f (js "chunkIndex") ≫= as_int;
      tc ← get f (js "totalChunks") ≫= as_int;
      dt ← optional as_string (get f (js "documentType"));
      ti ← optional as_string (get f (js "title"));
      fs ← optional as_int (get f (js "fileSize"));
      fn ← optional as_string (get f (js "fileName"));
      Some {| source := src; page := pg; chunkIndex := ci; totalChunks := tc;
              documentType := dt; title := ti; fileSize := fs;
              fileName := fn |}
  | _ => None
  end.

Definition to_document (j : json num) : option (StoredDocument num) :=
  match j with
  | JObj f =>
      i ← get f (js "id") ≫= as_string;
      c ← get f (js "content") ≫= as_string;
      e ← optional as_vector (get f (js "embedding"));
      m ← get f (js "metadata") ≫= to_metadata;
      Some {| doc_id := i; doc_content := c; doc_embedding := e;
              doc_metadata := m |}
  | _ => None
  end.

(** The parsed data read at the type [StoredDocument[]] that the store
    gives it.  Data of another shape, which this program never writes,
    has no reading. *)
Definition parse (j : json num) : option (list (StoredDocument num)) :=
  match j with
  | JArr items => mapM to_document items
  | _ => None
  end.


End Json.
End Json.

(* ------------------------------------------------------------------ *)
(** * The persistent vector store (src/core/vector-db.ts) *)

(** A regular file of the directory [config.rag.vectorDbPath]: its text
    either parses as JSON or it does not. *)
Inductive file (num : Type) :=
  | Unparsable
  | Text (j : json num).
Arguments Unparsable {num}.
Arguments Text {num} j.

(** The entries of the directory, by file name. *)
Abbreviation entries num := (gmap jsstring (file num)).

(** The directory; [None] when it does not exist. *)
Abbreviation directory num := (option (entries num)).

(** ** Paths below the directory ([path.join], POSIX) *)

Module Path.

(** [p.split('/')]. *)
Fixpoint segmentsFrom (piece p : jsstring) : list jsstring :=
  match p with
  | [] => [piece]
  | c :: rest =>
      if (c =? 47)%N then piece :: segmentsFrom [] rest
      else segmentsFrom (piece ++ [c]) rest
  end.

Definition segments (p : jsstring) : list jsstring := segmentsFrom [] p.

(** One step of the normalisation that [path.join] ends with; [kept] are
    the segments kept so far, the last one first.  An empty segment and
    [.] are dropped, [..] takes the segment before it away. *)
Definition normalizeSegment (kept : list jsstring) (segment : jsstring)
  : list jsstring :=
  if decide (segment = [] ∨ segment = js ".") then kept
  else if decide (segment = js "..") then
    match kept with
    | top :: below => if decide (top = js "..") then segment :: kept else below
    | [] => [segment]
    end
  else segment :: kept.

(** Where [path.join(vectorDbPath, fileName)] points, seen from the
    directory: at one of its entries, or elsewhere (into a directory below
    it, or out of it). *)
Inductive target :=
  | Entry (name : jsstring)
  | Elsewhere.

Definition resolve (fileName : jsstring) : target :=
  match fold_left normalizeSegment (segments fileName) [] with
  | [name] => if decide (name = js "..") then Elsewhere else Entry name
  | _ => Elsewhere
  end.

End Path.

(** ** File names *)

(** The two halves of a surrogate pair: [0xD800..0xDBFF] and
    [0xDC00..0xDFFF]. *)
Definition isHighSurrogate (c : N) : bool :=
  (55296 <=? c)%N && (c <=? 56319)%N.

Definition isLowSurrogate (c : N) : bool :=
  (56320 <=? c)%N && (c <=? 57343)%N.

(** A string that UTF-8 encodes without loss: code units below [2^16],
    surrogates in pairs only. *)
Fixpoint wellFormed (s : jsstring) : bool :=
  match s with
  | [] => true
  | c :: rest =>
      if isHighSurrogate c then
        match rest with
        | d :: rest' => isLowSurrogate d && wellFormed rest'
        | [] => false
        end
      else negb (isLowSurrogate c) && (c <? 65536)%N && wellFormed rest
  end.

(** The number of bytes of the UTF-8 encoding of a well-formed string; the
    two halves of a surrogate pair make four bytes. *)
Definition utf8Bytes (c : N) : N :=
  if (c <? 128)%N then 1
  else if (c <? 2048)%N then 2
  else if isHighSurrogate c || isLowSurrogate c then 2
  else 3.

Definition utf8Length (s : jsstring) : N :=
  fold_right (λ c n, (utf8Bytes c + n)%N) 0%N s.

(** A name that a POSIX file system with names of at most 255 bytes
    (NAME_MAX of ext4, XFS, tmpfs, ...) takes for an entry as it is. *)
Definition validName (name : jsstring) : bool :=
  wellFormed name
  && forallb (λ c, negb (c =? 0)%N) name
  && (utf8Length name <=? 255)%N.

(** ** The file system *)

(** What the two writing calls of the store do to the entries of the
    directory.  The file system is the environment of the program: the
    embedding fixes what it does at a path that is an entry of the
    directory with a valid name, where the call succeeds on a disk that can
    be written, and leaves every other case to the instance (a name that is
    too long or that holds a NUL makes the call throw, a path that points
    elsewhere touches files that the embedding does not hold).
      - [writeFileSync fileName text dir]: the entries after
        [fs.writeFileSync(path.join(vectorDbPath, fileName), text)],
        whether the call returns or throws;
      - [unlinkSync fileName dir]: the entries after
        [if (fs.existsSync(p)) fs.unlinkSync(p)] with
        [p = path.join(vectorDbPath, fileName)]. *)
Class FileSystem (num : Type) := {
  writeFileSync : jsstring → json num → entries num → entries num;
  unlinkSync : jsstring → entries num → entries num;
  writeFileSync_entry :
    ∀ (fileName name : jsstring) (text : json num) (dir : entries num),
      Path.resolve fileName = Path.Entry name → validName name = true →
      writeFileSync fileName text dir = <[name := Text text]> dir;
  unlinkSync_entry :
    ∀ (fileName name : jsstring) (dir : entries num),
      Path.resolve fileName = Path.Entry name → validName name = true →
      unlinkSync fileName dir = delete name dir
}.

(** The object [PersistentVectorDB]. *)
Record VectorDb (num : Type) := {
  collections : gmap jsstring (list (StoredDocument num));
  initialized : bool
}.
Arguments collections {num} _.
Arguments initialized {num} _.

Module VectorDB.

(** A stable sort by a comparator, as [Array.prototype.sort] is since
    ES2019.  [after x y] says that the comparator is positive on [(x, y)]:
    [x] has to come after [y].  An element is inserted from the left into
    the sorted rest and moves past exactly the elements it has to come
    after, so elements that the comparator does not separate keep their
    order.  This is the order that ECMAScript prescribes when the
    comparator is consistent for the elements ([consistentComparator]
    below).  When it is not (a score is [NaN]), the standard leaves the
    order to the engine: the list computed here is then a permutation of
    the elements as every engine's is, and nothing is stated of its
    order. *)
Section Sort.
Context {A : Type} (after : A → A → bool).

Fixpoint insert_sorted (x : A) (l : list A) : list A :=
  match l with
  | [] => [x]
  | y :: l' => if after x y then y :: insert_sorted x l' else x :: l
  end.

Fixpoint sort (l : list A) : list A :=
  match l with
  | [] => []
  | x :: l' => insert_sorted x (sort l')
  end.

(** [x] may stand before [y]. *)
Definition inOrder (x y : A) : Prop := after x y = false.

End Sort.

(** A consistent comparator for the values [l] (ECMA-262, 23.1.3.30):
    with [a <C b], [a =C b] and [a >C b] for a result of [comparator a b]
    that is negative, zero and positive, for all [a], [b], [c] of [l]
      - the result is not [NaN], so that exactly one of the three holds,
      - [a =C a]; if [a =C b] then [b =C a],
      - [=C], [<C] and [>C] are transitive.  *)
Section Comparator.
Context {num : Type} `{!Number num} {A : Type} (comparator : A → A → num).

Definition precedes (a b : A) : bool := num_ltb (comparator a b) num_zero.
Definition ties (a b : A) : bool := num_eqb (comparator a b) num_zero.
Definition follows (a b : A) : bool := num_ltb num_zero (comparator a b).

Definition exactlyOne (p q r : bool) : bool :=
  (p && negb q && negb r) || (negb p && q && negb r)
  || (negb p && negb q && r).

Definition consistentAt (a b c : A) : bool :=
  exactlyOne (precedes a b) (ties a b) (follows a b)
  && ties a a
  && implb (ties a b) (ties b a)
  && implb (ties a b && ties b c) (ties a c)
  && implb (precedes a b && precedes b c) (precedes a c)
  && implb (follows a b && follows b c) (follows a c).

Definition consistentComparator (l : list A) : bool :=
  forallb (λ a, forallb (λ b, forallb (consistentAt a b) l) l) l.

End Comparator.

(** The file name [`${collectionName}.json`]. *)
Definition fileOf (collectionName : jsstring) : jsstring :=
  collectionName ++ js ".json".

(** [files.filter(f => f.endsWith('.json'))] and
    [path.basename(file, '.json')] in one: the collection that a file of
    the directory holds. *)
Definition collectionOf (fileName : jsstring) : option jsstring :=
  let n := (length fileName - 5)%nat in
  if decide (drop n fileName = js ".json" ∧ 5 ≤ length fileName)
  then Some (take n fileName)
  else None.


Section Store.
Context {num : Type} `{!Number num} `{!FileSystem num}.

Definition emptyDb : VectorDb num :=
  {| collections := ∅; initialized := false |}.

(** [saveCollectionToDisk].  Whatever the write throws is caught and
    logged, so the call returns in every case and what it has done shows
    in the entries only. *)
Definition saveCollectionToDisk (db : VectorDb num) (disk : directory num)
    (collectionName : jsstring) : directory num :=
  match db.(collections) !! collectionName with
  | None => disk
  | Some collection =>
      let dir := default ∅ disk in        (* mkdirSync if missing *)
      Some (writeFileSync (fileOf collectionName) (Json.stringify collection)
              dir)
  end.

(** One iteration of the loop of [loadCollectionsFromDisk]: a file that
    does not parse is skipped with a warning.  The source stores whatever
    [JSON.parse] returns; the store of the embedding holds arrays of
    records only, so data of another shape has no counterpart in it and is
    left out here.  What is said of a directory that is read is therefore
    said of directories whose files the store has written ([written]). *)
Definition loadFile (fileName : jsstring) (f : file num)
    (cs : gmap jsstring (list (StoredDocument num)))
  : gmap jsstring (list (StoredDocument num)) :=
  match collectionOf fileName, f with
  | Some collectionName, Text j =>
      match Json.parse j with
      | Some data => <[collectionName := data]> cs
      | None => cs
      end
  | _, _ => cs
  end.


(** [loadCollectionsFromDisk].  The files are visited in the order of the
    directory listing; different files hold different collections, so the
    order does not show in the result. *)
Definition loadCollectionsFromDisk (db : VectorDb num) (disk : directory num)
  : VectorDb num * directory num :=
  match disk with
  | None => (db, Some ∅)
  | Some dir =>
      ({| collections := map_fold loadFile db.(collections) dir;
          initialized := db.(initialized) |}, disk)
  end.

Definition initialize (db : VectorDb num) (disk : directory num)
  : VectorDb num * directory num :=
  if db.(initialized) then (db, disk)
  else
    let '(db', disk') := loadCollectionsFromDisk db disk in
    ({| collections := db'.(collections); initialized := true |}, disk').

Definition ensureInitialized (db : VectorDb num) (disk : directory num)
  : VectorDb num * directory num :=
  if negb db.(initialized) then initialize db disk else (db, disk).

(** The loop of [cosineSimilarity], entered with [a.length = b.length]:
    the accumulators are [dotProduct], [normA] and [normB]. *)
Fixpoint accumulate (a b : list num) (acc : num * num * num)
  : num * num * num :=
  match a, b with
  | x :: a', y :: b' =>
      let '(dotProduct, normA, normB) := acc in
      accumulate a' b'
        (num_add dotProduct (num_mul x y),
         num_add normA (num_mul x x),
         num_add normB (num_mul y y))
  | _, _ => acc
  end.

Definition cosineSimilarity (a b : list num) : num :=
  if negb (length a =? length b)%nat then num_zero
  else
    let '(dotProduct, normA, normB) :=
      accumulate a b (num_zero, num_zero, num_zero) in
    if num_eqb normA num_zero || num_eqb normB num_zero then num_zero
    else num_div dotProduct (num_mul (num_sqrt normA) (num_sqrt normB)).

(** The three sums of the loop. *)
Definition dotProduct (a b : list num) : num :=
  fold_left (λ acc xy, num_add acc (num_mul xy.1 xy.2)) (zip a b) num_zero.

Definition squaredNorm (a : list num) : num :=
  fold_left (λ acc x, num_add acc (num_mul x x)) a num_zero.

(** The record that [addDocuments] builds from [chunks[i]] and
    [embeddings[i]]. *)
Definition storedDocument (chunk : DocumentChunk)
    (embedding : option (list num)) : StoredDocument num :=
  let m := chunk.(chunk_metadata) in
  {| doc_id := chunk.(chunk_id);
     doc_content := chunk.(chunk_content);
     doc_embedding := embedding;
     doc_metadata :=
       {| source := m.(cm_source);
          page := or_default m.(cm_page) 0;
          chunkIndex := m.(cm_chunkIndex);
          totalChunks := m.(cm_totalChunks);
          documentType := m.(cm_documentType);
          title := m.(cm_title);
          fileSize := m.(cm_fileSize);
          fileName := m.(cm_fileName) |} |}.

Definition newDocuments (chunks : list DocumentChunk)
    (embeddings : list (list num)) : list (StoredDocument num) :=
  imap (λ i chunk, storedDocument chunk (embeddings !! i)) chunks.

Definition addDocuments (db : VectorDb num) (disk : directory num)
    (collectionName : jsstring) (chunks : list DocumentChunk)
    (embeddings : list (list num))
  : outcome unit * VectorDb num * directory num :=
  let '(db, disk) := ensureInitialized db disk in
  let collection := default [] (db.(collections) !! collectionName) in
  let db' :=
    {| collections :=
         <[collectionName := collection ++ newDocuments chunks embeddings]>
           db.(collections);
       initialized := db.(initialized) |} in
  (Returned (), db', saveCollectionToDisk db' disk collectionName).

(** [{ doc, score }]. *)
Definition scored : Type := StoredDocument num * num.

(** [(a, b) => b.score - a.score]. *)
Definition compareFn (a b : scored) : num := num_sub b.2 a.2.

Definition comesAfter (a b : scored) : bool :=
  num_ltb num_zero (compareFn a b).

(** [collection.map(doc => ({doc, score: cosineSimilarity(q, doc.embedding)}))];
    reading [length] of an [embedding] that is [undefined] throws. *)
Definition similaritiesOf (queryEmbedding : list num)
    (collection : list (StoredDocument num)) : option (list scored) :=
  mapM (λ doc, (λ e, (doc, cosineSimilarity queryEmbedding e))
                 <$> doc.(doc_embedding)) collection.

Definition searchResult (item : scored) : SearchResult num :=
  {| res_content := item.1.(doc_content);
     res_score := item.2;
     res_metadata := item.1.(doc_metadata) |}.

(** The score of a record that holds a vector, and the records of a
    collection with their scores. *)
Definition scoreOf (q : list num) (doc : StoredDocument num) : num :=
  cosineSimilarity q (default [] doc.(doc_embedding)).

Definition scoresOf (q : list num) (collection : list (StoredDocument num))
  : list scored :=
  (λ doc, (doc, scoreOf q doc)) <$> collection.

(** [limit: number = config.rag.maxResults]. *)
Definition limitOf (config : RagConfig num) (limit : option Z) : Z :=
  default config.(Config.maxResults) limit.

Definition search (config : RagConfig num) (db : VectorDb num)
    (disk : directory num) (collectionName : jsstring)
    (queryEmbedding : list num) (limit : option Z)
  : outcome (list (SearchResult num)) * VectorDb num * directory num :=
  let limit := limitOf config limit in
  let '(db, disk) := ensureInitialized db disk in
  match db.(collections) !! collectionName with
  | None => (Returned [], db, disk)
  | Some collection =>
      if (length collection =? 0)%nat then (Returned [], db, disk)
      else
        match similaritiesOf queryEmbedding collection with
        | None => (Thrown SearchFailed, db, disk)
        | Some similarities =>
            let topResults := slice_to (sort comesAfter similarities) limit in
            (Returned (searchResult <$> topResults), db, disk)
        end
  end.

(** [deleteCollection]: the entry of the map and the file.  The entries
    of the directory are regular files, which [unlinkSync] removes. *)
Definition deleteCollection (db : VectorDb num) (disk : directory num)
    (name : jsstring) : outcome unit * VectorDb num * directory num :=
  let '(db, disk) := ensureInitialized db disk in
  let db' := {| collections := delete name db.(collections);
                initialized := db.(initialized) |} in
  (Returned (), db', unlinkSync (fileOf name) <$> disk).

(** [listCollections]; the order of the names is that of the keys of the
    map, which the embedding does not keep. *)
Definition listCollections (db : VectorDb num) (disk : directory num)
  : list jsstring * VectorDb num * directory num :=
  let '(db, disk) := ensureInitialized db disk in
  ((map_to_list db.(collections)).*1, db, disk).

Definition getCollectionStats (db : VectorDb num) (disk : directory num)
    (name : jsstring)
  : option (jsstring * nat) * VectorDb num * directory num :=
  let '(db, disk) := ensureInitialized db disk in
  ((λ collection, (name, length collection)) <$> db.(collections) !! name,
   db, disk).

End Store.

End VectorDB.

(** The cosine similarity as a formula, to compare [cosineSimilarity]
    with: the quotient of the dot product by the product of the norms, and
    0 for vectors of different lengths and where a squared norm is 0. *)
Module Similarity.
Definition cosine {num : Type} `{!Number num} (a b : list num) : num :=
  if negb (length a =? length b)%nat then num_zero
  else if num_eqb (VectorDB.squaredNorm a) num_zero
          || num_eqb (VectorDB.squaredNorm b) num_zero then num_zero
  else num_div (VectorDB.dotProduct a b)
         (num_mul (num_sqrt (VectorDB.squaredNorm a))
            (num_sqrt (VectorDB.squaredNorm b))).
End Similarity.


(* ------------------------------------------------------------------ *)
(** * The cache (src/utils/cache.ts) *)

(** [QueryResponse], without [processingTime]. *)
Record QueryResponse (num : Type) := {
  answer : jsstring;
  sources : list (SearchResult num)
}.
Arguments answer {num} _.
Arguments sources {num} _.

Module Cache.

(** [ToInt32]: what [<<] and [&] reduce their operands and results to. *)
Definition toInt32 (z : Z) : Z := ((z + 2 ^ 31) mod 2 ^ 32 - 2 ^ 31)%Z.

(** The body of the loop of [hashString]:
    [hash = ((hash << 5) - hash) + char; hash = hash & hash]. *)
Definition hashStep (hash : Z) (char : N) : Z :=
  toInt32 (toInt32 (hash * 32) - hash + Z.of_N char).

(** [hashString], up to the base-36 rendering of [Math.abs(hash)], which
    is injective on the absolute values. *)
Definition hashString (str : jsstring) : Z :=
  Z.abs (fold_left hashStep str 0%Z).

(** The entries of the [NodeCache].  The keys [`embedding:${h}`] and
    [`search:${collection}:${h}`] never coincide, so each family is a map
    of its own, keyed by what follows the prefix.  Entries live for the
    standard time-to-live; no entry expires in the runs considered here. *)
Record t (num : Type) := {
  embeddings : gmap Z (list num);
  searchResults : gmap (jsstring * Z) (QueryResponse num)
}.
Arguments embeddings {num} _.
Arguments searchResults {num} _.

Section Cache.
Context {num : Type}.

Definition empty : t num := {| embeddings := ∅; searchResults := ∅ |}.

Definition setEmbedding (cache : t num) (text : jsstring)
    (embedding : list num) : t num :=
  {| embeddings := <[hashString text := embedding]> cache.(embeddings);
     searchResults := cache.(searchResults) |}.

Definition getEmbedding (cache : t num) (text : jsstring)
  : option (list num) :=
  cache.(embeddings) !! hashString text.

Definition setSearchResult (cache : t num) (query collection : jsstring)
    (results : QueryResponse num) : t num :=
  {| embeddings := cache.(embeddings);
     searchResults :=
       <[(collection, hashString query) := results]> cache.(searchResults) |}.

Definition getSearchResult (cache : t num) (query collection : jsstring)
  : option (QueryResponse num) :=
  cache.(searchResults) !! (collection, hashString query).

(** [clear]. *)
Definition clear (cache : t num) : t num := empty.

End Cache.
End Cache.

(* ------------------------------------------------------------------ *)
(** * The embedding service (src/core/embeddings.ts) *)

Module Embeddings.

(** What [this.extractor(text, {pooling: 'mean', normalize: true})]
    resolves to, as [Array.from(output.data)]; [None] when it rejects. *)
Abbreviation extractor num := (jsstring → option (list num)).

(** The object [LocalEmbeddingService]. *)
Record service (num : Type) := {
  the_extractor : option (extractor num);   (* this.extractor *)
  initialized : bool
}.
Arguments the_extractor {num} _.
Arguments initialized {num} _.

Definition BATCH_SIZE : nat := 50.

Section Service.
Context {num : Type}.
(** What [pipeline('feature-extraction', config.rag.embeddingModel)]
    resolves to; [None] when loading the model fails. *)
Context (pipeline : option (extractor num)).

Definition fresh : service num :=
  {| the_extractor := None; initialized := false |}.

(** [initialize], run without interruption. *)
Definition initialize (s : service num) : outcome unit * service num :=
  if s.(initialized) then (Returned (), s)
  else
    match pipeline with
    | Some extract =>
        (Returned (), {| the_extractor := Some extract; initialized := true |})
    | None => (Thrown ModelInitFailed, s)
    end.

Definition ensureInitialized (s : service num) : outcome unit * service num :=
  if negb s.(initialized) then initialize s else (Returned (), s).

(** The callback of [batch.map]: the vector of one text, as seen by a
    cache. *)
Definition embedding_for (extract : extractor num) (cache : Cache.t num)
    (text : jsstring) : option (list num) :=
  match Cache.getEmbedding cache text with
  | Some embedding => Some embedding
  | None => extract text
  end.

(** The part of the callback that follows its [await]: the vector is put
    into the cache.  [seen] is the cache that was consulted. *)
Definition write_back (extract : extractor num) (seen : Cache.t num)
    (cache : Cache.t num) (text : jsstring) : Cache.t num :=
  match Cache.getEmbedding seen text with
  | Some _ => cache
  | None =>
      match extract text with
      | Some embedding => Cache.setEmbedding cache text embedding
      | None => cache
      end
  end.

(** [await Promise.all(batch.map(async text => ...))].  Every callback
    runs up to its [await] when [map] calls it, so all of them consult the
    cache as it is when the batch starts; the vectors are put into the
    cache as the model delivers them, taken here in the order of the
    batch.  One rejection rejects the whole. *)
Definition processBatch (extract : extractor num) (cache : Cache.t num)
    (batch : list jsstring) : option (list (list num)) * Cache.t num :=
  (mapM (embedding_for extract cache) batch,
   fold_left (write_back extract cache) batch cache).

(** The loop over the batches.  [rest] is [texts.slice(batchStart)]; the
    loop runs once per batch, so [length texts] iterations are enough
    fuel. *)
Fixpoint processBatches (fuel : nat) (extract : extractor num)
    (cache : Cache.t num) (rest : list jsstring)
    (embeddings : list (list num))
  : outcome (list (list num)) * Cache.t num :=
  match fuel, rest with
  | S fuel', _ :: _ =>
      match processBatch extract cache (take BATCH_SIZE rest) with
      | (Some batchEmbeddings, cache') =>
          processBatches fuel' extract cache' (drop BATCH_SIZE rest)
            (embeddings ++ batchEmbeddings)
      | (None, cache') => (Thrown EmbeddingsFailed, cache')
      end
  | _, _ => (Returned embeddings, cache)
  end.

Definition generateEmbeddings (s : service num) (cache : Cache.t num)
    (texts : list jsstring)
  : outcome (list (list num)) * service num * Cache.t num :=
  match ensureInitialized s with
  | (Thrown e, s') => (Thrown e, s', cache)
  | (Returned _, s') =>
      match s'.(the_extractor) with
      | None => (Thrown EmbeddingsFailed, s', cache)
      | Some extract =>
          let '(result, cache') :=
            processBatches (length texts) extract cache texts [] in
          (result, s', cache')
      end
  end.

Definition generateQueryEmbedding (s : service num) (cache : Cache.t num)
    (query : jsstring) : outcome (list num) * service num * Cache.t num :=
  match ensureInitialized s with
  | (Thrown e, s') => (Thrown e, s', cache)
  | (Returned _, s') =>
      match s'.(the_extractor) with
      | None => (Thrown QueryEmbeddingFailed, s', cache)
      | Some extract =>
          match embedding_for extract cache query with
          | Some embedding =>
              (Returned embedding, s', write_back extract cache cache query)
          | None => (Thrown QueryEmbeddingFailed, s', cache)
          end
      end
  end.

End Service.

Section Run.
Context {num : Type} (extract : extractor num).

(** The loop of [generateEmbeddings] on [texts], and the cache as the
    first [k] batches of [texts] leave it. *)
Definition run (cache : Cache.t num) (texts : list jsstring)
  : outcome (list (list num)) * Cache.t num :=
  processBatches (length texts) extract cache texts [].

Definition cacheBefore (cache : Cache.t num) (texts : list jsstring)
    (k : nat) : Cache.t num :=
  (run cache (take (BATCH_SIZE * k) texts)).2.

Definition prepend (acc : list (list num)) (r : outcome (list (list num)))
  : outcome (list (list num)) :=
  match r with
  | Returned es => Returned (acc ++ es)
  | Thrown e => Thrown e
  end.

(** No two different texts of the call have the same hash. *)
Definition collisionFree (texts : list jsstring) : Prop :=
  ∀ t t', t ∈ texts → t' ∈ texts →
    Cache.hashString t = Cache.hashString t' → t = t'.

(** On the texts of the call, [cache] holds what [cache0] held, or the
    output of the model where [cache0] held nothing. *)
Definition agrees (texts : list jsstring) (cache0 cache : Cache.t num)
  : Prop :=
  ∀ t, t ∈ texts →
    Cache.getEmbedding cache t = Cache.getEmbedding cache0 t
    ∨ (Cache.getEmbedding cache0 t = None
       ∧ Cache.getEmbedding cache t = extract t).

End Run.
End Embeddings.

(* ------------------------------------------------------------------ *)
(** * The query of the service (src/core/rag-service.ts) *)

Record QueryRequest (num : Type) := {
  question : jsstring;
  collection : jsstring;
  limit : option Z;
  threshold : option num
}.
Arguments question {num} _.
Arguments collection {num} _.
Arguments limit {num} _.
Arguments threshold {num} _.

Module Rag.

(** The object [RAGService], with the two components that [query] uses,
    and the objects outside it that [query] reads and writes. *)
Record service (num : Type) := {
  embeddings : Embeddings.service num;
  vectorDb : VectorDb num;
  initialized : bool
}.
Arguments embeddings {num} _.
Arguments vectorDb {num} _.
Arguments initialized {num} _.

Record world (num : Type) := {
  rag : service num;
  cache : Cache.t num;
  disk : directory num
}.
Arguments rag {num} _.
Arguments cache {num} _.
Arguments disk {num} _.

(** The decimal digits of an integer, as a template literal prints it. *)
Definition digits (z : Z) : jsstring :=
  js (NilEmpty.string_of_int (Z.to_int z)).

Section Service.
Context {num : Type} `{!Number num}.
Context (pipeline : option (Embeddings.extractor num)).
Context (config : RagConfig num).

Definition fresh : service num :=
  {| embeddings := Embeddings.fresh; vectorDb := VectorDB.emptyDb;
     initialized := false |}.

(** [initialize]: the model is loaded and the data directories are
    created. *)
Definition initialize (w : world num) : outcome unit * world num :=
  if w.(rag).(initialized) then (Returned (), w)
  else
    match Embeddings.initialize pipeline w.(rag).(embeddings) with
    | (Returned _, e) =>
        (Returned (),
         {| rag := {| embeddings := e; vectorDb := w.(rag).(vectorDb);
                      initialized := true |};
            cache := w.(cache);
            disk := Some (default ∅ w.(disk)) |})
    | (Thrown e, _) => (Thrown (InitializationFailed e), w)
    end.

Definition ensureInitialized (w : world num) : outcome unit * world num :=
  if negb w.(rag).(initialized) then initialize w else (Returned (), w).

(** [`[${source}, Page ${page}]\n${content}`]. *)
Definition formatResult (result : SearchResult num) : jsstring :=
  js "[" ++ result.(res_metadata).(source) ++ js ", Page "
  ++ digits result.(res_metadata).(page) ++ [93; 10]%N
  ++ result.(res_content).

(** The separator ['\n\n---\n\n']. *)
Definition separator : jsstring := [10; 10; 45; 45; 45; 10; 10]%N.

Definition noContent : jsstring :=
  js "No relevant content found in the documents.".

Definition similarityThresholdOf (request : QueryRequest num) : num :=
  match request.(threshold) with
  | Some t => t
  | None => config.(Config.similarityThreshold)
  end.

Definition passes (request : QueryRequest num) (result : SearchResult num)
  : bool :=
  num_leb (similarityThresholdOf request) result.(res_score).

(** The response built from the results of the search. *)
Definition respond (request : QueryRequest num)
    (searchResults : list (SearchResult num)) : QueryResponse num :=
  let filteredResults := List.filter (passes request) searchResults in
  let context := join separator (formatResult <$> filteredResults) in
  {| answer := match context with [] => noContent | _ => context end;
     sources := filteredResults |}.

Definition query (w : world num) (request : QueryRequest num)
  : outcome (QueryResponse num) * world num :=
  match ensureInitialized w with
  | (Thrown e, w') => (Thrown e, w')
  | (Returned _, w) =>
      match Cache.getSearchResult w.(cache) request.(question)
              request.(collection) with
      | Some cachedResult => (Returned cachedResult, w)
      | None =>
          let '(embedded, e, cache1) :=
            Embeddings.generateQueryEmbedding pipeline w.(rag).(embeddings)
              w.(cache) request.(question) in
          match embedded with
          | Thrown err =>
              (Thrown (QueryFailed err),
               {| rag := {| embeddings := e; vectorDb := w.(rag).(vectorDb);
                            initialized := w.(rag).(initialized) |};
                  cache := cache1; disk := w.(disk) |})
          | Returned queryEmbedding =>
              let '(found, db, disk1) :=
                VectorDB.search config w.(rag).(vectorDb) w.(disk)
                  request.(collection) queryEmbedding
                  (Some (or_default request.(limit)
                           config.(Config.maxResults))) in
              let r := {| embeddings := e; vectorDb := db;
                          initialized := w.(rag).(initialized) |} in
              match found with
              | Thrown err =>
                  (Thrown (QueryFailed err),
                   {| rag := r; cache := cache1; disk := disk1 |})
              | Returned searchResults =>
                  let response := respond request searchResults in
                  (Returned response,
                   {| rag := r;
                      cache := Cache.setSearchResult cache1
                                 request.(question) request.(collection)
                                 response;
                      disk := disk1 |})
              end
          end
      end
  end.

End Service.
End Rag.

(* ------------------------------------------------------------------ *)
(** * Callers of an embedding service that is still loading *)

(** [initialize] and [ensureInitialized] of [LocalEmbeddingService] as the
    event loop runs them: a caller runs from one [await] to the next
    without interruption, and between two [await]s any other caller may
    run.  The loads are taken to succeed. *)
Module Loading.

(** Where a caller of [ensureInitialized] stands. *)
Inductive caller :=
  | NotStarted
  | AwaitingImport      (* at [await import('@xenova/transformers')] *)
  | AwaitingPipeline    (* at [await pipeline(...)]: a load is in flight *)
  | Finished (loaded : bool).   (* [loaded]: it went through a load *)

(** The fields of the service, and the number of calls of [pipeline(...)]
    so far: each one loads the model. *)
Record service := {
  initialized : bool;
  loads : nat
}.

Definition fresh : service := {| initialized := false; loads := 0 |}.

(** What a caller does when it is given the turn. *)
Definition advance (s : service) (c : caller) : service * caller :=
  match c with
  | NotStarted =>
      (* [if (!this.initialized) await this.initialize()], and in
         [initialize]: [if (this.initialized) return] *)
      if s.(initialized) then (s, Finished false) else (s, AwaitingImport)
  | AwaitingImport =>
      ({| initialized := s.(initialized); loads := S s.(loads) |},
       AwaitingPipeline)
  | AwaitingPipeline =>
      (* [this.extractor = ...; this.initialized = true] *)
      ({| initialized := true; loads := s.(loads) |}, Finished true)
  | Finished l => (s, Finished l)
  end.

Definition system : Type := service * list caller.

(** The event loop gives the turn to any caller. *)
Inductive step : system → system → Prop :=
  | step_caller (s : service) (callers : list caller) (i : nat) (c : caller) :
      callers !! i = Some c →
      step (s, callers) ((advance s c).1, <[i := (advance s c).2]> callers).

(** The callers take turns as a schedule says. *)
Definition turn (sys : system) (i : nat) : system :=
  match sys.2 !! i with
  | Some c => ((advance sys.1 c).1, <[i := (advance sys.1 c).2]> sys.2)
  | None => sys
  end.

Definition exec (schedule : list nat) (sys : system) : system :=
  fold_left turn schedule sys.

(** A caller that has called [pipeline(...)]. *)
Definition startedLoad (c : caller) : bool :=
  match c with
  | AwaitingPipeline | Finished true => true
  | _ => false
  end.

Definition start (n : nat) : system := (fresh, replicate n NotStarted).

(** A caller that found the service not initialised when it tested the
    flag: it is on its way through [initialize], or it has gone through
    it. *)
Definition foundUninitialized (c : caller) : bool :=
  match c with
  | AwaitingImport | AwaitingPipeline | Finished true => true
  | _ => false
  end.

(** The schedule in which [n] callers take turns, three times round. *)
Definition inTurns (n : nat) : list nat := seq 0 n ++ seq 0 n ++ seq 0 n.

(** The loads are counted by the callers that started one. *)
Definition counted (sys : system) : Prop :=
  sys.1.(loads) = length (List.filter startedLoad sys.2)
  ∧ (sys.1.(initialized) = true → ∃ i, sys.2 !! i = Some (Finished true)).

End Loading.

(* ------------------------------------------------------------------ *)
(** * Sample data *)

Module Samples.

(** A file system in which the calls that point at an entry with a valid
    name succeed and every other call leaves the entries as they are. *)
Definition entriesOnly {num : Type} : FileSystem num.
Proof.
  refine
    {| writeFileSync fileName text dir :=
         match Path.resolve fileName with
         | Path.Entry name =>
             if validName name then <[name := Text text]> dir else dir
         | Path.Elsewhere => dir
         end;
       unlinkSync fileName dir :=
         match Path.resolve fileName with
         | Path.Entry name => if validName name then delete name dir else dir
         | Path.Elsewhere => dir
         end |}.
  - intros fileName name text dir -> ->. reflexivity.
  - intros fileName name dir -> ->. reflexivity.
Defined.

(** The configuration when no environment variable is set. *)
Definition defaultConfig : RagConfig float :=
  {| Config.chunkSize := 1000; Config.chunkOverlap := 200;
     Config.maxResults := 5;
     Config.similarityThreshold := 0x1.6666666666666p-1%float |}.

(** [RAG_CHUNK_SIZE=6] and [RAG_CHUNK_OVERLAP=0]. *)
Definition noOverlapConfig : RagConfig float :=
  {| Config.chunkSize := 6; Config.chunkOverlap := 0;
     Config.maxResults := 5;
     Config.similarityThreshold := 0x1.6666666666666p-1%float |}.

Definition chunkOf (content : string) : DocumentChunk :=
  {| chunk_id := js content; chunk_content := js content;
     chunk_metadata :=
       {| cm_source := js "doc.txt"; cm_page := Some 1%Z; cm_chunkIndex := 0;
          cm_totalChunks := 3; cm_documentType := Some (js "txt");
          cm_title := None; cm_fileSize := Some 12%Z;
          cm_fileName := Some (js "doc.txt") |} |}.

(** The unit vector [(0.6, 0.8)]: its squared norm is computed as 1. *)
Definition unitQuery : list float :=
  [0x1.3333333333333p-1; 0x1.999999999999ap-1]%float.

(** A record that holds that vector, and one that holds a multiple of it,
    [(1.2375, 1.65)]. *)
Definition same : StoredDocument float :=
  VectorDB.storedDocument (chunkOf "same") (Some unitQuery).

Definition stretched : StoredDocument float :=
  VectorDB.storedDocument (chunkOf "stretched")
    (Some [0x1.3cccccccccccdp+0; 0x1.a666666666667p+0]%float).

(** Two records with orthogonal unit vectors. *)
Definition north : StoredDocument float :=
  VectorDB.storedDocument (chunkOf "north") (Some [0; 1]%float).

Definition east : StoredDocument float :=
  VectorDB.storedDocument (chunkOf "east") (Some [1; 0]%float).

Definition compass : VectorDb float :=
  {| collections := {[ js "t" := [north; east; stretched] ]};
     initialized := true |}.

(** A store in which the record that holds the query vector comes before
    the stretched one. *)
Definition parallels : VectorDb float :=
  {| collections := {[ js "t" := [same; stretched] ]};
     initialized := true |}.

(** A model that maps every text to the same unit vector. *)
Definition constantModel : Embeddings.extractor float :=
  λ _, Some [1; 0]%float.

(** A model that tells the text [Aa] from every other text. *)
Definition tellingModel : Embeddings.extractor float :=
  λ text, Some (if decide (text = js "Aa") then [1; 0] else [0; 1])%float.

(** Fifty-one texts: [Aa] opens the first batch, [BB] is alone in the
    second. *)
Definition twoBatches : list jsstring :=
  js "Aa" :: replicate 49 (js "x") ++ [js "BB"].

(** A store with one record at similarity [0.6] to that vector. *)
Definition slanted : StoredDocument float :=
  VectorDB.storedDocument (chunkOf "slanted") (Some [3; 4]%float).

Definition slantedWorld : Rag.world float :=
  {| Rag.rag :=
       {| Rag.embeddings :=
            {| Embeddings.the_extractor := Some constantModel;
               Embeddings.initialized := true |};
          Rag.vectorDb :=
            {| collections := {[ js "t" := [slanted] ]};
               initialized := true |};
          Rag.initialized := true |};
     Rag.cache := Cache.empty;
     Rag.disk := Some ∅ |}.

(** What the search finds for that vector: the record, at [3 / 5]. *)
Definition found : SearchResult float :=
  {| res_content := js "slanted";
     res_score := 0x1.3333333333333p-1%float;
     res_metadata := slanted.(doc_metadata) |}.

Definition ask (minimum : float) : QueryRequest float :=
  {| question := js "where?"; collection := js "t"; limit := None;
     threshold := Some minimum |}.

End Samples.

(* ------------------------------------------------------------------ *)
(** * The storing of passages (src/core/rag-service.ts) *)

Module Indexing.
Section Indexing.
Context {num : Type} `{!Number num} `{!FileSystem num}.
Context (pipeline : option (Embeddings.extractor num)).

(** The two statements by which [indexDocument] stores the passages it
    has made (src/core/rag-service.ts):
      [const embeddings = await this.embeddings.generateEmbeddings(
         chunks.map(chunk => chunk.content));]
      [await this.vectorDb.addDocuments(collectionName, chunks, embeddings);]
    with what they throw. *)
Definition storeChunks (w : Rag.world num) (collectionName : jsstring)
    (chunks : list DocumentChunk) : outcome unit * Rag.world num :=
  let '(embedded, e, cache1) :=
    Embeddings.generateEmbeddings pipeline w.(Rag.rag).(Rag.embeddings)
      w.(Rag.cache) (chunk_content <$> chunks) in
  match embedded with
  | Thrown err =>
      (Thrown err,
       {| Rag.rag := {| Rag.embeddings := e;
                        Rag.vectorDb := w.(Rag.rag).(Rag.vectorDb);
                        Rag.initialized := w.(Rag.rag).(Rag.initialized) |};
          Rag.cache := cache1; Rag.disk := w.(Rag.disk) |})
  | Returned embeddings =>
      let '(added, db, disk1) :=
        VectorDB.addDocuments w.(Rag.rag).(Rag.vectorDb) w.(Rag.disk)
          collectionName chunks embeddings in
      (added,
       {| Rag.rag := {| Rag.embeddings := e; Rag.vectorDb := db;
                        Rag.initialized := w.(Rag.rag).(Rag.initialized) |};
          Rag.cache := cache1; Rag.disk := disk1 |})
  end.

End Indexing.
End Indexing.

(* ------------------------------------------------------------------ *)
(** * Vocabulary of the further properties *)

Module Passages.
(** The buffers that groups of sentences make when the first buffer goes
    on from [start] and every later one from the overlap text of the
    buffer before it. *)
Fixpoint chained (overlapSize : Z) (start : jsstring)
    (groups : list (list jsstring)) : list jsstring :=
  match groups with
  | [] => []
  | group :: rest =>
      let buf := start ++ concat group in
      buf :: chained overlapSize (Chunker.getOverlapText buf overlapSize) rest
  end.

(** [x] occurs in [l] as a run of consecutive characters. *)
Definition infix (x l : jsstring) : Prop := ∃ pre post, l = pre ++ x ++ post.

(** The characters of a text that are not white space. *)
Definition inked (s : jsstring) : jsstring :=
  List.filter (λ c, negb (Chunker.is_space c)) s.

(** A passage as [chunkText] delivers it: not empty, and trimmed. *)
Definition neat (p : jsstring) : Prop := p ≠ [] ∧ Chunker.trim p = p.

(** What the loop of [chunkText] keeps true of the sizes, with [limit] the
    bound on the buffer. *)
Definition sized (limit : Z) (b : Chunker.buffer) : Prop :=
  b.(Chunker.currentSize) = Z.of_nat (length b.(Chunker.currentChunk))
  ∧ (b.(Chunker.currentChunk) = []
     ∨ (∃ x c, b.(Chunker.currentChunk) = x ++ [c]
               ∧ Chunker.is_space c = true ∧ Chunker.blank x = false)
       ∧ (Z.of_nat (length b.(Chunker.currentChunk)) ≤ limit)%Z)
  ∧ Forall (λ p, (Z.of_nat (length p) < limit)%Z) b.(Chunker.chunks).

(** What the loop of [chunkText] keeps true of a sentence it has read: it
    is in a passage or in the buffer. *)
Definition held (b : Chunker.buffer) (sentence : jsstring) : Prop :=
  (∃ p, p ∈ b.(Chunker.chunks) ∧ infix (Chunker.trim sentence) p)
  ∨ infix (Chunker.trim sentence) b.(Chunker.currentChunk).

(** What the loop of [chunkText] keeps true when the overlap size is 0:
    the passages grow, and the buffer goes on from the last of them. *)
Definition accumulating (b : Chunker.buffer) : Prop :=
  Chunker.adjacent prefix b.(Chunker.chunks)
  ∧ (∀ p, last b.(Chunker.chunks) = Some p →
       ∃ buf r,
         p = Chunker.trim buf
         ∧ b.(Chunker.currentChunk) = buf ++ r
         ∧ Chunker.blank r = false).
End Passages.

Module Hashing.
(** The value of [hash] when the loop of [hashString] ends, before
    [Math.abs]. *)
Definition signedHash (str : jsstring) : Z :=
  fold_left Cache.hashStep str 0%Z.

(** The polynomial [s[0]*31^(n-1) + ... + s[n-1]] in the code units of a
    string, from the value [h]. *)
Definition polynomial31 (h : Z) (str : jsstring) : Z :=
  fold_left (λ h c, (31 * h + Z.of_N c)%Z) str h.
End Hashing.

Module History.
Section History.
Context {num : Type} `{!Number num} `{!FileSystem num}.

(** A call of one of the public methods of [PersistentVectorDB]. *)
Inductive operation :=
  | Add (collectionName : jsstring) (chunks : list DocumentChunk)
      (embeddings : list (list num))
  | Search (collectionName : jsstring) (queryEmbedding : list num)
      (limit : option Z)
  | Delete (name : jsstring)
  | List
  | Stats (name : jsstring).

(** The store and the directory of its files. *)
Definition state : Type := VectorDb num * directory num.

(** The store and the directory after a call. *)
Definition apply (config : RagConfig num) (st : state) (op : operation)
  : state :=
  match op with
  | Add c chunks embeddings =>
      let r := VectorDB.addDocuments st.1 st.2 c chunks embeddings in
      (r.1.2, r.2)
  | Search c q limit =>
      let r := VectorDB.search config st.1 st.2 c q limit in (r.1.2, r.2)
  | Delete c =>
      let r := VectorDB.deleteCollection st.1 st.2 c in (r.1.2, r.2)
  | List => let r := VectorDB.listCollections st.1 st.2 in (r.1.2, r.2)
  | Stats c => let r := VectorDB.getCollectionStats st.1 st.2 c in (r.1.2, r.2)
  end.

Definition run (config : RagConfig num) (ops : list operation) (st : state)
  : state :=
  fold_left (apply config) ops st.




End History.
Arguments operation : clear implicits.
Arguments state : clear implicits.
End History.

Module Reloading.
Section Reloading.
Context {num : Type} `{!Number num}.



End Reloading.
End Reloading.

(* ------------------------------------------------------------------ *)
(** * Further sample data *)

Module Fixtures.
Import Samples.

(** A model that rejects the text [b]. *)
Definition shyModel : Embeddings.extractor float :=
  λ text, if decide (text = js "b") then None else Some [1; 0]%float.

(** A model that rejects every text. *)
Definition silentModel : Embeddings.extractor float := λ _, None.

(** A service that holds the silent model. *)
Definition silentService : Embeddings.service float :=
  {| Embeddings.the_extractor := Some silentModel;
     Embeddings.initialized := true |}.

(** A model for which [east] lies along [(1, 1)] and every other text on
    the second axis. *)
Definition compassModel : Embeddings.extractor float :=
  λ text, Some (if decide (text = js "east") then [1; 1] else [0; 1])%float.

(** A service that has not started, beside a directory that does not
    exist. *)
Definition newWorld : Rag.world float :=
  {| Rag.rag := Rag.fresh; Rag.cache := Cache.empty; Rag.disk := None |}.

(** A service that runs, with an empty store. *)
Definition readyWorld : Rag.world float :=
  {| Rag.rag :=
       {| Rag.embeddings :=
            {| Embeddings.the_extractor := Some compassModel;
               Embeddings.initialized := true |};
          Rag.vectorDb := {| collections := ∅; initialized := true |};
          Rag.initialized := true |};
     Rag.cache := Cache.empty;
     Rag.disk := Some ∅ |}.

Definition askFor (text : string) (minimum : float) : QueryRequest float :=
  {| question := js text; collection := js "t"; limit := None;
     threshold := Some minimum |}.

(** Calls of the store: two passages into [a], one into [b], a search,
    and [a] deleted. *)
Definition calls : list (History.operation float) :=
  [History.Add (js "a") [chunkOf "one"; chunkOf "two"]
     [[1; 0]; [0; 1]]%float;
   History.Add (js "b") [chunkOf "three"] [[3; 4]%float];
   History.Search (js "a") [1; 0]%float None;
   History.Delete (js "a")].

End Fixtures.

(* ------------------------------------------------------------------ *)
(** * Properties *)

Module VectorDBFacts.
Import VectorDB.

Section Generic.
Context {num : Type} `{!Number num}.
Implicit Types (db : VectorDb num) (disk : directory num).




End Generic.

(** ** Names without a path separator *)



Section Files.
Context {num : Type} `{!Number num} `{!FileSystem num}.



End Files.
End VectorDBFacts.


Module JsonFacts.
Section Roundtrip.
Context {num : Type} `{!Number num}.







End Roundtrip.
End JsonFacts.


Module StoreFacts.
Import VectorDB VectorDBFacts JsonFacts.

Section Generic.
Context {num : Type} `{!Number num} `{!FileSystem num}.
Implicit Types (db : VectorDb num) (disk : directory num).

Lemma ensureInitialized_initialized db disk :
  (ensureInitialized db disk).1.(initialized) = true.
Proof.
  unfold ensureInitialized, initialize.
  destruct (initialized db) eqn:Hi; cbn; [done|].
  by destruct (loadCollectionsFromDisk db disk).
Qed.

Lemma ensureInitialized_done db disk :
  db.(initialized) = true → ensureInitialized db disk = (db, disk).
Proof. unfold ensureInitialized. by intros ->. Qed.


(** C7.  A search in a collection that the store does not hold, or that
    holds no record, returns the empty sequence and does not throw; so
    does a search in a collection that has just been deleted.  "The store"
    is the map of collections after the lazy initialisation that every
    operation starts with. *)
Theorem search_unknown_or_empty (config : RagConfig num) db disk
    (c : jsstring) (q : list num) (limit : option Z) :
  (((ensureInitialized db disk).1.(collections) !! c = None
    ∨ (ensureInitialized db disk).1.(collections) !! c = Some []) →
   (search config db disk c q limit).1.1 = Returned [])
  ∧ (let after := deleteCollection db disk c in
     after.1.1 = Returned ()
     ∧ (search config after.1.2 after.2 c q limit).1.1 = Returned []).
Proof.
  split.
  - unfold search. destruct (ensureInitialized db disk) as [db0 disk0]. cbn.
    intros [-> | ->]; done.
  - unfold deleteCollection.
    pose proof (ensureInitialized_initialized db disk) as Hi.
    destruct (ensureInitialized db disk) as [db0 disk0]. cbn in *.
    split; [done|]. unfold search.
    rewrite ensureInitialized_done by done. cbn.
    by rewrite lookup_delete_eq.
Qed.

(** C8.  [addDocuments] only appends.  It returns; afterwards the
    collection [c] is what it was before (nothing, if [c] was absent)
    followed by one record per passage, in the order of the passages, the
    [i]-th one built from the [i]-th passage and the [i]-th vector; every
    record that was in [c] is at its old position, unchanged; and every
    other collection is what it was. *)
Theorem addDocuments_appends db disk (c : jsstring)
    (chunks : list DocumentChunk) (embeddings : list (list num)) :
  let before := (ensureInitialized db disk).1.(collections) in
  let after := (addDocuments db disk c chunks embeddings).1.2.(collections) in
  let old := default [] (before !! c) in
  let new := newDocuments chunks embeddings in
  (addDocuments db disk c chunks embeddings).1.1 = Returned ()
  ∧ after !! c = Some (old ++ new)
  ∧ length new = length chunks
  ∧ (∀ i chunk, chunks !! i = Some chunk →
       new !! i = Some (storedDocument chunk (embeddings !! i))
       ∧ (old ++ new) !! (length old + i)%nat
         = Some (storedDocument chunk (embeddings !! i)))
  ∧ (∀ i doc, old !! i = Some doc → (old ++ new) !! i = Some doc)
  ∧ (∀ c', c' ≠ c → after !! c' = before !! c').
Proof.
  cbn zeta. unfold addDocuments.
  destruct (ensureInitialized db disk) as [db0 disk0]. cbn.
  assert (Hnew : ∀ i chunk, chunks !! i = Some chunk →
            newDocuments chunks embeddings !! i
            = Some (storedDocument chunk (embeddings !! i))).
  { intros i chunk Hi. unfold newDocuments.
    rewrite list_lookup_imap, Hi. done. }
  repeat split.
  - by rewrite lookup_insert_eq.
  - unfold newDocuments. by rewrite length_imap.
  - by apply Hnew.
  - rewrite lookup_app_r by lia.
    replace (length _ + i - length _)%nat with i by lia. by apply Hnew.
  - intros i doc Hi. by apply lookup_app_l_Some.
  - intros c' Hc. by rewrite lookup_insert_ne.
Qed.


End Generic.
End StoreFacts.


Module SortFacts.
Import VectorDB.

Section Sort.
Context {A : Type} (after : A → A → bool).

Lemma insert_sorted_perm (x : A) (l : list A) :
  insert_sorted after x l ≡ₚ x :: l.
Proof.
  induction l as [|y l IH]; cbn; [done|].
  destruct (after x y); [|done].
  rewrite IH. apply Permutation_swap.
Qed.

Lemma sort_perm (l : list A) : sort after l ≡ₚ l.
Proof.
  induction l as [|x l IH]; cbn; [done|].
  by rewrite insert_sorted_perm, IH.
Qed.

End Sort.

(** Where the comparator is the strict part of a total preorder on the
    elements at hand, of which [among] holds, the list is sorted. *)
Section Among.
Context {A : Type} (after : A → A → bool) (among : A → Prop).
Hypothesis after_asym :
  ∀ x y, among x → among y → after x y = true → after y x = false.
Hypothesis after_trans :
  ∀ x y z, among x → among y → among z →
    after x y = false → after y z = false → after x z = false.

Lemma sort_among (l : list A) : Forall among l → Forall among (sort after l).
Proof. intros Hl. by rewrite sort_perm. Qed.

Lemma insert_sorted_sorted (x : A) (l : list A) :
  among x → Forall among l →
  StronglySorted (inOrder after) l →
  StronglySorted (inOrder after) (insert_sorted after x l).
Proof using after_asym after_trans.
  intros Hx Hl Hs. induction Hs as [|y l Hs IH Hy]; cbn.
  - repeat constructor.
  - apply Forall_cons in Hl as [Hy' Hl].
    destruct (after x y) eqn:Hxy.
    + constructor; [by apply IH|].
      rewrite insert_sorted_perm. constructor; [|done].
      by apply after_asym.
    + constructor; [by constructor|].
      constructor; [done|].
      rewrite Forall_forall in Hy, Hl. apply Forall_forall. intros z Hz.
      apply after_trans with y; [done | done | by apply Hl | done |].
      by apply Hy.
Qed.

Lemma sort_sorted (l : list A) :
  Forall among l → StronglySorted (inOrder after) (sort after l).
Proof using after_asym after_trans.
  induction l as [|x l IH]; intros Hl; cbn; [constructor|].
  apply Forall_cons in Hl as [Hx Hl].
  apply insert_sorted_sorted; [done | by apply sort_among | by apply IH].
Qed.

(** Stability: elements that the comparator never separates keep their
    relative order. *)
Section Stable.
Context (P : A → Prop) `{!∀ x, Decision (P x)}.
Hypothesis same_rank :
  ∀ x y, among x → among y → P x → P y → after x y = false.

Lemma insert_sorted_filter (x : A) (l : list A) :
  among x → Forall among l →
  filter P (insert_sorted after x l) = filter P (x :: l).
Proof using same_rank.
  intros Hx Hl. induction l as [|y l IH]; cbn; [done|].
  apply Forall_cons in Hl as [Hy Hl].
  destruct (after x y) eqn:Hxy; [|done].
  rewrite filter_cons, IH, !filter_cons by done.
  destruct (decide (P y)) as [Py|Py]; [|done].
  destruct (decide (P x)) as [Px|Px]; [|done].
  by rewrite same_rank in Hxy.
Qed.

Lemma sort_filter (l : list A) :
  Forall among l → filter P (sort after l) = filter P l.
Proof using same_rank.
  induction l as [|x l IH]; intros Hl; cbn; [done|].
  apply Forall_cons in Hl as [Hx Hl].
  rewrite insert_sorted_filter by (try done; by apply sort_among).
  by rewrite !filter_cons, IH.
Qed.

End Stable.
End Among.

(** What a consistent comparator gives. *)
Section Consistent.
Context {num : Type} `{!Number num} {A : Type} (comparator : A → A → num).
Context (l : list A).
Hypothesis consistent : consistentComparator comparator l = true.

#[local] Notation "a ≺ b" := (precedes comparator a b = true) (at level 70).
#[local] Notation "a ≈ b" := (ties comparator a b = true) (at level 70).
#[local] Notation "a ≻ b" := (follows comparator a b = true) (at level 70).

Lemma consistentAt_among (a b c : A) :
  a ∈ l → b ∈ l → c ∈ l → consistentAt comparator a b c = true.
Proof using consistent.
  intros Ha Hb Hc. unfold consistentComparator in consistent.
  rewrite forallb_forall in consistent.
  specialize (consistent a (proj1 (list_elem_of_In _ _) Ha)).
  rewrite forallb_forall in consistent.
  specialize (consistent b (proj1 (list_elem_of_In _ _) Hb)).
  rewrite forallb_forall in consistent.
  exact (consistent c (proj1 (list_elem_of_In _ _) Hc)).
Qed.

Lemma one_of_three (a b : A) :
  a ∈ l → b ∈ l →
  (a ≺ b ∧ ¬ a ≈ b ∧ ¬ a ≻ b) ∨ (¬ a ≺ b ∧ a ≈ b ∧ ¬ a ≻ b)
  ∨ (¬ a ≺ b ∧ ¬ a ≈ b ∧ a ≻ b).
Proof using consistent.
  intros Ha Hb. pose proof (consistentAt_among a b b Ha Hb Hb) as H.
  unfold consistentAt, exactlyOne in H.
  destruct (precedes comparator a b), (ties comparator a b),
    (follows comparator a b); cbn in H; try discriminate;
    intuition congruence.
Qed.

Lemma ties_refl (a : A) : a ∈ l → a ≈ a.
Proof using consistent.
  intros Ha. pose proof (consistentAt_among a a a Ha Ha Ha) as H.
  unfold consistentAt in H.
  by destruct (exactlyOne _ _ _), (ties comparator a a).
Qed.

Lemma ties_sym (a b : A) : a ∈ l → b ∈ l → a ≈ b → b ≈ a.
Proof using consistent.
  intros Ha Hb Hab. pose proof (consistentAt_among a b b Ha Hb Hb) as H.
  unfold consistentAt in H. rewrite Hab in H.
  destruct (exactlyOne _ _ _), (ties comparator a a),
    (ties comparator b a); cbn in H; done.
Qed.

Lemma ties_trans (a b c : A) :
  a ∈ l → b ∈ l → c ∈ l → a ≈ b → b ≈ c → a ≈ c.
Proof using consistent.
  intros Ha Hb Hc Hab Hbc.
  pose proof (consistentAt_among a b c Ha Hb Hc) as H.
  unfold consistentAt in H. rewrite Hab, Hbc in H.
  destruct (exactlyOne _ _ _), (ties comparator a a),
    (ties comparator b a), (ties comparator a c); cbn in H; done.
Qed.

Lemma precedes_trans (a b c : A) :
  a ∈ l → b ∈ l → c ∈ l → a ≺ b → b ≺ c → a ≺ c.
Proof using consistent.
  intros Ha Hb Hc Hab Hbc.
  pose proof (consistentAt_among a b c Ha Hb Hc) as H.
  unfold consistentAt in H. rewrite Hab, Hbc in H.
  destruct (exactlyOne _ _ _), (ties comparator a a),
    (implb (ties comparator a b) _), (implb (ties comparator a b && _) _),
    (precedes comparator a c); cbn in H; done.
Qed.

Lemma follows_trans (a b c : A) :
  a ∈ l → b ∈ l → c ∈ l → a ≻ b → b ≻ c → a ≻ c.
Proof using consistent.
  intros Ha Hb Hc Hab Hbc.
  pose proof (consistentAt_among a b c Ha Hb Hc) as H.
  unfold consistentAt in H. rewrite Hab, Hbc in H.
  destruct (exactlyOne _ _ _), (ties comparator a a),
    (implb (ties comparator a b) _), (implb (ties comparator a b && _) _),
    (implb (precedes comparator a b && _) _),
    (follows comparator a c); cbn in H; done.
Qed.

(** [>C] is the strict part of a total preorder. *)
Lemma follows_asym (a b : A) :
  a ∈ l → b ∈ l →
  follows comparator a b = true → follows comparator b a = false.
Proof using consistent.
  intros Ha Hb Hab. apply not_true_is_false. intros Hba.
  pose proof (follows_trans a b a Ha Hb Ha Hab Hba) as Haa.
  pose proof (ties_refl a Ha).
  destruct (one_of_three a a Ha Ha); tauto.
Qed.

Lemma follows_irrefl (a : A) : a ∈ l → follows comparator a a = false.
Proof using consistent.
  intros Ha. destruct (follows comparator a a) eqn:Haa; [|done].
  by rewrite (follows_asym a a Ha Ha Haa) in Haa.
Qed.

Lemma follows_negtrans (a b c : A) :
  a ∈ l → b ∈ l → c ∈ l →
  follows comparator a b = false → follows comparator b c = false →
  follows comparator a c = false.
Proof using consistent.
  intros Ha Hb Hc Hab Hbc. apply not_true_is_false. intros Hac.
  assert (Hca : ¬ c ≈ a).
  { intros H. apply ties_sym in H; [|done..].
    destruct (one_of_three a c Ha Hc); tauto. }
  assert (Hca' : ¬ c ≻ a).
  { intros H. pose proof (follows_trans c a c Hc Ha Hc H Hac).
    pose proof (ties_refl c Hc).
    destruct (one_of_three c c Hc Hc); tauto. }
  assert (Hlt : c ≺ a).
  { destruct (one_of_three c a Hc Ha); tauto. }
  destruct (one_of_three a b Ha Hb) as [(Hab' & _)|[(_ & Hab' & _)|(_ & _ & ?)]];
    [| |congruence];
    destruct (one_of_three b c Hb Hc)
      as [(Hbc' & _)|[(_ & Hbc' & _)|(_ & _ & ?)]]; try congruence.
  - pose proof (precedes_trans a b c Ha Hb Hc Hab' Hbc').
    destruct (one_of_three a c Ha Hc); tauto.
  - pose proof (precedes_trans c a b Hc Ha Hb Hlt Hab').
    pose proof (ties_sym b c Hb Hc Hbc').
    destruct (one_of_three c b Hc Hb); tauto.
  - pose proof (precedes_trans b c a Hb Hc Ha Hbc' Hlt).
    pose proof (ties_sym a b Ha Hb Hab').
    destruct (one_of_three b a Hb Ha); tauto.
  - pose proof (ties_trans a b c Ha Hb Hc Hab' Hbc').
    destruct (one_of_three a c Ha Hc); tauto.
Qed.

Lemma ties_not_follows (a b x : A) :
  a ∈ l → b ∈ l → x ∈ l → a ≈ x → b ≈ x → follows comparator a b = false.
Proof using consistent.
  intros Ha Hb Hx Hax Hbx. apply not_true_is_false. intros Hab.
  pose proof (ties_sym b x Hb Hx Hbx) as Hxb.
  pose proof (ties_trans a x b Ha Hx Hb Hax Hxb).
  destruct (one_of_three a b Ha Hb); tauto.
Qed.

(** The list that [sort] makes is the one that ECMAScript prescribes: in
    order, and stable. *)
Lemma sort_consistent :
  StronglySorted (λ x y, follows comparator x y = false)
    (sort (follows comparator) l)
  ∧ (∀ x, x ∈ l →
       filter (λ y, ties comparator y x = true) (sort (follows comparator) l)
       = filter (λ y, ties comparator y x = true) l).
Proof using consistent.
  assert (Hl : Forall (λ x, x ∈ l) l) by by apply Forall_forall.
  split.
  - apply (sort_sorted (follows comparator) (λ x, x ∈ l));
      [apply follows_asym | apply follows_negtrans | done].
  - intros x Hx.
    apply (sort_filter (follows comparator) (λ x, x ∈ l)); [|done].
    intros a b Ha Hb Hax Hbx. by apply ties_not_follows with x.
Qed.

End Consistent.
End SortFacts.


Module CosineFacts.
Import VectorDB.

(** The sums that the loop of [cosineSimilarity] accumulates. *)
Section Sums.
Context {num : Type} `{!Number num}.

Lemma accumulate_folds (a b : list num) (d na nb : num) :
  length a = length b →
  accumulate a b (d, na, nb)
  = (fold_left (λ acc xy, num_add acc (num_mul xy.1 xy.2)) (zip a b) d,
     fold_left (λ acc x, num_add acc (num_mul x x)) a na,
     fold_left (λ acc x, num_add acc (num_mul x x)) b nb).
Proof.
  revert b d na nb.
  induction a as [|x a IH]; intros [|y b] d na nb Hl; cbn in *; try done.
  apply IH. lia.
Qed.

Lemma accumulate_sums (a b : list num) :
  length a = length b →
  accumulate a b (num_zero, num_zero, num_zero)
  = (dotProduct a b, squaredNorm a, squaredNorm b).
Proof. apply accumulate_folds. Qed.

Lemma cosineSimilarity_cosine (a b : list num) :
  cosineSimilarity a b = Similarity.cosine a b.
Proof.
  unfold cosineSimilarity, Similarity.cosine.
  destruct (length a =? length b)%nat eqn:Hl; cbn [negb]; [|done].
  apply Nat.eqb_eq in Hl. by rewrite accumulate_sums.
Qed.

(** What [cosineSimilarity] returns, by the tests it makes. *)
Lemma cosineSimilarity_cases (a b : list num) :
  cosineSimilarity a b =
    if negb (length a =? length b)%nat then num_zero
    else if num_eqb (squaredNorm a) num_zero
            || num_eqb (squaredNorm b) num_zero then num_zero
    else num_div (dotProduct a b)
           (num_mul (num_sqrt (squaredNorm a)) (num_sqrt (squaredNorm b))).
Proof. apply cosineSimilarity_cosine. Qed.

Lemma dotProduct_self (a : list num) : dotProduct a a = squaredNorm a.
Proof.
  unfold dotProduct, squaredNorm. generalize (num_zero : num).
  induction a as [|x a IH]; intros acc; cbn; [done|]. apply IH.
Qed.

(** The score of a vector against itself. *)
Lemma cosineSimilarity_self (a : list num) :
  cosineSimilarity a a =
    if num_eqb (squaredNorm a) num_zero then num_zero
    else num_div (squaredNorm a)
           (num_mul (num_sqrt (squaredNorm a)) (num_sqrt (squaredNorm a))).
Proof.
  rewrite cosineSimilarity_cases, Nat.eqb_refl, dotProduct_self. cbn [negb].
  by destruct (num_eqb (squaredNorm a) num_zero).
Qed.

End Sums.

End CosineFacts.


Module SearchFacts.
Import VectorDB VectorDBFacts StoreFacts SortFacts CosineFacts.

Section Generic.
Context {num : Type} `{!Number num}.

Lemma similaritiesOf_scoresOf (q : list num)
    (collection : list (StoredDocument num)) :
  (∀ doc, doc ∈ collection → is_Some doc.(doc_embedding)) →
  similaritiesOf q collection = Some (scoresOf q collection).
Proof.
  unfold similaritiesOf, scoresOf.
  induction collection as [|doc l IH]; intros Hv; [done|].
  cbn. destruct (Hv doc) as [e He]; [by left|].
  unfold scoreOf at 1. rewrite He. cbn.
  rewrite IH; [done|]. intros d Hd. apply Hv. by right.
Qed.

Lemma slice_to_count {A} (l : list A) (limit : Z) :
  slice_to l limit
  = take (Z.to_nat (if (limit <? 0)%Z then Z.of_nat (length l) + limit
                    else limit)) l.
Proof.
  unfold slice_to. destruct (limit <? 0)%Z eqn:Hneg.
  - f_equal. lia.
  - destruct (decide (limit ≤ Z.of_nat (length l))%Z).
    + by rewrite Z.min_l by lia.
    + rewrite Z.min_r by lia. rewrite Nat2Z.id.
      rewrite !take_ge; [done| lia | lia].
Qed.


Lemma search_cases (config : RagConfig num) (db : VectorDb num)
    (disk : directory num) (c : jsstring) (q : list num) (limit : option Z) :
  (search config db disk c q limit).1.1 =
    match (ensureInitialized db disk).1.(collections) !! c with
    | None => Returned []
    | Some collection =>
        match similaritiesOf q collection with
        | None => Thrown SearchFailed
        | Some similarities =>
            Returned (searchResult <$>
                        slice_to (sort comesAfter similarities)
                          (limitOf config limit))
        end
    end.
Proof.
  unfold search. destruct (ensureInitialized db disk) as [db0 disk0]. cbn.
  destruct (collections db0 !! c) as [collection|]; [|done].
  destruct collection as [|doc collection].
  - cbn. unfold slice_to. by rewrite take_nil.
  - cbn [length Nat.eqb].
    by destruct (similaritiesOf q (doc :: collection)).
Qed.


(** C1, as amended.  For a collection all of whose records hold a vector,
    and when the comparator [(a, b) => b.score - a.score] is a consistent
    comparator for the scores, as ECMAScript has it (in particular, none
    of the differences is [NaN]): [search] returns the first [limit]
    entries (for a negative [limit], all but the last [-limit]) of a list
    [ranked], each as its content, its score and its metadata; [ranked]
    holds every record with the cosine similarity of the query and its
    vector, computed in the arithmetic of the numbers (a permutation of
    the scored collection); no entry of [ranked] has to follow, by the
    comparator, one that stands behind it (descending order of the
    scores); entries that the comparator does not separate are in the
    order of the collection.  A record whose vector is the query is in
    [ranked] with the score [n / (sqrt n * sqrt n)], where [n] is the
    squared norm of the query as computed (and with 0 when [n] is 0). *)
Theorem search_ranks_by_cosine (config : RagConfig num) (db : VectorDb num)
    (disk : directory num) (c : jsstring) (q : list num) (limit : option Z)
    (collection : list (StoredDocument num)) :
  let k := match limit with
           | Some k => k
           | None => config.(Config.maxResults)
           end in
  let count :=
    Z.to_nat (if (k <? 0)%Z then Z.of_nat (length collection) + k else k) in
  let byScore := λ a b : StoredDocument num * num, num_sub b.2 a.2 in
  let scores :=
    (λ doc, (doc, Similarity.cosine q (default [] doc.(doc_embedding))))
      <$> collection in
  (ensureInitialized db disk).1.(collections) !! c = Some collection →
  Forall (λ doc, is_Some doc.(doc_embedding)) collection →
  consistentComparator byScore scores = true →
  ∃ ranked : list (StoredDocument num * num),
    (search config db disk c q limit).1.1
      = Returned
          ((λ x, {| res_content := x.1.(doc_content);
                    res_score := x.2;
                    res_metadata := x.1.(doc_metadata) |})
             <$> take count ranked)
    ∧ ranked ≡ₚ scores
    ∧ StronglySorted
        (λ x y, num_ltb num_zero (num_sub y.2 x.2) = false) ranked
    ∧ (∀ x, x ∈ scores →
         filter (λ y, num_eqb (num_sub x.2 y.2) num_zero = true) ranked
         = filter (λ y, num_eqb (num_sub x.2 y.2) num_zero = true) scores)
    ∧ (∀ doc, doc ∈ collection → doc.(doc_embedding) = Some q →
         let n := squaredNorm q in
         (doc, if num_eqb n num_zero then num_zero
               else num_div n (num_mul (num_sqrt n) (num_sqrt n)))
         ∈ ranked).
Proof.
  cbn zeta. intros Hc Hv.
  replace ((λ doc : StoredDocument num,
              (doc, Similarity.cosine q (default [] doc.(doc_embedding))))
             <$> collection)
    with (scoresOf q collection).
  2:{ apply list_fmap_ext. intros i doc _. unfold scoreOf.
      by rewrite cosineSimilarity_cosine. }
  intros Hcons.
  exists (sort comesAfter (scoresOf q collection)).
  pose proof (sort_consistent _ _ Hcons) as [Hsorted Hstable].
  split; [|split; [|split; [|split]]].
  - rewrite search_cases, Hc.
    rewrite similaritiesOf_scoresOf by by apply Forall_forall.
    rewrite slice_to_count.
    rewrite (Permutation_length (sort_perm comesAfter _)).
    unfold scoresOf at 1. rewrite length_fmap.
    by destruct limit.
  - apply sort_perm.
  - exact Hsorted.
  - intros x Hx. exact (Hstable x Hx).
  - intros doc Hin He.
    rewrite (sort_perm comesAfter). apply list_elem_of_fmap.
    exists doc. split; [|done].
    unfold scoreOf. rewrite He. cbn [default from_option id].
    by rewrite cosineSimilarity_self.
Qed.

End Generic.
End SearchFacts.


Module EmbeddingsFacts.
Import Cache Embeddings.

Section Run.
Context {num : Type} (extract : extractor num).
Implicit Types (cache seen : Cache.t num) (text : jsstring)
  (texts rest batch : list jsstring).

Local Abbreviation run := (Embeddings.run extract).
Local Abbreviation cacheBefore := (Embeddings.cacheBefore extract).
Local Abbreviation agrees := (Embeddings.agrees extract).

Lemma drop_batch_length rest (t : jsstring) :
  length (drop BATCH_SIZE (t :: rest)) ≤ length rest.
Proof. cbn. rewrite length_drop. lia. Qed.

Lemma processBatches_fuel fuel1 fuel2 cache rest acc :
  length rest ≤ fuel1 → length rest ≤ fuel2 →
  processBatches fuel1 extract cache rest acc
  = processBatches fuel2 extract cache rest acc.
Proof.
  revert fuel2 cache rest acc.
  induction fuel1 as [|fuel1 IH]; intros fuel2 cache rest acc H1 H2.
  - destruct rest; [|cbn in H1; lia]. by destruct fuel2.
  - destruct rest as [|t rest]; [by destruct fuel2|].
    destruct fuel2 as [|fuel2]; [cbn in H2; lia|].
    cbn [processBatches].
    destruct (processBatch extract cache (take BATCH_SIZE (t :: rest)))
      as [[bes|] c1]; [|done].
    pose proof (drop_batch_length rest t). cbn in H1, H2.
    apply IH; lia.
Qed.

Lemma processBatches_acc fuel cache rest acc :
  processBatches fuel extract cache rest acc
  = (prepend acc (processBatches fuel extract cache rest []).1,
     (processBatches fuel extract cache rest []).2).
Proof.
  revert cache rest acc. induction fuel as [|fuel IH]; intros cache rest acc.
  - cbn. by rewrite app_nil_r.
  - destruct rest as [|t rest]; [cbn; by rewrite app_nil_r|].
    cbn [processBatches].
    destruct (processBatch extract cache (take BATCH_SIZE (t :: rest)))
      as [[bes|] c1]; [|done].
    rewrite (IH c1 _ (acc ++ bes)), (IH c1 _ ([] ++ bes)).
    destruct (processBatches fuel extract c1 _ []) as [[es|e] c2]; cbn;
      [by rewrite app_assoc | done].
Qed.

(** One turn of the loop. *)
Lemma run_unfold cache texts :
  texts ≠ [] →
  run cache texts =
    match processBatch extract cache (take BATCH_SIZE texts) with
    | (Some batchEmbeddings, cache') =>
        (prepend batchEmbeddings (run cache' (drop BATCH_SIZE texts)).1,
         (run cache' (drop BATCH_SIZE texts)).2)
    | (None, cache') => (Thrown EmbeddingsFailed, cache')
    end.
Proof.
  destruct texts as [|t rest]; [done|]. intros _. unfold run at 1.
  cbn [length processBatches].
  destruct (processBatch extract cache (take BATCH_SIZE (t :: rest)))
    as [[bes|] c1]; [|done].
  rewrite processBatches_acc. cbn [app].
  unfold run.
  pose proof (drop_batch_length rest t).
  by rewrite (processBatches_fuel (length rest)
                (length (drop BATCH_SIZE (t :: rest)))).
Qed.

Lemma run_nil cache : run cache [] = (Returned [], cache).
Proof. done. Qed.

(** ** The vectors returned *)

Lemma processBatch_Some cache batch (bes : list (list num)) :
  (processBatch extract cache batch).1 = Some bes →
  length bes = length batch
  ∧ ∀ i text, batch !! i = Some text →
      bes !! i = embedding_for extract cache text.
Proof.
  cbn. intros Hm. apply mapM_Some in Hm. split.
  - symmetry. by eapply Forall2_length.
  - intros i text Hi.
    destruct (Forall2_lookup_l _ _ _ _ _ Hm Hi) as (e & He & Hfe).
    by rewrite He, Hfe.
Qed.

Lemma take_take_batch texts (k : nat) :
  take BATCH_SIZE (take (BATCH_SIZE * S k) texts) = take BATCH_SIZE texts.
Proof. rewrite take_take. f_equal. unfold BATCH_SIZE. lia. Qed.

Lemma drop_take_batch texts (k : nat) :
  drop BATCH_SIZE (take (BATCH_SIZE * S k) texts)
  = take (BATCH_SIZE * k) (drop BATCH_SIZE texts).
Proof.
  rewrite take_drop_commute. do 2 f_equal. unfold BATCH_SIZE. lia.
Qed.

Lemma cacheBefore_0 cache texts : cacheBefore cache texts 0 = cache.
Proof. unfold cacheBefore. by rewrite Nat.mul_0_r, take_0. Qed.

Lemma cacheBefore_S cache texts (k : nat) bes c1 :
  texts ≠ [] →
  processBatch extract cache (take BATCH_SIZE texts) = (Some bes, c1) →
  cacheBefore cache texts (S k) = cacheBefore c1 (drop BATCH_SIZE texts) k.
Proof.
  intros Hne Hb. unfold cacheBefore.
  rewrite run_unfold.
  - by rewrite take_take_batch, Hb, drop_take_batch.
  - destruct texts; [done|]. by cbn.
Qed.

Lemma run_Returned cache texts (out : list (list num)) cache' :
  run cache texts = (Returned out, cache') →
  length out = length texts
  ∧ ∀ i text, texts !! i = Some text →
      out !! i
      = embedding_for extract (cacheBefore cache texts (i / BATCH_SIZE)) text.
Proof.
  remember (length texts) as n eqn:Hn.
  revert cache texts out cache' Hn.
  induction n as [n IH] using lt_wf_ind. intros cache texts out cache' Hn.
  destruct (decide (texts = [])) as [->|Hne].
  { rewrite run_nil. intros [= <- <-]. split; [done|]. by intros i text. }
  rewrite run_unfold by done.
  destruct (processBatch extract cache (take BATCH_SIZE texts))
    as [[bes|] c1] eqn:Hb; [|done].
  destruct (run c1 (drop BATCH_SIZE texts)) as [[es|e] c2] eqn:Hrest;
    cbn [prepend fst snd]; [|done].
  intros [= <- <-].
  assert (Hlt : length (drop BATCH_SIZE texts) < n).
  { subst n. rewrite length_drop. destruct texts; [done|].
    cbn. unfold BATCH_SIZE. lia. }
  destruct (IH _ Hlt c1 _ es c2 eq_refl Hrest) as [Hlen Hes].
  destruct (processBatch_Some cache (take BATCH_SIZE texts) bes) as [Hbl Hbes].
  { by rewrite Hb. }
  rewrite length_take in Hbl. split.
  - rewrite length_app, Hbl, Hlen, length_drop. lia.
  - intros i text Hi.
    pose proof (lookup_lt_Some _ _ _ Hi) as Hil.
    destruct (decide (i < BATCH_SIZE)) as [Hsmall|Hbig].
    + rewrite lookup_app_l by lia. rewrite Nat.div_small by done.
      rewrite cacheBefore_0. apply Hbes. by rewrite lookup_take_lt.
    + rewrite lookup_app_r by lia.
      replace (length bes) with BATCH_SIZE by lia.
      rewrite (Hes _ text)
        by (rewrite lookup_drop; rewrite <- Hi; f_equal; lia).
      replace (i / BATCH_SIZE) with (S ((i - BATCH_SIZE) / BATCH_SIZE)).
      * by rewrite (cacheBefore_S cache texts _ bes c1).
      * replace i with ((i - BATCH_SIZE) + 1 * BATCH_SIZE) at 2 by lia.
        rewrite Nat.div_add by (unfold BATCH_SIZE; lia). lia.
Qed.

(** ** The cache afterwards *)

Lemma getEmbedding_set cache x (e : list num) text :
  getEmbedding (setEmbedding cache x e) text
  = if decide (hashString x = hashString text) then Some e
    else getEmbedding cache text.
Proof. unfold getEmbedding, setEmbedding. cbn. apply lookup_insert. Qed.

(** An entry that the batch found is not written over. *)
Lemma write_back_keeps seen cache x text (v : list num) :
  getEmbedding seen text = Some v → getEmbedding cache text = Some v →
  getEmbedding (write_back extract seen cache x) text = Some v.
Proof.
  intros Hs Hc. unfold write_back.
  destruct (getEmbedding seen x) eqn:Hx; [done|].
  destruct (extract x); [|done].
  rewrite getEmbedding_set. case_decide as Hh; [|done].
  unfold getEmbedding in Hx, Hs. rewrite Hh in Hx. congruence.
Qed.

Lemma write_backs_keep seen cache batch text (v : list num) :
  getEmbedding seen text = Some v → getEmbedding cache text = Some v →
  getEmbedding (fold_left (write_back extract seen) batch cache) text = Some v.
Proof.
  intros Hs. revert cache.
  induction batch as [|x batch IH]; intros c Hc; [done|].
  cbn. apply IH. by apply write_back_keeps.
Qed.

Lemma processBatch_keeps cache batch text (v : list num) :
  getEmbedding cache text = Some v →
  getEmbedding (processBatch extract cache batch).2 text = Some v.
Proof. intros Hs. by apply write_backs_keep. Qed.

Lemma run_keeps cache texts text (v : list num) :
  getEmbedding cache text = Some v →
  getEmbedding (run cache texts).2 text = Some v.
Proof.
  remember (length texts) as n eqn:Hn. revert cache texts Hn.
  induction n as [n IH] using lt_wf_ind. intros cache texts Hn Hc.
  destruct (decide (texts = [])) as [->|Hne]; [done|].
  rewrite run_unfold by done.
  pose proof (processBatch_keeps cache (take BATCH_SIZE texts) text v Hc).
  destruct (processBatch extract cache (take BATCH_SIZE texts))
    as [[bes|] c1]; [|done].
  cbn [snd] in *.
  assert (Hlt : length (drop BATCH_SIZE texts) < n).
  { subst n. rewrite length_drop. destruct texts; [done|].
    cbn. unfold BATCH_SIZE. lia. }
  by apply (IH _ Hlt c1 _ eq_refl).
Qed.

(** Entries are only added or replaced. *)
Lemma write_back_mono seen cache x text :
  is_Some (getEmbedding cache text) →
  is_Some (getEmbedding (write_back extract seen cache x) text).
Proof.
  intros Hc. unfold write_back.
  destruct (getEmbedding seen x); [done|].
  destruct (extract x); [|done].
  rewrite getEmbedding_set. by case_decide.
Qed.

Lemma write_backs_mono seen cache batch text :
  is_Some (getEmbedding cache text) →
  is_Some (getEmbedding (fold_left (write_back extract seen) batch cache) text).
Proof.
  revert cache. induction batch as [|x batch IH]; intros c Hc; [done|].
  cbn. apply IH. by apply write_back_mono.
Qed.

Lemma run_mono cache texts text :
  is_Some (getEmbedding cache text) →
  is_Some (getEmbedding (run cache texts).2 text).
Proof. intros [v Hv]. exists v. by apply run_keeps. Qed.

Lemma write_backs_written seen cache batch text :
  text ∈ batch →
  is_Some (embedding_for extract seen text) →
  (∀ t, is_Some (getEmbedding seen t) → is_Some (getEmbedding cache t)) →
  is_Some (getEmbedding (fold_left (write_back extract seen) batch cache) text).
Proof.
  revert cache. induction batch as [|x batch IH]; intros c Hin He Hsub.
  { by apply elem_of_nil in Hin. }
  cbn. apply elem_of_cons in Hin as [->|Hin].
  - apply write_backs_mono. unfold write_back, embedding_for in *.
    destruct (getEmbedding seen x) eqn:Hx; [by apply Hsub; rewrite Hx|].
    destruct He as [e ->]. rewrite getEmbedding_set. by rewrite decide_True.
  - apply IH; [done..|]. intros t Ht. by apply write_back_mono, Hsub.
Qed.

Lemma run_written cache texts (out : list (list num)) cache' :
  run cache texts = (Returned out, cache') →
  ∀ text, text ∈ texts → is_Some (getEmbedding cache' text).
Proof.
  remember (length texts) as n eqn:Hn. revert cache texts out cache' Hn.
  induction n as [n IH] using lt_wf_ind. intros cache texts out cache' Hn.
  destruct (decide (texts = [])) as [->|Hne].
  { intros _ text Hin. by apply elem_of_nil in Hin. }
  rewrite run_unfold by done.
  destruct (processBatch extract cache (take BATCH_SIZE texts))
    as [[bes|] c1] eqn:Hb; [|done].
  destruct (run c1 (drop BATCH_SIZE texts)) as [[es|e] c2] eqn:Hrest;
    cbn [prepend fst snd]; [|done].
  intros [= <- <-] text Hin.
  rewrite <- (take_drop BATCH_SIZE texts) in Hin.
  apply elem_of_app in Hin as [Hin|Hin].
  - replace c2 with (run c1 (drop BATCH_SIZE texts)).2 by by rewrite Hrest.
    apply run_mono.
    replace c1 with (processBatch extract cache (take BATCH_SIZE texts)).2
      by by rewrite Hb.
    cbn. apply write_backs_written; [done| |done].
    apply list_elem_of_lookup in Hin as [i Hi].
    destruct (processBatch_Some cache (take BATCH_SIZE texts) bes) as [Hl Hbes];
      [by rewrite Hb|].
    rewrite <- (Hbes i text Hi). apply lookup_lt_is_Some.
    rewrite Hl. by eapply lookup_lt_Some.
  - assert (Hlt : length (drop BATCH_SIZE texts) < n).
    { subst n. rewrite length_drop. destruct texts; [done|].
      cbn. unfold BATCH_SIZE. lia. }
    exact (IH _ Hlt c1 _ es c2 eq_refl Hrest text Hin).
Qed.

(** ** Without collisions *)

Lemma embedding_for_agrees texts cache0 cache text :
  agrees texts cache0 cache → text ∈ texts →
  embedding_for extract cache text = embedding_for extract cache0 text.
Proof.
  intros Ha Hin. unfold embedding_for.
  destruct (Ha text Hin) as [->|[-> ->]]; [done|]. by destruct (extract text).
Qed.

Lemma write_back_agrees texts cache0 seen cache x :
  collisionFree texts → x ∈ texts →
  agrees texts cache0 seen → agrees texts cache0 cache →
  agrees texts cache0 (write_back extract seen cache x).
Proof.
  intros Hfree Hx Hseen Hc. unfold write_back.
  destruct (getEmbedding seen x) eqn:Hsx; [done|].
  destruct (extract x) as [e|] eqn:He; [|done].
  intros t Ht. rewrite getEmbedding_set. case_decide as Hh; [|by apply Hc].
  apply Hfree in Hh as <-; [|done..]. right. split; [|done].
  destruct (Hseen x Hx) as [Heq|[Hnone _]]; [|done]. by rewrite <- Heq.
Qed.

Lemma write_backs_agree texts cache0 seen cache batch :
  collisionFree texts → (∀ x, x ∈ batch → x ∈ texts) →
  agrees texts cache0 seen → agrees texts cache0 cache →
  agrees texts cache0 (fold_left (write_back extract seen) batch cache).
Proof.
  intros Hfree Hsub Hseen. revert cache.
  induction batch as [|x batch IH]; intros c Hc; [done|].
  cbn. apply IH.
  - intros y Hy. apply Hsub. by right.
  - apply write_back_agrees; [done| |done..]. apply Hsub. by left.
Qed.

Lemma processBatch_agrees texts cache0 cache batch :
  collisionFree texts → (∀ x, x ∈ batch → x ∈ texts) →
  agrees texts cache0 cache →
  agrees texts cache0 (processBatch extract cache batch).2.
Proof. intros Hfree Hsub Hseen. by apply write_backs_agree. Qed.

Lemma run_agrees texts cache0 cache texts' :
  collisionFree texts → (∀ x, x ∈ texts' → x ∈ texts) →
  agrees texts cache0 cache →
  agrees texts cache0 (run cache texts').2.
Proof.
  intros Hfree. remember (length texts') as n eqn:Hn.
  revert cache texts' Hn.
  induction n as [n IH] using lt_wf_ind. intros cache texts' Hn Hsub Hc.
  destruct (decide (texts' = [])) as [->|Hne]; [done|].
  rewrite run_unfold by done.
  pose proof (processBatch_agrees texts cache0 cache (take BATCH_SIZE texts')
                Hfree) as Hb.
  destruct (processBatch extract cache (take BATCH_SIZE texts'))
    as [[bes|] c1]; cbn [snd] in *.
  - assert (Hlt : length (drop BATCH_SIZE texts') < n).
    { subst n. rewrite length_drop. destruct texts'; [done|].
      cbn. unfold BATCH_SIZE. lia. }
    apply (IH _ Hlt c1 _ eq_refl).
    + intros x Hx. apply Hsub. by eapply subseteq_drop.
    + apply Hb; [|done]. intros x Hx. apply Hsub. by eapply subseteq_take.
  - apply Hb; [|done]. intros x Hx. apply Hsub. by eapply subseteq_take.
Qed.

(** The loop returns when the model delivers a vector for every text. *)
Lemma run_returns cache texts :
  (∀ text, text ∈ texts → is_Some (extract text)) →
  returns (run cache texts).1.
Proof.
  remember (length texts) as n eqn:Hn. revert cache texts Hn.
  induction n as [n IH] using lt_wf_ind. intros cache texts Hn Hok.
  destruct (decide (texts = [])) as [->|Hne]; [by eexists|].
  rewrite run_unfold by done.
  assert (Hm : is_Some (mapM (embedding_for extract cache)
                          (take BATCH_SIZE texts))).
  { apply mapM_is_Some, Forall_forall. intros t Ht. cbn.
    unfold embedding_for. destruct (getEmbedding cache t); [done|].
    apply Hok. by eapply subseteq_take. }
  unfold processBatch. destruct Hm as [bes ->].
  assert (Hlt : length (drop BATCH_SIZE texts) < n).
  { subst n. rewrite length_drop. destruct texts; [done|].
    cbn. unfold BATCH_SIZE. lia. }
  destruct (IH _ Hlt (fold_left (write_back extract cache)
                        (take BATCH_SIZE texts) cache)
              (drop BATCH_SIZE texts) eq_refl) as [es Hes].
  { intros t Ht. apply Hok. by eapply subseteq_drop. }
  cbn [fst]. rewrite Hes. by eexists.
Qed.

End Run.

(** C3.  When the model is loaded, or loads, and delivers a vector for
    every text: [generateEmbeddings] returns as many vectors as there are
    texts.  The [i]-th one is the vector of the [i]-th text: the one the
    cache holds for it when its batch starts, the output of the model
    otherwise; what the cache held for a text before the call is returned
    as it is.  When the call returns, the cache holds a vector for every
    text.  When no two different texts of the call have the same hash,
    the [i]-th vector is what the cache held for the [i]-th text before
    the call, the output of the model otherwise, and the cache holds that
    vector for the text afterwards. *)
Theorem generateEmbeddings_cached_or_computed {num : Type}
    (pipeline : option (extractor num)) (s : service num)
    (cache : Cache.t num) (texts : list jsstring) (extract : extractor num) :
  (ensureInitialized pipeline s).1 = Returned () →
  (ensureInitialized pipeline s).2.(the_extractor) = Some extract →
  (∀ text, text ∈ texts → is_Some (extract text)) →
  ∃ (embeddings : list (list num)) (cache' : Cache.t num),
    generateEmbeddings pipeline s cache texts
      = (Returned embeddings, (ensureInitialized pipeline s).2, cache')
    ∧ length embeddings = length texts
    ∧ (∀ i text, texts !! i = Some text →
         embeddings !! i
           = embedding_for extract
               (cacheBefore extract cache texts (i / BATCH_SIZE)) text
         ∧ (∀ v, getEmbedding cache text = Some v →
                 embeddings !! i = Some v)
         ∧ is_Some (getEmbedding cache' text))
    ∧ (collisionFree texts →
       ∀ i text, texts !! i = Some text →
         embeddings !! i = embedding_for extract cache text
         ∧ getEmbedding cache' text = embeddings !! i).
Proof.
  intros Hinit Hext Hok. unfold generateEmbeddings.
  destruct (ensureInitialized pipeline s) as [[[]|e] s'] eqn:Hs; [|done].
  cbn [fst snd] in *. rewrite Hext.
  destruct (run_returns extract cache texts Hok) as [out Hout].
  fold (run extract cache texts).
  destruct (run extract cache texts) as [r cache'] eqn:Hrun.
  cbn in Hout. subst r. exists out, cache'.
  destruct (run_Returned extract cache texts out cache' Hrun) as [Hlen Hat].
  split; [done|]. split; [done|]. split.
  - intros i text Hi. rewrite (Hat i text Hi). split; [done|]. split.
    + intros v Hv. unfold embedding_for, cacheBefore.
      by rewrite (run_keeps extract _ _ text v Hv).
    + eapply run_written; [done|]. by eapply list_elem_of_lookup_2.
  - intros Hfree i text Hi.
    assert (Hin : text ∈ texts) by by eapply list_elem_of_lookup_2.
    assert (H0 : agrees extract texts cache cache) by (intros t _; by left).
    assert (Hout : out !! i = embedding_for extract cache text).
    { rewrite (Hat i text Hi). apply (embedding_for_agrees extract texts);
        [|done]. unfold cacheBefore.
      apply run_agrees; [done| |done]. intros x Hx. by eapply subseteq_take. }
    split; [done|]. rewrite Hout.
    pose proof (run_agrees extract texts cache cache texts Hfree
                  (λ x Hx, Hx) H0 text Hin) as Hag.
    rewrite Hrun in Hag. cbn [snd] in Hag.
    destruct (run_written extract cache texts out cache' Hrun text Hin)
      as [v Hv].
    unfold embedding_for.
    destruct Hag as [Heq|[Hnone Hnew]].
    + rewrite <- Heq, Hv. done.
    + by rewrite Hnone.
Qed.

End EmbeddingsFacts.


Module LoadingFacts.
Import Loading.

Lemma exec_steps (schedule : list nat) (sys : system) :
  rtc step sys (exec schedule sys).
Proof.
  revert sys. induction schedule as [|i schedule IH]; intros sys; cbn.
  - done.
  - unfold turn at 2. destruct sys as [s callers]. cbn [fst snd].
    destruct (callers !! i) as [c|] eqn:Hc; [|apply IH].
    eapply rtc_l; [|apply IH]. by constructor.
Qed.

Lemma filter_insert_length (callers : list caller) (i : nat) (c c' : caller) :
  callers !! i = Some c →
  length (List.filter startedLoad (<[i := c']> callers))
    + (if startedLoad c then 1 else 0)
  = length (List.filter startedLoad callers)
    + (if startedLoad c' then 1 else 0).
Proof.
  revert i. induction callers as [|x callers IH]; intros [|i] Hi; try done.
  - cbn in Hi. injection Hi as ->. cbn.
    destruct (startedLoad c), (startedLoad c'); cbn; lia.
  - cbn in Hi. specialize (IH i Hi). revert IH.
    generalize (if startedLoad c then 1 else 0).
    generalize (if startedLoad c' then 1 else 0). intros a b IH.
    cbn. destruct (startedLoad x); cbn; [f_equal|]; exact IH.
Qed.

Lemma filter_length_bound (callers : list caller) :
  length (List.filter startedLoad callers) ≤ length callers.
Proof.
  induction callers as [|x callers IH]; cbn; [done|].
  destruct (startedLoad x); cbn; lia.
Qed.

Lemma filter_length_pos (callers : list caller) (i : nat) (c : caller) :
  callers !! i = Some c → startedLoad c = true →
  1 ≤ length (List.filter startedLoad callers).
Proof.
  revert i. induction callers as [|x callers IH]; intros [|i] Hi Hc; try done.
  - cbn in Hi. injection Hi as ->. cbn. rewrite Hc. cbn. lia.
  - cbn in Hi. cbn. specialize (IH i Hi Hc).
    destruct (startedLoad x); cbn; lia.
Qed.

Lemma step_counted (sys sys' : system) :
  step sys sys' → counted sys → counted sys'.
Proof.
  intros Hstep [Hloads Hinit].
  destruct Hstep as [s callers i c Hi]. cbn [fst snd] in *.
  pose proof (filter_insert_length callers i c (advance s c).2 Hi) as Hlen.
  assert (Hkeep : ∀ j, callers !! j = Some (Finished true) →
            ∃ k, <[i := (advance s c).2]> callers !! k
                 = Some (Finished true)).
  { intros j Hj. destruct (decide (i = j)) as [->|Hne].
    - exists j. rewrite list_lookup_insert_eq by by eapply lookup_lt_Some.
      rewrite Hi in Hj. by injection Hj as ->.
    - exists j. by rewrite list_lookup_insert_ne. }
  unfold counted.
  destruct c as [| | |l];
    cbn [advance fst snd startedLoad initialized loads] in *.
  - destruct (initialized s) eqn:Hs;
      cbn [fst snd startedLoad] in *; (split; [lia|]).
    + intros _. destruct (Hinit eq_refl) as [j Hj]. by apply (Hkeep j).
    + intros Hs'. congruence.
  - split; [lia|]. intros Hs. destruct (Hinit Hs) as [j Hj]. by apply (Hkeep j).
  - split; [lia|]. intros _. exists i.
    rewrite list_lookup_insert_eq; [done|]. by eapply lookup_lt_Some.
  - split; [destruct l; lia|].
    intros Hs. destruct (Hinit Hs) as [j Hj]. by apply (Hkeep j).
Qed.

Lemma steps_counted (sys sys' : system) :
  rtc step sys sys' → counted sys → counted sys'.
Proof. induction 1; eauto using step_counted. Qed.

Lemma step_length (sys sys' : system) :
  step sys sys' → length sys'.2 = length sys.2.
Proof. destruct 1. cbn. by rewrite length_insert. Qed.

Lemma steps_length (sys sys' : system) :
  rtc step sys sys' → length sys'.2 = length sys.2.
Proof.
  induction 1 as [|x y z Hxy _ IH]; [done|].
  rewrite IH. by apply step_length.
Qed.

Lemma start_counted (n : nat) : counted (start n).
Proof.
  split; [|done]. cbn. induction n as [|n IH]; [done|]. by cbn.
Qed.

(** A caller that found the service not initialised stays on its way
    through [initialize], whatever the other callers do. *)
Lemma step_foundUninitialized (sys sys' : system) (i : nat) (c : caller) :
  step sys sys' → sys.2 !! i = Some c → foundUninitialized c = true →
  ∃ c', sys'.2 !! i = Some c' ∧ foundUninitialized c' = true.
Proof.
  intros Hstep Hi Hc. destruct Hstep as [s callers j d Hj].
  cbn [fst snd] in *. destruct (decide (j = i)) as [->|Hne].
  - rewrite list_lookup_insert_eq by by eapply lookup_lt_Some.
    rewrite Hj in Hi. injection Hi as ->. eexists. split; [done|].
    by destruct c as [| | |[|]].
  - rewrite list_lookup_insert_ne by done. by exists c.
Qed.

Lemma steps_foundUninitialized (sys sys' : system) (i : nat) (c : caller) :
  rtc step sys sys' → sys.2 !! i = Some c → foundUninitialized c = true →
  ∃ c', sys'.2 !! i = Some c' ∧ foundUninitialized c' = true.
Proof.
  intros Hsteps. revert c.
  induction Hsteps as [|x y z Hxy _ IH]; intros c Hi Hc; [by exists c|].
  destruct (step_foundUninitialized _ _ _ _ Hxy Hi Hc) as (c' & Hi' & Hc').
  by apply (IH c').
Qed.

(** A round of the callers that are all at the same place. *)
Lemma exec_round (f : service → service) (c c' : caller) (P : service → Prop)
    (m k : nat) (s : service) :
  (∀ s, P s → advance s c = (f s, c') ∧ P (f s)) → P s →
  exec (seq k m) (s, replicate k c' ++ replicate m c)
  = (Nat.iter m f s, replicate (k + m) c') ∧ P (Nat.iter m f s).
Proof.
  intros Hadvance. revert k s. induction m as [|m IH]; intros k s Hs.
  - cbn. by rewrite app_nil_r, Nat.add_0_r.
  - cbn [seq exec fold_left]. unfold turn at 2. cbn [fst snd].
    rewrite lookup_app_r by by rewrite length_replicate.
    rewrite length_replicate, Nat.sub_diag. cbn [replicate lookup list_lookup].
    destruct (Hadvance s Hs) as [-> Hfs]. cbn [fst snd].
    rewrite insert_app_r_alt by by rewrite length_replicate.
    rewrite length_replicate, Nat.sub_diag. cbn [insert list_insert].
    replace (replicate k c' ++ c' :: replicate m c)
      with (replicate (S k) c' ++ replicate m c).
    2:{ rewrite replicate_S_end, <- app_assoc. done. }
    fold (exec (seq (S k) m) (f s, replicate (S k) c' ++ replicate m c)).
    destruct (IH (S k) (f s) Hfs) as [-> HP].
    rewrite Nat.iter_succ_r, Nat.add_succ_r. done.
Qed.

Lemma iter_loads (m : nat) (s : service) :
  Nat.iter m (λ s, {| initialized := s.(initialized); loads := S s.(loads) |})
    s
  = {| initialized := s.(initialized); loads := m + s.(loads) |}.
Proof.
  induction m as [|m IH]; [by destruct s|]. by rewrite Nat.iter_succ, IH.
Qed.

Lemma iter_initialized (m : nat) (s : service) :
  Nat.iter m (λ s, {| initialized := true; loads := s.(loads) |}) s
  = {| initialized := match m with O => s.(initialized) | S _ => true end;
       loads := s.(loads) |}.
Proof.
  induction m as [|m IH]; [by destruct s|]. by rewrite Nat.iter_succ, IH.
Qed.

Lemma iter_same (m : nat) (s : service) : Nat.iter m (λ s, s) s = s.
Proof. induction m as [|m IH]; [done|]. by rewrite Nat.iter_succ, IH. Qed.

Lemma exec_app (schedule schedule' : list nat) (sys : system) :
  exec (schedule ++ schedule') sys = exec schedule' (exec schedule sys).
Proof. apply fold_left_app. Qed.

(** The three rounds of [n] callers that take turns: all of them pass the
    test, all of them call [pipeline], all of them set the flag. *)
Lemma round_test (n : nat) :
  exec (seq 0 n) (start n) = (fresh, replicate n AwaitingImport).
Proof.
  destruct (exec_round (λ s, s) NotStarted AwaitingImport
              (λ s, s.(initialized) = false) n 0 fresh) as [H _].
  { intros s Hs. cbn. by rewrite Hs. }
  { done. }
  by rewrite iter_same in H.
Qed.

Lemma round_pipeline (n : nat) (s : service) :
  exec (seq 0 n) (s, replicate n AwaitingImport)
  = ({| initialized := s.(initialized); loads := n + s.(loads) |},
     replicate n AwaitingPipeline).
Proof.
  destruct (exec_round
              (λ s, {| initialized := s.(initialized);
                       loads := S s.(loads) |})
              AwaitingImport AwaitingPipeline (λ _, True) n 0 s)
    as [H _]; [done..|].
  by rewrite iter_loads in H.
Qed.

Lemma round_flag (n : nat) (s : service) :
  exec (seq 0 n) (s, replicate n AwaitingPipeline)
  = ({| initialized := match n with O => s.(initialized) | S _ => true end;
        loads := s.(loads) |},
     replicate n (Finished true)).
Proof.
  destruct (exec_round (λ s, {| initialized := true; loads := s.(loads) |})
              AwaitingPipeline (Finished true) (λ _, True) n 0 s)
    as [H _]; [done..|].
  by rewrite iter_initialized in H.
Qed.

(** Callers that take turns all load the model. *)
Lemma exec_inTurns (n : nat) :
  exec (inTurns n) (start n)
  = ({| initialized := match n with O => false | S _ => true end;
        loads := n |},
     replicate n (Finished true)).
Proof.
  unfold inTurns.
  rewrite !exec_app, round_test, round_pipeline, round_flag.
  cbn. by rewrite Nat.add_0_r.
Qed.

(** C9, as amended.  Initialisation is lazy, and idempotent once it has
    completed: before any caller runs nothing is loaded, and a caller that
    starts when [initialized] is set returns without loading.  But callers
    that start before that do not share a load.  In every state that [n]
    callers can reach from a fresh service: there have been as many loads
    as there are callers that have called [pipeline], at most [n], and at
    least one once [initialized] is set; a caller that starts while
    [initialized] is not set is from then on, whatever the others do, on
    its way through [initialize] or through with it, so that it never
    returns on account of the load of another; when it is given the turn
    at [await import] it calls [pipeline] and the number of loads grows by
    one, whether or not a load is in flight or has completed; and when the
    [n] callers take turns, the model is loaded [n] times. *)
Theorem early_callers_each_load (n : nat) (sys : system) :
  rtc step (start n) sys →
  ((start n).1.(loads) = 0
   ∧ sys.1.(loads) = length (List.filter startedLoad sys.2)
   ∧ sys.1.(loads) ≤ n
   ∧ (sys.1.(initialized) = true →
      1 ≤ sys.1.(loads)
      ∧ advance sys.1 NotStarted = (sys.1, Finished false)))
  ∧ (∀ i, sys.2 !! i = Some NotStarted → sys.1.(initialized) = false →
       (turn sys i).2 !! i = Some AwaitingImport
       ∧ ∀ sys', rtc step (turn sys i) sys' →
           sys'.2 !! i = Some AwaitingImport
           ∨ sys'.2 !! i = Some AwaitingPipeline
           ∨ sys'.2 !! i = Some (Finished true))
  ∧ (∀ i, sys.2 !! i = Some AwaitingImport →
       (turn sys i).1.(loads) = S sys.1.(loads)
       ∧ (turn sys i).2 !! i = Some AwaitingPipeline)
  ∧ (rtc step (start n) (exec (inTurns n) (start n))
     ∧ (exec (inTurns n) (start n)).1.(loads) = n
     ∧ (exec (inTurns n) (start n)).2 = replicate n (Finished true)).
Proof.
  intros Hreach.
  destruct (steps_counted _ _ Hreach (start_counted n)) as [Hloads Hinit].
  pose proof (steps_length _ _ Hreach) as Hlen.
  cbn in Hlen. rewrite length_replicate in Hlen.
  split; [|split; [|split]].
  - split; [done|]. split; [done|]. split.
    + rewrite Hloads, <- Hlen. apply filter_length_bound.
    + intros Hs. split; [|by cbn; rewrite Hs].
      destruct (Hinit Hs) as [i Hi]. rewrite Hloads.
      by eapply filter_length_pos.
  - intros i Hi Hs.
    assert (Hturn : (turn sys i).2 !! i = Some AwaitingImport).
    { unfold turn. rewrite Hi. cbn. rewrite Hs. cbn.
      rewrite list_lookup_insert_eq; [done|]. by eapply lookup_lt_Some. }
    split; [done|]. intros sys' Hsteps.
    destruct (steps_foundUninitialized _ _ i AwaitingImport Hsteps Hturn
                eq_refl) as (c' & -> & Hc').
    destruct c' as [| | |[|]]; try done; auto.
  - intros i Hi. unfold turn. rewrite Hi. cbn. split; [done|].
    rewrite list_lookup_insert_eq; [done|]. by eapply lookup_lt_Some.
  - split; [apply exec_steps|]. by rewrite exec_inTurns.
Qed.

(** C9, as stated, fails: two callers that both start before the load of
    the first has finished load the model twice. *)
Lemma two_callers_two_loads :
  rtc step (start 2) (exec [0; 1; 0; 1; 0; 1] (start 2))
  ∧ exec [0; 1; 0; 1; 0; 1] (start 2)
    = ({| initialized := true; loads := 2 |}, [Finished true; Finished true]).
Proof. split; [apply exec_steps | reflexivity]. Qed.

End LoadingFacts.


Module RagFacts.
Import Rag.

Section Query.
Context {num : Type} `{!Number num}.
Context (pipeline : option (Embeddings.extractor num)).
Context (config : RagConfig num).

Lemma formatResult_nonempty (result : SearchResult num) :
  formatResult result ≠ [].
Proof. done. Qed.

Lemma join_nil_iff (sep : jsstring) (l : list jsstring) :
  (∀ s, s ∈ l → s ≠ []) → join sep l = [] → l = [].
Proof.
  destruct l as [|s [|s' l]]; intros Hne; [done| |].
  - cbn. intros ->. exfalso. apply (Hne []); [by left | done].
  - cbn. intros Hs. apply app_eq_nil in Hs as [-> _].
    exfalso. apply (Hne []); [by left | done].
Qed.

(** The answer, by the matched passages. *)
Lemma respond_answer (request : QueryRequest num)
    (searchResults : list (SearchResult num)) :
  (respond config request searchResults).(answer) =
    match (respond config request searchResults).(sources) with
    | [] => noContent
    | matched => join separator (formatResult <$> matched)
    end.
Proof.
  unfold respond. cbn [answer sources].
  destruct (List.filter _ searchResults) as [|r l] eqn:Hf; [done|].
  destruct (join separator (formatResult <$> r :: l)) eqn:Hj; [|done].
  apply join_nil_iff in Hj; [done|].
  intros s Hs. apply list_elem_of_fmap in Hs as (x & -> & _).
  apply formatResult_nonempty.
Qed.

(** A request that finds a cached response is answered with it. *)
Lemma query_cached (w w0 : world num) (request : QueryRequest num)
    (cached : QueryResponse num) :
  ensureInitialized pipeline w = (Returned (), w0) →
  Cache.getSearchResult w0.(cache) request.(question) request.(collection)
    = Some cached →
  query pipeline config w request = (Returned cached, w0).
Proof. intros Hi Hc. unfold query. by rewrite Hi, Hc. Qed.

(** C5, as amended.  For a request whose question and collection have no
    cached response: [query] returns the results of the search whose score
    is at least the threshold (the request's, the configured one without)
    as its sources, in the order of the search; its answer is those
    passages, each under its header of source and page, joined by the
    separator, and the fixed sentence [noContent] when there is none. *)
Theorem query_filters_by_threshold (w w0 : world num)
    (request : QueryRequest num) (queryEmbedding : list num)
    (searchResults : list (SearchResult num)) :
  ensureInitialized pipeline w = (Returned (), w0) →
  Cache.getSearchResult w0.(cache) request.(question) request.(collection)
    = None →
  (Embeddings.generateQueryEmbedding pipeline w0.(rag).(embeddings)
     w0.(cache) request.(question)).1.1 = Returned queryEmbedding →
  (VectorDB.search config w0.(rag).(vectorDb) w0.(disk)
     request.(collection) queryEmbedding
     (Some (or_default request.(limit) config.(Config.maxResults)))).1.1
    = Returned searchResults →
  ∃ response : QueryResponse num,
    (query pipeline config w request).1 = Returned response
    ∧ response.(sources)
      = List.filter
          (λ result,
             num_leb (match request.(threshold) with
                      | Some t => t
                      | None => config.(Config.similarityThreshold)
                      end) result.(res_score))
          searchResults
    ∧ response.(answer)
      = match response.(sources) with
        | [] => noContent
        | matched => join separator (formatResult <$> matched)
        end.
Proof.
  intros Hi Hc He Hs. exists (respond config request searchResults).
  split; [|split; [done | apply respond_answer]].
  unfold query. rewrite Hi, Hc.
  destruct (Embeddings.generateQueryEmbedding _ _ _ _) as [[embedded e] c1].
  cbn in He. subst embedded.
  destruct (VectorDB.search _ _ _ _ _ _) as [[found db] d1].
  cbn in Hs. by subst found.
Qed.

End Query.
End RagFacts.

Module ChunkerFacts.
Import Chunker.

(** C6, as amended.  With [size] and [overlapSize] the arguments, an absent
    or zero argument replaced by the configured value: [chunkText] throws
    exactly when [size <= 0] or [overlapSize >= size] (the first error in
    the first case, the second in the other), and otherwise returns the
    passages. *)
Theorem chunkText_throws_iff {num} (config : RagConfig num)
    (text : jsstring) (chunkSize overlap : option Z) :
  let size := or_default chunkSize config.(Config.chunkSize) in
  let overlapSize := or_default overlap config.(Config.chunkOverlap) in
  ((∃ e, chunkText config text chunkSize overlap = Thrown e)
     ↔ (size ≤ 0)%Z ∨ (size ≤ overlapSize)%Z)
  ∧ (chunkText config text chunkSize overlap = Thrown ChunkSizeNotPositive
     ↔ (size ≤ 0)%Z)
  ∧ (chunkText config text chunkSize overlap = Thrown OverlapNotLessThanSize
     ↔ (0 < size ≤ overlapSize)%Z)
  ∧ ((0 < size)%Z → (overlapSize < size)%Z →
     chunkText config text chunkSize overlap
     = Returned (chunksOf size overlapSize text)).
Proof.
  cbn zeta. unfold chunkText.
  destruct (Z.leb_spec (or_default chunkSize config.(Config.chunkSize)) 0);
    [|destruct (Z.geb_spec (or_default overlap config.(Config.chunkOverlap))
                  (or_default chunkSize config.(Config.chunkSize)))].
  - repeat split; try done; try lia; eauto.
  - repeat split; try done; try lia; eauto.
  - repeat split; try done; try lia; eauto. by intros [e He].
Qed.

End ChunkerFacts.


Module TrimFacts.
Import Chunker.

Lemma blank_app (a b : jsstring) : blank (a ++ b) = blank a && blank b.
Proof. apply forallb_app. Qed.

Lemma blank_reverse (s : jsstring) : blank (reverse s) = blank s.
Proof.
  induction s as [|c s IH]; [done|].
  rewrite reverse_cons, blank_app, IH. cbn. rewrite andb_true_r.
  apply andb_comm.
Qed.

Lemma trimStart_suffix (s : jsstring) : trimStart s `suffix_of` s.
Proof.
  induction s as [|c s IH]; cbn; [done|].
  destruct (is_space c); [by apply suffix_cons_r | done].
Qed.

Lemma trimStart_blank (s : jsstring) : blank s = true → trimStart s = [].
Proof.
  induction s as [|c s IH]; cbn; [done|].
  destruct (is_space c); [apply IH | done].
Qed.

Lemma trimStart_app_blank (a b : jsstring) :
  blank a = true → trimStart (a ++ b) = trimStart b.
Proof.
  induction a as [|c a IH]; cbn; [done|].
  destruct (is_space c); [apply IH | done].
Qed.

Lemma trimStart_app_nonblank (a b : jsstring) :
  blank a = false → trimStart (a ++ b) = trimStart a ++ b.
Proof.
  induction a as [|c a IH]; cbn; [done|].
  destruct (is_space c); [apply IH | done].
Qed.

Lemma trimStart_nonblank (s : jsstring) :
  blank s = false → blank (trimStart s) = false.
Proof.
  induction s as [|c s IH]; cbn; [done|].
  destruct (is_space c) eqn:Hc; [apply IH|]. intros _. cbn. by rewrite Hc.
Qed.

Lemma trimEnd_app_blank (a b : jsstring) :
  blank b = true → trimEnd (a ++ b) = trimEnd a.
Proof.
  intros Hb. unfold trimEnd.
  by rewrite reverse_app, trimStart_app_blank by by rewrite blank_reverse.
Qed.

Lemma trimEnd_app_nonblank (a b : jsstring) :
  blank b = false → trimEnd (a ++ b) = a ++ trimEnd b.
Proof.
  intros Hb. unfold trimEnd.
  rewrite reverse_app, trimStart_app_nonblank by by rewrite blank_reverse.
  by rewrite reverse_app, reverse_involutive.
Qed.

Lemma trimEnd_prefix (s : jsstring) : trimEnd s `prefix_of` s.
Proof.
  unfold trimEnd. destruct (trimStart_suffix (reverse s)) as [k Hk].
  exists (reverse k).
  rewrite <- (reverse_involutive s), Hk at 1.
  by rewrite reverse_app.
Qed.

Lemma trimEnd_length (s : jsstring) : length (trimEnd s) ≤ length s.
Proof. apply prefix_length, trimEnd_prefix. Qed.

Lemma trimStart_length (s : jsstring) : length (trimStart s) ≤ length s.
Proof. apply suffix_length, trimStart_suffix. Qed.

Lemma trim_length (s : jsstring) : length (trim s) ≤ length s.
Proof.
  unfold trim. pose proof (trimEnd_length (trimStart s)).
  pose proof (trimStart_length s). lia.
Qed.

Lemma trim_blank (s : jsstring) : blank s = true → trim s = [].
Proof. intros Hs. unfold trim. by rewrite trimStart_blank. Qed.

(** What follows a buffer does not reach into its trimmed part. *)
Lemma trim_prefix_app (o r : jsstring) :
  blank r = false → trim o `prefix_of` trim (o ++ r).
Proof.
  intros Hr. destruct (blank o) eqn:Ho.
  - rewrite trim_blank by done. apply prefix_nil.
  - unfold trim. rewrite trimStart_app_nonblank by done.
    rewrite trimEnd_app_nonblank by done.
    apply prefix_app_r, trimEnd_prefix.
Qed.

(** Trimming keeps a tail a tail. *)
Lemma trim_suffix (o buf : jsstring) :
  o `suffix_of` buf → trim o `suffix_of` trim buf.
Proof.
  intros [a ->]. destruct (blank o) eqn:Ho.
  { rewrite (trim_blank o) by done. apply suffix_nil. }
  assert (Htail : trim o `suffix_of` trimEnd o).
  { unfold trim. destruct (trimStart_suffix o) as [sp Hsp].
    rewrite Hsp at 2.
    rewrite trimEnd_app_nonblank by by apply trimStart_nonblank.
    by apply suffix_app_r. }
  destruct (blank a) eqn:Ha.
  - unfold trim at 2. by rewrite trimStart_app_blank.
  - unfold trim at 2. rewrite trimStart_app_nonblank by done.
    rewrite trimEnd_app_nonblank by done. by apply suffix_app_r.
Qed.

(** A trailing space is trimmed away. *)
Lemma trim_snoc_space (s : jsstring) (c : N) :
  is_space c = true → length (trim (s ++ [c])) ≤ length s.
Proof.
  intros Hc. assert (Hb : blank [c] = true) by (cbn; by rewrite Hc).
  destruct (blank s) eqn:Hs.
  - rewrite trim_blank; [cbn; lia|]. by rewrite blank_app, Hs, Hb.
  - unfold trim. rewrite trimStart_app_nonblank by done.
    rewrite trimEnd_app_blank by done. apply (trim_length s).
Qed.

Lemma trim_nonblank (s : jsstring) : trim s ≠ [] → blank (trim s) = false.
Proof.
  intros Hne. destruct (blank s) eqn:Hs; [by rewrite trim_blank in Hne|].
  unfold trim, trimEnd.
  rewrite blank_reverse. apply trimStart_nonblank.
  rewrite blank_reverse. by apply trimStart_nonblank.
Qed.

End TrimFacts.


Module OverlapFacts.
Import Chunker TrimFacts.

Lemma adjacent_snoc (P : jsstring → jsstring → Prop) (l : list jsstring)
    (q : jsstring) :
  adjacent P l → (∀ p, last l = Some p → P p q) → adjacent P (l ++ [q]).
Proof.
  intros Hl Hlast i p' q' Hi Hsi.
  destruct (decide (S i < length l)) as [Hlt|Hge].
  - rewrite lookup_app_l in Hi, Hsi by lia. by eapply Hl.
  - pose proof (lookup_lt_Some _ _ _ Hsi) as Hb.
    rewrite length_app in Hb. cbn in Hb.
    assert (S i = length l) as Hsl by lia.
    rewrite lookup_app_l in Hi by lia.
    rewrite lookup_app_r in Hsi by lia.
    rewrite Hsl, Nat.sub_diag in Hsi. cbn in Hsi. injection Hsi as <-.
    apply Hlast. rewrite last_lookup. rewrite <- Hi. f_equal. lia.
Qed.

Lemma findBreakPoint_bounds (chunk : jsstring) (overlapSize i : Z)
    (fuel : nat) :
  (1 ≤ overlapSize)%Z → (i ≤ overlapSize)%Z →
  (1 ≤ findBreakPoint chunk overlapSize i fuel ≤ overlapSize + 1)%Z.
Proof.
  intros Hov. revert i. induction fuel as [|fuel IH]; intros i Hi; cbn.
  - lia.
  - destruct (Z.gtb_spec i (overlapSize - 50)); cbn; [|lia].
    destruct (Z.gtb_spec i 0); cbn; [|lia].
    case_bool_decide; [lia|]. apply IH. lia.
Qed.

Lemma getOverlapText_suffix (chunk : jsstring) (overlapSize : Z) :
  getOverlapText chunk overlapSize `suffix_of` chunk.
Proof.
  unfold getOverlapText, slice_from.
  destruct (_ <=? _)%Z; [done|]. apply suffix_drop.
Qed.

(** The text carried over is no longer than [overlapSize], for a buffer
    that ends in a space. *)
Lemma carried_length (overlapSize : Z) (b' : jsstring) (c : N) :
  (1 ≤ overlapSize)%Z → is_space c = true →
  (Z.of_nat (length (carried overlapSize (b' ++ [c]))) ≤ overlapSize)%Z.
Proof.
  intros Hov Hc. unfold carried, getOverlapText.
  destruct (Z.leb_spec (Z.of_nat (length (b' ++ [c]))) overlapSize)
    as [Hle|Hgt].
  - pose proof (trim_snoc_space b' c Hc). rewrite length_app in Hle.
    cbn in Hle. lia.
  - pose proof (findBreakPoint_bounds (b' ++ [c]) overlapSize overlapSize 50
                  Hov ltac:(lia)) as Hbp.
    set (bp := findBreakPoint (b' ++ [c]) overlapSize overlapSize 50) in *.
    unfold slice_from. rewrite length_app in *. cbn [length] in *.
    destruct (Z.ltb_spec (- bp) 0); [|lia].
    rewrite Z.max_l by lia.
    rewrite drop_app_le by lia.
    pose proof (trim_snoc_space
                  (drop (Z.to_nat (Z.of_nat (length b' + 1) + - bp)) b')
                  c Hc) as Ht.
    rewrite length_drop in Ht. lia.
Qed.

Lemma splitIntoSentences_sentences (text : jsstring) :
  Forall sentenceLike (splitIntoSentences text).
Proof.
  unfold splitIntoSentences. apply Forall_fmap, Forall_forall.
  intros y Hy. apply list_elem_of_In, filter_In in Hy as [_ Hy].
  apply Nat.ltb_lt in Hy. cbn. exists (trim y). split; [done|].
  apply trim_nonblank. destruct (trim y); [cbn in Hy; lia | done].
Qed.

End OverlapFacts.

(* ------------------------------------------------------------------ *)
(** * The properties at concrete inputs *)

Module Runs.
Import Samples.
#[local] Existing Instance entriesOnly.

(** ** The scenarios of the specification, on doubles *)

Example hashString_hello : Cache.hashString (js "hello") = 99162322%Z.
Proof. reflexivity. Qed.

Example hashString_collision :
  Cache.hashString (js "Aa") = Cache.hashString (js "BB").
Proof. reflexivity. Qed.

(** Two texts with one hash share a cache entry: in a later batch [BB] is
    given the vector the model produced for [Aa]. *)
Example colliding_text_takes_cached_vector :
  match (Embeddings.generateEmbeddings (Some tellingModel) Embeddings.fresh
           Cache.empty twoBatches).1.1 with
  | Returned embeddings => embeddings !! 50
  | Thrown _ => None
  end = Some [1; 0]%float
  ∧ tellingModel (js "BB") = Some [0; 1]%float.
Proof. split; vm_compute; reflexivity. Qed.

Example chunk_scenario :
  Chunker.chunkText defaultConfig (js "A. B. C. D. E. F. G. H. I. J. K. L.")
    (Some 6%Z) (Some 2%Z)
  = Returned [js "A. B."; js "B. C."; js "C. D."; js "D. E."; js "E. F.";
              js "F. G."; js "G. H."; js "H. I."; js "I. J."; js "J. K.";
              js "K. L."].
Proof. vm_compute. reflexivity. Qed.

Example orthogonal_scenario :
  let added :=
    VectorDB.addDocuments VectorDB.emptyDb None (js "t")
      [chunkOf "x"; chunkOf "y"; chunkOf "z"]
      [[1; 0; 0]; [0; 1; 0]; [0; 0; 1]]%float in
  match (VectorDB.search defaultConfig added.1.2 added.2 (js "t")
           [1; 0; 0]%float (Some 5%Z)).1.1 with
  | Returned results => (λ r, (r.(res_content), r.(res_score))) <$> results
  | Thrown _ => []
  end
  = [(js "x", 1%float); (js "y", 0%float); (js "z", 0%float)].
Proof. vm_compute. reflexivity. Qed.

Example deleted_scenario :
  let added :=
    VectorDB.addDocuments VectorDB.emptyDb None (js "t") [chunkOf "x"]
      [[1; 0; 0]]%float in
  let deleted := VectorDB.deleteCollection added.1.2 added.2 (js "t") in
  (VectorDB.search defaultConfig deleted.1.2 deleted.2 (js "t")
     [1; 0; 0]%float (Some 5%Z)).1.1 = Returned []
  ∧ deleted.2 = Some ∅.
Proof. vm_compute. split; reflexivity. Qed.

Example cosineSimilarity_mismatch :
  VectorDB.cosineSimilarity [1; 2]%float [1; 2; 3]%float = 0%float
  ∧ VectorDB.cosineSimilarity [0; 0]%float [1; 2]%float = 0%float.
Proof. vm_compute. split; reflexivity. Qed.

(** ** C2: the overlap *)

(** The buffers and the passages of the scenario of the specification. *)
Example emitted_scenario :
  Chunker.emitted 6 2 (js "A. B. C. D.")
    = [js "A. B. "; js "B. C. "; js "C. D. "]
  ∧ Chunker.chunkText defaultConfig (js "A. B. C. D.") (Some 6%Z) (Some 2%Z)
    = Returned [js "A. B."; js "B. C."; js "C. D."].
Proof. vm_compute. split; reflexivity. Qed.

(** With an overlap size of 0, [getOverlapText] hands the whole buffer
    over ([chunk.slice(-0)] is the whole of [chunk]), so every passage
    starts with the whole of the passage before it; with a negative
    overlap size it hands over all but the first characters. *)
Example chunkText_small_overlaps :
  Chunker.getOverlapText (js "A. B. ") 0 = js "A. B. "
  ∧ Chunker.chunkText noOverlapConfig (js "A. B. C. D.") None None
    = Returned [js "A. B."; js "A. B. C."; js "A. B. C. D."]
  ∧ Chunker.chunkText defaultConfig (js "A. B. C. D.") (Some 6%Z)
      (Some (-1)%Z)
    = Returned [js "A. B."; js ". B. C."; js "B. C. D."].
Proof. vm_compute. repeat split; reflexivity. Qed.

(** ** C6: the sizes *)

(** C6, as stated, fails: an overlap of 0 is replaced by the configured
    200 and rejected, although [5 > 0] and [0 < 5]; a size of 0 is replaced
    by the configured 1000 and accepted. *)
Lemma chunkText_zero_is_default :
  Chunker.chunkText defaultConfig (js "Hi.") (Some 5%Z) (Some 0%Z)
    = Thrown OverlapNotLessThanSize
  ∧ (0 < 5)%Z ∧ (0 < 5)%Z
  ∧ Chunker.chunkText defaultConfig (js "Hi.") (Some 0%Z) (Some 0%Z)
    = Returned [js "Hi."]
  ∧ (0 ≤ 0)%Z.
Proof. vm_compute. repeat split; (reflexivity || discriminate). Qed.

(** ** C4: the round trip *)



(** ** C1: the ranking *)

(** The query [(0.6, 0.8)] against three records: the stretched copy of
    the query comes first, then the record along the second axis. *)
Lemma search_ranks_by_cosine_witness :
  ∃ ranked : list (StoredDocument float * float),
    (VectorDB.search defaultConfig compass None (js "t") unitQuery
       (Some 2%Z)).1.1
      = Returned
          ((λ x, {| res_content := x.1.(doc_content);
                    res_score := x.2;
                    res_metadata := x.1.(doc_metadata) |})
             <$> take 2 ranked)
    ∧ ranked ≡ₚ
        (λ doc, (doc, Similarity.cosine unitQuery
                        (default [] doc.(doc_embedding))))
          <$> [north; east; stretched]
    ∧ StronglySorted (λ x y, PrimFloat.ltb 0 (y.2 - x.2) = false) ranked.
Proof.
  destruct (SearchFacts.search_ranks_by_cosine defaultConfig compass None
              (js "t") unitQuery (Some 2%Z) [north; east; stretched])
    as (ranked & Hsearch & Hperm & Hsorted & _).
  - reflexivity.
  - repeat constructor; by eexists.
  - vm_compute. reflexivity.
  - exists ranked. split; [exact Hsearch|]. split; [exact Hperm|].
    exact Hsorted.
Defined.

Example search_compass :
  (VectorDB.search defaultConfig compass None (js "t") unitQuery
     (Some 2%Z)).1.1
  = Returned
      [ {| res_content := js "stretched";
           res_score := 0x1.0000000000001p+0%float;
           res_metadata := stretched.(doc_metadata) |};
        {| res_content := js "north";
           res_score := 0x1.999999999999ap-1%float;
           res_metadata := north.(doc_metadata) |} ].
Proof. vm_compute. reflexivity. Qed.

(** C1, as stated, fails.  The query [(0.6, 0.8)] is a unit vector: its
    squared norm is computed as 1.  The record that holds this very vector
    has the score 1, and the record that holds the multiple
    [(1.2375, 1.65)] of it has a score above 1, by rounding; so the record
    with the identical vector, although it was stored first, is ranked
    second. *)
Lemma identical_vector_ranked_second :
  VectorDB.squaredNorm unitQuery = 1%float
  ∧ same.(doc_embedding) = Some unitQuery
  ∧ parallels.(collections) !! js "t" = Some [same; stretched]
  ∧ (VectorDB.search defaultConfig parallels None (js "t") unitQuery
       None).1.1
    = Returned
        [ {| res_content := js "stretched";
             res_score := 0x1.0000000000001p+0%float;
             res_metadata := stretched.(doc_metadata) |};
          {| res_content := js "same";
             res_score := 1%float;
             res_metadata := same.(doc_metadata) |} ]
  ∧ PrimFloat.ltb 1 0x1.0000000000001p+0 = true.
Proof. repeat split; vm_compute; reflexivity. Qed.

(** ** C10: the records without a vector *)


(** Vectors of the wrong length and zero vectors score 0. *)
Example search_malformed :
  let added :=
    VectorDB.addDocuments VectorDB.emptyDb None (js "t")
      [chunkOf "short"; chunkOf "zero"; chunkOf "east"]
      [[1]; [0; 0]; [1; 0]]%float in
  (VectorDB.search defaultConfig added.1.2 added.2 (js "t") [1; 0]%float
     None).1.1
  = Returned
      [ {| res_content := js "east"; res_score := 1%float;
           res_metadata :=
             (@VectorDB.storedDocument float (chunkOf "east") None).(doc_metadata) |};
        {| res_content := js "short"; res_score := 0%float;
           res_metadata :=
             (@VectorDB.storedDocument float (chunkOf "short") None).(doc_metadata) |};
        {| res_content := js "zero"; res_score := 0%float;
           res_metadata :=
             (@VectorDB.storedDocument float (chunkOf "zero") None).(doc_metadata) |} ].
Proof. vm_compute. reflexivity. Qed.

(** ** C3: the embeddings *)

Lemma generateEmbeddings_witness :
  ∃ (embeddings : list (list float)) (cache' : Cache.t float),
    Embeddings.generateEmbeddings (Some constantModel) Embeddings.fresh
      Cache.empty [js "a"; js "b"; js "a"]
    = (Returned embeddings,
       (Embeddings.ensureInitialized (Some constantModel)
          Embeddings.fresh).2, cache')
    ∧ length embeddings = 3
    ∧ embeddings !! 2 = Some [1; 0]%float
    ∧ Cache.getEmbedding cache' (js "a") = Some [1; 0]%float.
Proof.
  destruct (EmbeddingsFacts.generateEmbeddings_cached_or_computed
              (Some constantModel) Embeddings.fresh Cache.empty
              [js "a"; js "b"; js "a"] constantModel eq_refl eq_refl)
    as (embeddings & cache' & Hrun & Hlen & _ & Hfree).
  - intros text _. by eexists.
  - exists embeddings, cache'. split; [exact Hrun|]. split; [exact Hlen|].
    destruct (Hfree) with (i := 2) (text := js "a") as [Hout Hcache].
    + intros t t' Ht Ht' Hh.
      repeat (apply elem_of_cons in Ht as [->|Ht]);
        repeat (apply elem_of_cons in Ht' as [->|Ht']);
        try done; try (by apply elem_of_nil in Ht);
        by apply elem_of_nil in Ht'.
    + reflexivity.
    + split; [exact Hout | by rewrite Hcache, Hout].
Defined.

(** ** C5: the query *)

(** C5, as stated, fails: the response to a question is cached by question
    and collection alone.  The same question asked again with a lower
    threshold gets the cached response, without the result that now
    passes. *)
Lemma query_cached_ignores_threshold :
  let first := Rag.query (Some constantModel) defaultConfig slantedWorld
                 (ask 0.75%float) in
  let again := Rag.query (Some constantModel) defaultConfig first.2
                 (ask 0.5%float) in
  first.1 = Returned {| answer := Rag.noContent; sources := [] |}
  ∧ again.1 = Returned {| answer := Rag.noContent; sources := [] |}
  ∧ (VectorDB.search defaultConfig first.2.(Rag.rag).(Rag.vectorDb)
       first.2.(Rag.disk) (js "t") [1; 0]%float (Some 5%Z)).1.1
    = Returned [found]
  ∧ List.filter (Rag.passes defaultConfig (ask 0.5%float)) [found] = [found].
Proof. vm_compute. repeat split; reflexivity. Qed.

Lemma query_filters_by_threshold_witness :
  ∃ response : QueryResponse float,
    (Rag.query (Some constantModel) defaultConfig slantedWorld
       (ask 0.5%float)).1 = Returned response
    ∧ (res_content <$> response.(sources)) = [js "slanted"]
    ∧ response.(answer)
      = js "[doc.txt, Page 1]" ++ [10%N] ++ js "slanted".
Proof.
  destruct (RagFacts.query_filters_by_threshold (Some constantModel)
              defaultConfig slantedWorld slantedWorld (ask 0.5%float)
              [1; 0]%float
              [found])
    as (response & Hquery & Hsources & Hanswer).
  - reflexivity.
  - reflexivity.
  - vm_compute. reflexivity.
  - vm_compute. reflexivity.
  - exists response. split; [exact Hquery|].
    rewrite Hanswer, Hsources. vm_compute. split; reflexivity.
Defined.

(** ** C9: the callers *)

(** The load of the first of two callers is in flight when the second one
    starts: the second one loads the model as well. *)
Lemma early_callers_each_load_witness :
  let inFlight := Loading.exec [0; 0] (Loading.start 2) in
  let later := Loading.exec [0; 1; 1] (Loading.turn inFlight 1) in
  inFlight.2 = [Loading.AwaitingPipeline; Loading.NotStarted]
  ∧ (later.2 !! 1 = Some Loading.AwaitingImport
     ∨ later.2 !! 1 = Some Loading.AwaitingPipeline
     ∨ later.2 !! 1 = Some (Loading.Finished true))
  ∧ later.1.(Loading.loads) = 2.
Proof.
  cbn zeta. split; [reflexivity|]. split; [|reflexivity].
  destruct (LoadingFacts.early_callers_each_load 2 _
              (LoadingFacts.exec_steps [0; 0] (Loading.start 2)))
    as (_ & Hearly & _).
  destruct (Hearly 1 eq_refl eq_refl) as [_ Hlater].
  apply Hlater. apply LoadingFacts.exec_steps.
Defined.

Example sequential_callers_load_once :
  Loading.exec [0; 0; 0; 1] (Loading.start 2)
  = ({| Loading.initialized := true; Loading.loads := 1 |},
     [Loading.Finished true; Loading.Finished false]).
Proof. reflexivity. Qed.

End Runs.

(* ------------------------------------------------------------------ *)
(** * Further properties *)

Module ChunkingFacts.
Import Chunker TrimFacts OverlapFacts Passages.

(** ** Trimming *)

Lemma trimStart_idempotent (s : jsstring) :
  trimStart (trimStart s) = trimStart s.
Proof.
  induction s as [|c s IH]; cbn; [done|].
  destruct (is_space c) eqn:Hc; [done|]. cbn. by rewrite Hc.
Qed.

Lemma trimEnd_idempotent (s : jsstring) : trimEnd (trimEnd s) = trimEnd s.
Proof.
  unfold trimEnd. by rewrite reverse_involutive, trimStart_idempotent.
Qed.

Lemma trimEnd_blank (s : jsstring) : blank s = true → trimEnd s = [].
Proof.
  intros Hs. unfold trimEnd. rewrite trimStart_blank; [done|].
  by rewrite blank_reverse.
Qed.

Lemma trimStart_split (s : jsstring) :
  blank s = false →
  ∃ sp c x, s = sp ++ c :: x ∧ blank sp = true ∧ is_space c = false
            ∧ trimStart s = c :: x.
Proof.
  induction s as [|c s IH]; cbn; [done|].
  destruct (is_space c) eqn:Hc; cbn.
  - intros Hs. destruct (IH Hs) as (sp & c' & x & -> & Hsp & Hc' & Hx).
    exists (c :: sp), c', x. cbn. by rewrite Hc.
  - intros _. by exists [], c, s.
Qed.

Lemma trimEnd_cons (c : N) (x : jsstring) :
  is_space c = false → ∃ x', trimEnd (c :: x) = c :: x'.
Proof.
  intros Hc. change (c :: x) with ([c] ++ x). destruct (blank x) eqn:Hx.
  - rewrite trimEnd_app_blank by done. exists [].
    unfold trimEnd. cbn. by rewrite Hc.
  - rewrite trimEnd_app_nonblank by done. by eexists.
Qed.

Lemma trimStart_trimEnd (s : jsstring) :
  trimStart (trimEnd s) = trimEnd (trimStart s).
Proof.
  destruct (blank s) eqn:Hs.
  { by rewrite (trimEnd_blank s), (trimStart_blank s). }
  destruct (trimStart_split s Hs) as (sp & c & x & -> & Hsp & Hc & Hx).
  rewrite Hx.
  assert (Hcx : blank (c :: x) = false) by (cbn; by rewrite Hc).
  rewrite trimEnd_app_nonblank by done.
  rewrite trimStart_app_blank by done.
  destruct (trimEnd_cons c x Hc) as [x' ->]. cbn. by rewrite Hc.
Qed.

Lemma trim_idempotent (s : jsstring) : trim (trim s) = trim s.
Proof.
  unfold trim.
  by rewrite trimStart_trimEnd, trimStart_idempotent, trimEnd_idempotent.
Qed.

Lemma trim_nonempty (s : jsstring) : blank s = false → trim s ≠ [].
Proof.
  intros Hs Hnil.
  assert (Hb : blank (trim s) = false).
  { unfold trim, trimEnd. rewrite blank_reverse. apply trimStart_nonblank.
    rewrite blank_reverse. by apply trimStart_nonblank. }
  by rewrite Hnil in Hb.
Qed.

Lemma trim_empty_blank (s : jsstring) : trim s = [] → blank s = true.
Proof.
  intros Hnil. destruct (blank s) eqn:Hs; [done|].
  by destruct (trim_nonempty s Hs).
Qed.

Lemma trim_snoc (x : jsstring) (c : N) :
  is_space c = true → trim (x ++ [c]) = trim x.
Proof.
  intros Hc. assert (Hb : blank [c] = true) by (cbn; by rewrite Hc).
  destruct (blank x) eqn:Hx.
  - rewrite !trim_blank; [done..|]. by rewrite blank_app, Hx, Hb.
  - unfold trim. rewrite trimStart_app_nonblank by done.
    by rewrite trimEnd_app_blank.
Qed.

(** A sentence as [splitIntoSentences] builds it: a trimmed, non-empty
    text followed by one space. *)
Lemma splitIntoSentences_shape (text sentence : jsstring) :
  sentence ∈ splitIntoSentences text →
  ∃ y, sentence = trim y ++ [32%N] ∧ trim y ≠ [] ∧ trim sentence = trim y.
Proof.
  unfold splitIntoSentences. intros Hs.
  apply list_elem_of_fmap in Hs as (y & -> & Hy).
  apply list_elem_of_In, filter_In in Hy as [_ Hy]. apply Nat.ltb_lt in Hy.
  exists y. split; [done|]. split.
  - intros Hnil. rewrite Hnil in Hy. cbn in Hy. lia.
  - change (js " ") with [32%N]. rewrite trim_snoc by done.
    apply trim_idempotent.
Qed.

(** ** The passages are trimmed *)

Lemma neat_trim (s : jsstring) : truthy (trim s) = true → neat (trim s).
Proof.
  intros Ht. split; [by destruct (trim s) | apply trim_idempotent].
Qed.

Lemma addSentence_neat (size overlapSize : Z) (b : buffer) (s : jsstring) :
  Forall neat b.(chunks) →
  Forall neat (addSentence size overlapSize b s).(chunks).
Proof.
  intros Hb. unfold addSentence.
  destruct ((_ >? _)%Z && truthy (trim (currentChunk b))) eqn:Hc; [|done].
  apply andb_true_iff in Hc as [_ Ht]. cbn.
  apply Forall_app. split; [done|]. apply Forall_singleton. by apply neat_trim.
Qed.

Lemma loop_neat (size overlapSize : Z) (sentences : list jsstring)
    (b : buffer) :
  Forall neat b.(chunks) →
  Forall neat (fold_left (addSentence size overlapSize) sentences b).(chunks).
Proof.
  revert b. induction sentences as [|s sentences IH]; intros b Hb; [done|].
  cbn. by apply IH, addSentence_neat.
Qed.

Lemma chunksOf_neat (size overlapSize : Z) (text : jsstring) :
  Forall neat (chunksOf size overlapSize text).
Proof.
  unfold chunksOf.
  pose proof (loop_neat size overlapSize (splitIntoSentences text)
                emptyBuffer (Forall_nil_2 _)) as Hl.
  destruct (truthy _) eqn:Ht; [|done].
  apply Forall_app. split; [done|]. apply Forall_singleton. by apply neat_trim.
Qed.

(** X2.  Every passage that [chunkText] returns is non-empty and has no white
    space at its start or at its end. *)
Theorem chunkText_passages_trimmed {num} (config : RagConfig num)
    (text : jsstring) (chunkSize overlap : option Z)
    (passages : list jsstring) :
  chunkText config text chunkSize overlap = Returned passages →
  ∀ p, p ∈ passages →
    p ≠ [] ∧ trim p = p ∧ trimStart p = p ∧ trimEnd p = p.
Proof.
  unfold chunkText.
  destruct (_ <=? 0)%Z; [done|]. destruct (_ >=? _)%Z; [done|].
  intros [= <-] p Hp.
  destruct (proj1 (Forall_forall neat _) (chunksOf_neat _ _ _) p Hp)
    as [Hne Htrim].
  split; [done|]. split; [done|]. rewrite <- Htrim. unfold trim. split.
  - by rewrite trimStart_trimEnd, trimStart_idempotent.
  - by rewrite trimEnd_idempotent.
Qed.

(** ** A text without sentence ends *)

Lemma split_from_no_terminal (s : jsstring) (st : scanner)
    (piece : jsstring) :
  Forall (λ c, is_terminal c = false) s →
  match st with
  | AtStart => True
  | After p => is_terminal p = false
  | InMatch => False
  end →
  split_from st piece s = [piece ++ s].
Proof.
  intros Hs. revert st piece.
  induction Hs as [|c s Hc Hs IH]; intros st piece Hst; cbn [split_from].
  { by rewrite app_nil_r. }
  destruct st as [|p|]; [| |done].
  - rewrite IH by done. by rewrite <- app_assoc.
  - rewrite Hst, andb_false_r. rewrite IH by done. by rewrite <- app_assoc.
Qed.

Lemma splitIntoSentences_no_terminal (text : jsstring) :
  Forall (λ c, is_terminal c = false) text →
  splitIntoSentences text
  = if blank text then [] else [trim text ++ [32%N]].
Proof.
  intros Hs. unfold splitIntoSentences, split_on_sentence_ends.
  rewrite split_from_no_terminal by done. cbn [app List.filter].
  destruct (blank text) eqn:Hb.
  - by rewrite trim_blank.
  - pose proof (trim_nonempty text Hb).
    destruct (trim text) eqn:Ht; [done|]. cbn. by rewrite Ht.
Qed.

(** X3.  A text in which no [.], [!] or [?] occurs is never split, whatever the
    chunk size: it makes one passage, the trimmed text, or none when it is
    blank. *)
Theorem chunkText_unpunctuated {num} (config : RagConfig num)
    (text : jsstring) (chunkSize overlap : option Z) :
  let size := or_default chunkSize config.(Config.chunkSize) in
  let overlapSize := or_default overlap config.(Config.chunkOverlap) in
  (0 < size)%Z → (overlapSize < size)%Z →
  Forall (λ c, is_terminal c = false) text →
  chunkText config text chunkSize overlap
  = Returned (if blank text then [] else [trim text]).
Proof.
  cbn zeta. intros Hsize Hov Hs. unfold chunkText.
  destruct (Z.leb_spec (or_default chunkSize (Config.chunkSize config)) 0);
    [lia|].
  destruct (Z.geb_spec (or_default overlap (Config.chunkOverlap config))
              (or_default chunkSize (Config.chunkSize config))); [lia|].
  f_equal. unfold chunksOf. rewrite splitIntoSentences_no_terminal by done.
  destruct (blank text) eqn:Hb; [done|].
  cbn [fold_left]. unfold addSentence.
  change (trim (currentChunk emptyBuffer)) with (@nil N).
  cbn [truthy]. rewrite andb_false_r. cbn [chunks currentChunk emptyBuffer app].
  rewrite trim_snoc by done. rewrite trim_idempotent.
  pose proof (trim_nonempty text Hb). by destruct (trim text).
Qed.

(** ** The size of the passages *)

Lemma getOverlapText_length (chunk : jsstring) (overlapSize : Z) :
  (1 ≤ overlapSize)%Z →
  (Z.of_nat (length (getOverlapText chunk overlapSize)) ≤ overlapSize + 1)%Z.
Proof.
  intros Hov. unfold getOverlapText.
  destruct (Z.leb_spec (Z.of_nat (length chunk)) overlapSize); [lia|].
  pose proof (findBreakPoint_bounds chunk overlapSize overlapSize 50
                Hov ltac:(lia)) as Hbp.
  set (bp := findBreakPoint chunk overlapSize overlapSize 50) in *.
  unfold slice_from. destruct (Z.ltb_spec (- bp) 0); [|lia].
  rewrite length_drop. lia.
Qed.

Section Sizes.
Context (size overlapSize longest : Z) (Hov : (1 ≤ overlapSize)%Z).

Local Abbreviation ceiling := (Z.max size (overlapSize + 1 + longest)).

Lemma sized_passage (b : buffer) :
  sized ceiling b → truthy (trim b.(currentChunk)) = true →
  (Z.of_nat (length (trim b.(currentChunk))) < ceiling)%Z.
Proof.
  intros (_ & [Hnil | [(x & c & Hcur & Hc & _) Hlen]] & _) Ht.
  - by rewrite Hnil in Ht.
  - rewrite Hcur in *. pose proof (trim_snoc_space x c Hc).
    rewrite length_app in Hlen. cbn in Hlen. lia.
Qed.

Lemma sized_addSentence (b : buffer) (s : jsstring) :
  sized ceiling b → sentenceLike s → (Z.of_nat (length s) ≤ longest)%Z →
  sized ceiling (addSentence size overlapSize b s).
Proof using Hov.
  intros Hb (x & -> & Hx) Hs. unfold addSentence.
  destruct ((_ >? _)%Z && truthy (trim (currentChunk b))) eqn:Hc.
  - apply andb_true_iff in Hc as [_ Ht].
    pose proof (sized_passage b Hb Ht) as Hp.
    destruct Hb as (Hsize & _ & Hall).
    pose proof (getOverlapText_length (currentChunk b) overlapSize Hov).
    unfold sized. cbn [flush chunks currentChunk currentSize].
    split; [rewrite !length_app; cbn [length]; lia|]. split.
    + right. split.
      * exists (getOverlapText (currentChunk b) overlapSize ++ x), 32%N.
        rewrite app_assoc. split; [done|]. split; [done|].
        by rewrite blank_app, Hx, andb_false_r.
      * rewrite !length_app in *; cbn [length] in *; lia.
    + apply Forall_app. split; [done|]. by apply Forall_singleton.
  - destruct Hb as (Hsize & Hcur & Hall).
    unfold sized. cbn [chunks currentChunk currentSize].
    split; [rewrite !length_app; cbn [length]; lia|]. split; [|done].
    right. split.
    + exists (currentChunk b ++ x), 32%N.
      rewrite app_assoc. split; [done|]. split; [done|].
      by rewrite blank_app, Hx, andb_false_r.
    + apply andb_false_iff in Hc as [Hc|Hc].
      * rewrite Z.gtb_ltb in Hc. apply Z.ltb_ge in Hc.
        rewrite !length_app in *; cbn [length] in *; lia.
      * destruct Hcur as [Hnil | [(y & c & Hy & Hc' & Hby) Hlen]].
        { rewrite Hnil. cbn [app]. lia. }
        assert (blank (currentChunk b) = false) as Hbl.
        { by rewrite Hy, blank_app, Hby. }
        pose proof (trim_nonempty _ Hbl). by destruct (trim (currentChunk b)).
Qed.

Lemma sized_loop (sentences : list jsstring) (b : buffer) :
  sized ceiling b → Forall sentenceLike sentences →
  (∀ s, s ∈ sentences → (Z.of_nat (length s) ≤ longest)%Z) →
  sized ceiling (fold_left (addSentence size overlapSize) sentences b).
Proof using Hov.
  intros Hb Hs. revert b Hb.
  induction Hs as [|s sentences Hs _ IH]; intros b Hb Hlen; [done|].
  cbn. apply IH.
  - apply sized_addSentence; [done..|]. apply Hlen. by left.
  - intros s' Hs'. apply Hlen. by right.
Qed.

Lemma chunksOf_sized (text : jsstring) :
  (∀ s, s ∈ splitIntoSentences text → (Z.of_nat (length s) ≤ longest)%Z) →
  Forall (λ p, (Z.of_nat (length p) < ceiling)%Z)
    (chunksOf size overlapSize text).
Proof using Hov.
  intros Hlen. unfold chunksOf.
  assert (Hempty : sized ceiling emptyBuffer).
  { split; [done|]. split; [by left | by apply Forall_nil]. }
  pose proof (sized_loop (splitIntoSentences text) emptyBuffer Hempty
                (splitIntoSentences_sentences text) Hlen) as Hl.
  destruct (truthy _) eqn:Ht; [|apply Hl].
  apply Forall_app. split; [apply Hl|].
  apply Forall_singleton. by apply sized_passage.
Qed.

End Sizes.

(** X4.  For an overlap size of at least 1, with [longest] a bound on the
    length of the sentences (each with the space that follows it): every
    passage is shorter than the larger of the chunk size and
    [overlapSize + 1 + longest].  So the passages respect the chunk size
    as soon as no sentence is longer than [size - overlapSize - 1]. *)
Theorem chunkText_size_bound {num} (config : RagConfig num)
    (text : jsstring) (chunkSize overlap : option Z)
    (passages : list jsstring) (longest : Z) :
  let size := or_default chunkSize config.(Config.chunkSize) in
  let overlapSize := or_default overlap config.(Config.chunkOverlap) in
  (1 ≤ overlapSize)%Z →
  chunkText config text chunkSize overlap = Returned passages →
  (∀ s, s ∈ splitIntoSentences text → (Z.of_nat (length s) ≤ longest)%Z) →
  ∀ p, p ∈ passages →
    (Z.of_nat (length p) < Z.max size (overlapSize + 1 + longest))%Z.
Proof.
  cbn zeta. intros Hov. unfold chunkText.
  destruct (_ <=? 0)%Z; [done|]. destruct (_ >=? _)%Z; [done|].
  intros [= <-] Hlen p Hp.
  pose proof (chunksOf_sized
                (or_default chunkSize (Config.chunkSize config)) _ longest
                Hov text Hlen) as Hall.
  rewrite Forall_forall in Hall. by apply Hall.
Qed.

(** ** No sentence is lost *)

Lemma trim_fixed (x : jsstring) :
  trim x = x → trimStart x = x ∧ trimEnd x = x.
Proof.
  intros Hx. rewrite <- Hx. unfold trim. split.
  - by rewrite trimStart_trimEnd, trimStart_idempotent.
  - by rewrite trimEnd_idempotent.
Qed.

Lemma neat_nonblank (x : jsstring) : neat x → blank x = false.
Proof.
  intros [Hne Hx]. destruct (blank x) eqn:Hb; [|done].
  by rewrite trim_blank in Hx.
Qed.

Lemma infix_trim (x cur : jsstring) :
  neat x → infix x cur → infix x (trim cur).
Proof.
  intros Hx (pre & post & ->).
  pose proof (neat_nonblank x Hx) as Hb.
  destruct Hx as [_ Hx]. apply trim_fixed in Hx as [Hstart Hend].
  assert (Hxp : blank (x ++ post) = false) by by rewrite blank_app, Hb.
  assert (∃ pre', trimStart (pre ++ x ++ post) = pre' ++ x ++ post)
    as [pre' Hpre].
  { destruct (blank pre) eqn:Hp.
    - exists []. rewrite trimStart_app_blank by done.
      by rewrite trimStart_app_nonblank, Hstart.
    - exists (trimStart pre). by rewrite trimStart_app_nonblank. }
  unfold trim. rewrite Hpre. destruct (blank post) eqn:Hpost.
  - exists pre', []. rewrite (app_assoc pre' x post).
    rewrite trimEnd_app_blank by done.
    by rewrite trimEnd_app_nonblank, Hend, app_nil_r.
  - exists pre', (trimEnd post). rewrite (app_assoc pre' x post).
    rewrite trimEnd_app_nonblank by done. by rewrite <- app_assoc.
Qed.

Lemma infix_app_r (x cur s : jsstring) : infix x cur → infix x (cur ++ s).
Proof.
  intros (pre & post & ->). exists pre, (post ++ s).
  by rewrite <- !app_assoc.
Qed.

Lemma infix_blank (x cur : jsstring) :
  infix x cur → blank cur = true → blank x = true.
Proof.
  intros (pre & post & ->). rewrite !blank_app.
  intros H. apply andb_true_iff in H as [_ H].
  by apply andb_true_iff in H as [H _].
Qed.

Section Held.
Context (size overlapSize : Z).

Lemma held_addSentence (b : buffer) (s s' : jsstring) :
  neat (trim s') → held b s' → held (addSentence size overlapSize b s) s'.
Proof.
  intros Hn Hb. unfold addSentence, held.
  destruct ((_ >? _)%Z && truthy (trim (currentChunk b))) eqn:Hc;
    cbn [flush chunks currentChunk currentSize].
  - left. destruct Hb as [(p & Hp & Hin) | Hin].
    + exists p. split; [|done]. apply elem_of_app. by left.
    + exists (trim (currentChunk b)). split.
      * apply elem_of_app. right. by apply list_elem_of_singleton.
      * by apply infix_trim.
  - destruct Hb as [Hb | Hin]; [by left|]. right. by apply infix_app_r.
Qed.

Lemma held_new (b : buffer) (s : jsstring) :
  (∃ y, s = trim y ++ [32%N] ∧ trim s = trim y) →
  held (addSentence size overlapSize b s) s.
Proof.
  intros (y & Hs & Ht). right. rewrite Ht. unfold addSentence.
  cbn [currentChunk]. rewrite Hs. eexists _, [32%N]. reflexivity.
Qed.

Lemma held_loop (sentences : list jsstring) (b : buffer) (s' : jsstring) :
  (∀ s, s ∈ sentences →
     ∃ y, s = trim y ++ [32%N] ∧ trim y ≠ [] ∧ trim s = trim y) →
  neat (trim s') →
  held b s' ∨ s' ∈ sentences →
  held (fold_left (addSentence size overlapSize) sentences b) s'.
Proof.
  revert b. induction sentences as [|s sentences IH]; intros b Hall Hn Hs'.
  { destruct Hs' as [Hs' | Hs']; [done | by apply elem_of_nil in Hs']. }
  cbn. apply IH; [|done|].
  { intros s0 Hs0. apply Hall. by right. }
  destruct Hs' as [Hs' | Hs'].
  - left. by apply held_addSentence.
  - apply elem_of_cons in Hs' as [-> | Hs']; [|by right].
    left. apply held_new.
    destruct (Hall s ltac:(by left)) as (y & Hy & _ & Ht). by exists y.
Qed.

Lemma chunksOf_held (text sentence : jsstring) :
  sentence ∈ splitIntoSentences text →
  ∃ p, p ∈ chunksOf size overlapSize text ∧ infix (trim sentence) p.
Proof.
  intros Hs.
  assert (Hn : neat (trim sentence)).
  { destruct (splitIntoSentences_shape _ _ Hs) as (y & _ & Hy & Ht).
    rewrite Ht. split; [done | apply trim_idempotent]. }
  pose proof (held_loop (splitIntoSentences text) emptyBuffer sentence
                (splitIntoSentences_shape text) Hn (or_intror Hs)) as Hh.
  unfold chunksOf.
  set (b := fold_left _ _ _) in *.
  destruct Hh as [(p & Hp & Hin) | Hin].
  - exists p. split; [|done].
    destruct (truthy _); [apply elem_of_app; by left | done].
  - destruct (truthy (trim (currentChunk b))) eqn:Ht.
    + exists (trim (currentChunk b)). split.
      * apply elem_of_app. right. by apply list_elem_of_singleton.
      * by apply infix_trim.
    + assert (trim (currentChunk b) = []) as Hnil
        by by destruct (trim (currentChunk b)).
      apply trim_empty_blank in Hnil.
      pose proof (infix_blank _ _ Hin Hnil) as Hb.
      by rewrite (neat_nonblank _ Hn) in Hb.
Qed.

End Held.

(** X5.  No sentence is lost: every sentence of the text, trimmed, occurs as it
    is in at least one of the passages that [chunkText] returns. *)
Theorem chunkText_keeps_sentences {num} (config : RagConfig num)
    (text : jsstring) (chunkSize overlap : option Z)
    (passages : list jsstring) :
  chunkText config text chunkSize overlap = Returned passages →
  ∀ sentence, sentence ∈ splitIntoSentences text →
    ∃ p pre post, p ∈ passages ∧ p = pre ++ trim sentence ++ post.
Proof.
  unfold chunkText.
  destruct (_ <=? 0)%Z; [done|]. destruct (_ >=? _)%Z; [done|].
  intros [= <-] sentence Hs.
  destruct (chunksOf_held (or_default chunkSize (Config.chunkSize config))
              (or_default overlap (Config.chunkOverlap config)) text
              sentence Hs) as (p & Hp & pre & post & Heq).
  by exists p, pre, post.
Qed.

(** ** An overlap size of 0 *)

Lemma findBreakPoint_zero (chunk : jsstring) (fuel : nat) :
  findBreakPoint chunk 0 0 fuel = 0%Z.
Proof.
  destruct fuel as [|fuel]; [done|]. cbn [findBreakPoint].
  change (0 >? 0)%Z with false. by rewrite andb_false_r.
Qed.

Lemma getOverlapText_zero (chunk : jsstring) : getOverlapText chunk 0 = chunk.
Proof.
  unfold getOverlapText. destruct (_ <=? 0)%Z; [done|].
  rewrite findBreakPoint_zero. unfold slice_from.
  destruct (Z.ltb_spec (- 0) 0); [lia|]. rewrite Z.min_l by lia.
  exact (drop_0 chunk).
Qed.

Section Accumulating.
Context (size : Z).

Lemma accumulating_emit (b : buffer) :
  accumulating b → adjacent prefix (b.(chunks) ++ [trim b.(currentChunk)]).
Proof.
  intros [Hadj Hlast]. apply adjacent_snoc; [done|]. intros p Hp.
  destruct (Hlast p Hp) as (buf & r & -> & -> & Hr).
  by apply trim_prefix_app.
Qed.

Lemma accumulating_addSentence (b : buffer) (s : jsstring) :
  accumulating b → sentenceLike s → accumulating (addSentence size 0 b s).
Proof.
  intros Hb (x & -> & Hx). unfold addSentence.
  assert (Hs : blank (x ++ [32%N]) = false) by by rewrite blank_app, Hx.
  destruct ((_ >? _)%Z && truthy (trim (currentChunk b))) eqn:Hc;
    unfold accumulating; cbn [flush chunks currentChunk currentSize].
  - split; [by apply accumulating_emit|]. intros p Hp.
    rewrite last_snoc in Hp. injection Hp as <-.
    exists (currentChunk b), (x ++ [32%N]).
    by rewrite getOverlapText_zero.
  - destruct Hb as [Hadj Hlast]. split; [done|]. intros p Hp.
    destruct (Hlast p Hp) as (buf & r & -> & -> & Hr).
    exists buf, (r ++ x ++ [32%N]). rewrite <- app_assoc.
    split; [done|]. split; [done|]. by rewrite blank_app, Hr.
Qed.

Lemma accumulating_loop (sentences : list jsstring) (b : buffer) :
  accumulating b → Forall sentenceLike sentences →
  accumulating (fold_left (addSentence size 0) sentences b).
Proof.
  intros Hb Hs. revert b Hb.
  induction Hs as [|s sentences Hs _ IH]; intros b Hb; [done|].
  cbn. by apply IH, accumulating_addSentence.
Qed.

Lemma chunksOf_accumulating (text : jsstring) :
  adjacent prefix (chunksOf size 0 text).
Proof.
  unfold chunksOf.
  assert (Hempty : accumulating emptyBuffer).
  { split; [by intros i p q | by intros p]. }
  pose proof (accumulating_loop (splitIntoSentences text) emptyBuffer Hempty
                (splitIntoSentences_sentences text)) as Hb.
  destruct (truthy _); [by apply accumulating_emit | apply Hb].
Qed.

End Accumulating.

(** X6.  With an overlap size of 0 the passages accumulate: [getOverlapText]
    hands the whole buffer over, so every passage starts with the whole
    of the passage before it, whatever the chunk size. *)
Theorem chunkText_zero_overlap_accumulates {num} (config : RagConfig num)
    (text : jsstring) (chunkSize overlap : option Z)
    (passages : list jsstring) :
  or_default overlap config.(Config.chunkOverlap) = 0%Z →
  chunkText config text chunkSize overlap = Returned passages →
  ∀ i p q, passages !! i = Some p → passages !! S i = Some q →
    p `prefix_of` q.
Proof.
  intros Hov. unfold chunkText. rewrite Hov.
  destruct (_ <=? 0)%Z; [done|]. destruct (_ >=? _)%Z; [done|].
  intros [= <-] i p q Hp Hq.
  by eapply (chunksOf_accumulating _ text i p q).
Qed.

(** ** No character is lost by the splitting *)

Lemma inked_app (a b : jsstring) : inked (a ++ b) = inked a ++ inked b.
Proof. apply List.filter_app. Qed.

Lemma inked_blank (s : jsstring) : blank s = true → inked s = [].
Proof.
  induction s as [|c s IH]; cbn; [done|].
  destruct (is_space c); cbn; [apply IH | done].
Qed.

Lemma inked_trimStart (s : jsstring) : inked (trimStart s) = inked s.
Proof.
  induction s as [|c s IH]; cbn; [done|].
  destruct (is_space c) eqn:Hc; cbn; [done|]. by rewrite Hc.
Qed.

Lemma inked_reverse (s : jsstring) : inked (reverse s) = reverse (inked s).
Proof.
  induction s as [|c s IH]; [done|].
  rewrite reverse_cons, inked_app, IH.
  change (c :: s) with ([c] ++ s). rewrite inked_app, reverse_app.
  f_equal. cbn. by destruct (is_space c).
Qed.

Lemma inked_trim (s : jsstring) : inked (trim s) = inked s.
Proof.
  unfold trim, trimEnd.
  by rewrite inked_reverse, inked_trimStart, inked_reverse,
    reverse_involutive, inked_trimStart.
Qed.

Lemma inked_split_from (s : jsstring) (st : scanner) (piece : jsstring) :
  inked (concat (split_from st piece s)) = inked piece ++ inked s.
Proof.
  revert st piece. induction s as [|c s IH]; intros st piece.
  { cbn. by rewrite !app_nil_r. }
  assert (Hstep : inked (concat (split_from (After c) (piece ++ [c]) s))
                  = inked piece ++ inked (c :: s)).
  { rewrite IH, inked_app, <- app_assoc. f_equal. cbn.
    by destruct (is_space c). }
  cbn [split_from]. destruct st as [|p|]; [done| |].
  - destruct (is_space c && is_terminal p) eqn:Hc; [|done].
    apply andb_true_iff in Hc as [Hc _].
    cbn [concat]. rewrite inked_app, IH. cbn. by rewrite Hc.
  - destruct (is_space c) eqn:Hc; [|done].
    rewrite IH. cbn. by rewrite Hc.
Qed.

(** X7.  [splitIntoSentences] only touches white space: the characters of the
    sentences that are not white space are those of the text, in the same
    order. *)
Theorem splitIntoSentences_keeps_text (text : jsstring) :
  inked (concat (splitIntoSentences text)) = inked text.
Proof.
  unfold splitIntoSentences, split_on_sentence_ends.
  pose proof (inked_split_from text AtStart []) as Hsplit.
  change (inked [] ++ inked text) with (inked text) in Hsplit.
  rewrite <- Hsplit. clear Hsplit.
  induction (split_from AtStart [] text) as [|piece pieces IH]; [done|].
  cbn [List.filter concat]. rewrite inked_app, <- IH.
  destruct (0 <? length (trim piece))%nat eqn:Hp.
  - rewrite fmap_cons. cbn [concat]. rewrite !inked_app, inked_trim.
    by rewrite <- app_assoc.
  - apply Nat.ltb_ge in Hp.
    assert (trim piece = []) as Hnil
      by (destruct (trim piece); [done | cbn in Hp; lia]).
    by rewrite <- (inked_trim piece), Hnil.
Qed.

End ChunkingFacts.


Module BufferFacts.
Import Chunker TrimFacts OverlapFacts ChunkingFacts.

(** ** The emitted buffers *)

Lemma addSentence_emits (size overlapSize : Z) (b : buffer) (s : jsstring) :
  currentChunk (addSentence size overlapSize b s)
  = (if emits size b s then getOverlapText (currentChunk b) overlapSize
     else currentChunk b) ++ s
  ∧ chunks (addSentence size overlapSize b s)
    = chunks b ++ (if emits size b s then [trim (currentChunk b)] else []).
Proof.
  unfold addSentence, emits.
  destruct ((_ >? _)%Z && truthy (trim (currentChunk b))); cbn.
  - done.
  - by rewrite app_nil_r.
Qed.

(** The passages are the emitted buffers, trimmed. *)
Lemma chunks_emittedFrom (size overlapSize : Z) (sentences : list jsstring)
    (b : buffer) :
  (let b' := fold_left (addSentence size overlapSize) sentences b in
   if truthy (trim (currentChunk b'))
   then chunks b' ++ [trim (currentChunk b')]
   else chunks b')
  = chunks b ++ (trim <$> emittedFrom size overlapSize b sentences).
Proof.
  cbn zeta. revert b. induction sentences as [|s sentences IH]; intros b.
  - cbn. destruct (truthy (trim (currentChunk b))); cbn; [done|].
    by rewrite app_nil_r.
  - cbn [fold_left emittedFrom]. rewrite IH.
    rewrite (proj2 (addSentence_emits size overlapSize b s)).
    rewrite fmap_app, app_assoc. by destruct (emits size b s).
Qed.

Lemma chunksOf_emitted (size overlapSize : Z) (text : jsstring) :
  chunksOf size overlapSize text = trim <$> emitted size overlapSize text.
Proof.
  unfold chunksOf, emitted.
  exact (chunks_emittedFrom size overlapSize (splitIntoSentences text)
           emptyBuffer).
Qed.

Lemma sentenceLike_nonblank (s : jsstring) (x : jsstring) :
  sentenceLike s → truthy (trim (x ++ s)) = true.
Proof.
  intros (y & -> & Hy).
  assert (Hb : blank (x ++ y ++ [32%N]) = false).
  { by rewrite !blank_app, Hy, andb_false_r. }
  apply trim_nonempty in Hb. by destruct (trim _).
Qed.

Lemma concat_sentences_blank (group : list jsstring) :
  Forall sentenceLike group → group ≠ [] → blank (concat group) = false.
Proof.
  intros Hg Hne. destruct Hg as [|s group (y & -> & Hy) _]; [done|].
  cbn. by rewrite !blank_app, Hy.
Qed.

Lemma concat_sentences_space (group : list jsstring) :
  Forall sentenceLike group → group ≠ [] →
  ∃ x, concat group = x ++ [32%N].
Proof.
  intros Hg Hne. induction Hg as [|s group (y & -> & Hy) Hg IH]; [done|].
  destruct group as [|s' group].
  - exists y. cbn. by rewrite app_nil_r.
  - destruct IH as [x Hx]; [done|]. exists ((y ++ [32%N]) ++ x).
    change (concat ((y ++ [32%N]) :: s' :: group))
      with ((y ++ [32%N]) ++ concat (s' :: group)).
    by rewrite Hx, app_assoc.
Qed.

(** The emitted buffers are made of groups of consecutive sentences, each
    after the first one seeded with the overlap text of the buffer before
    it. *)
Lemma emittedFrom_chained (size overlapSize : Z)
    (sentences : list jsstring) (b : buffer) :
  Forall sentenceLike sentences →
  ∃ groups : list (list jsstring),
    concat groups = sentences
    ∧ emittedFrom size overlapSize b sentences
      = Passages.chained overlapSize (currentChunk b) groups
    ∧ Forall (λ group, group ≠ []) (tail groups)
    ∧ (truthy (trim (currentChunk b)) = false →
       Forall (λ group, group ≠ []) groups).
Proof.
  intros Hs. revert b.
  induction Hs as [|s sentences Hs Hrest IH]; intros b.
  { cbn. destruct (truthy (trim (currentChunk b))) eqn:Ht.
    - exists [[]]. cbn. rewrite app_nil_r. repeat split; [constructor|done].
    - exists []. repeat split; constructor. }
  destruct (IH (addSentence size overlapSize b s))
    as (groups & Hconcat & Hemitted & Htail & _).
  pose proof (addSentence_emits size overlapSize b s) as [Hcur _].
  assert (Hnonblank :
    truthy (trim (currentChunk (addSentence size overlapSize b s))) = true).
  { rewrite Hcur. by apply sentenceLike_nonblank. }
  destruct groups as [|group groups].
  { exfalso. cbn in Hconcat. subst sentences.
    cbn [emittedFrom Passages.chained] in Hemitted.
    by rewrite Hnonblank in Hemitted. }
  cbn [emittedFrom]. rewrite Hemitted. cbn [tail] in Htail.
  destruct (emits size b s) eqn:He.
  - exists ([] :: (s :: group) :: groups).
    split; [cbn in *; by rewrite Hconcat|]. split.
    + cbn [Passages.chained concat app]. rewrite Hcur, !app_nil_r.
      change (concat (s :: group)) with (s ++ concat group).
      by rewrite app_assoc.
    + split; [by constructor|]. intros Ht.
      unfold emits in He. rewrite Ht, andb_false_r in He. done.
  - exists ((s :: group) :: groups).
    split; [cbn in *; by rewrite Hconcat|]. split.
    + cbn [Passages.chained concat app]. rewrite Hcur.
      change (concat (s :: group)) with (s ++ concat group).
      by rewrite app_assoc.
    + split; [done|]. intros _. by constructor.
Qed.

Lemma emitted_chained (size overlapSize : Z) (text : jsstring) :
  ∃ groups : list (list jsstring),
    concat groups = splitIntoSentences text
    ∧ Forall (λ group, group ≠ []) groups
    ∧ emitted size overlapSize text = Passages.chained overlapSize [] groups.
Proof.
  destruct (emittedFrom_chained size overlapSize (splitIntoSentences text)
              emptyBuffer (splitIntoSentences_sentences text))
    as (groups & Hconcat & Hemitted & _ & Hne).
  exists groups. split; [done|]. split; [by apply Hne | done].
Qed.

Lemma chained_length (overlapSize : Z) (groups : list (list jsstring))
    (start : jsstring) :
  length (Passages.chained overlapSize start groups) = length groups.
Proof.
  revert start. induction groups as [|group groups IH]; intros start;
    [done|].
  cbn. by rewrite IH.
Qed.

Lemma chained_at (overlapSize : Z) (groups : list (list jsstring))
    (start : jsstring) (i : nat) (group : list jsstring) :
  groups !! i = Some group →
  ∃ buf,
    Passages.chained overlapSize start groups !! i = Some buf
    ∧ buf = match i with
            | O => start
            | S j =>
                from_option (λ before, getOverlapText before overlapSize) []
                  (Passages.chained overlapSize start groups !! j)
            end ++ concat group.
Proof.
  revert start i. induction groups as [|g groups IH]; intros start i Hi;
    [done|].
  destruct i as [|i].
  - injection Hi as <-. by eexists.
  - cbn in Hi.
    destruct (IH (getOverlapText (start ++ concat g) overlapSize) i Hi)
      as (buf & Hbuf & Heq).
    exists buf. split; [done|]. rewrite Heq at 1. by destruct i.
Qed.

(** X1.  What the passages are made of.  The sentences of the text fall
    into consecutive groups, none of them empty, one for each passage.
    The buffer of the first passage is the first group; the buffer of
    every later passage is the overlap text that [getOverlapText] takes
    from the buffer before it, followed by its group; and the passages are
    these buffers, trimmed: no sentence is left out, none is taken twice
    as a new one, and their order is kept. *)
Theorem chunkText_buffers {num} (config : RagConfig num) (text : jsstring)
    (chunkSize overlap : option Z) (passages : list jsstring) :
  let size := or_default chunkSize config.(Config.chunkSize) in
  let overlapSize := or_default overlap config.(Config.chunkOverlap) in
  chunkText config text chunkSize overlap = Returned passages →
  ∃ groups : list (list jsstring),
    concat groups = splitIntoSentences text
    ∧ Forall (λ group, group ≠ []) groups
    ∧ length passages = length groups
    ∧ emitted size overlapSize text = Passages.chained overlapSize [] groups
    ∧ passages = trim <$> Passages.chained overlapSize [] groups
    ∧ ∀ i group, groups !! i = Some group →
        ∃ buf, emitted size overlapSize text !! i = Some buf
               ∧ passages !! i = Some (trim buf)
               ∧ buf = match i with
                       | O => []
                       | S j =>
                           from_option
                             (λ before, getOverlapText before overlapSize)
                             [] (emitted size overlapSize text !! j)
                       end ++ concat group.
Proof.
  cbn zeta. unfold chunkText.
  set (size := or_default chunkSize (Config.chunkSize config)).
  set (overlapSize := or_default overlap (Config.chunkOverlap config)).
  destruct (_ <=? 0)%Z; [done|]. destruct (_ >=? _)%Z; [done|].
  intros [= <-].
  destruct (emitted_chained size overlapSize text)
    as (groups & Hconcat & Hne & Hemitted).
  exists groups. rewrite chunksOf_emitted, Hemitted.
  split; [done|]. split; [done|].
  split; [by rewrite length_fmap, chained_length|].
  split; [done|]. split; [done|].
  intros i group Hi.
  destruct (chained_at overlapSize groups [] i group Hi) as (buf & Hbuf & Heq).
  exists buf. rewrite list_lookup_fmap, Hbuf. split; [done|]. split; [done|].
  rewrite Heq at 1. by destruct i.
Qed.

(** Two consecutive buffers of a chain. *)
Lemma chained_lookup (overlapSize : Z) (groups : list (list jsstring))
    (start : jsstring) (i : nat) (buf : jsstring) :
  Passages.chained overlapSize start groups !! i = Some buf →
  ∃ group before,
    groups !! i = Some group ∧ buf = before ++ concat group
    ∧ ∀ buf', Passages.chained overlapSize start groups !! S i = Some buf' →
        ∃ next, groups !! S i = Some next
                ∧ buf' = getOverlapText buf overlapSize ++ concat next.
Proof.
  revert start i. induction groups as [|group groups IH]; intros start i;
    [done|].
  destruct i as [|i]; cbn [Passages.chained lookup list_lookup].
  - intros [= <-]. exists group, start. split; [done|]. split; [done|].
    intros buf'. destruct groups as [|next groups]; [done|].
    cbn. intros [= <-]. by exists next.
  - intros Hi. destruct (IH _ _ Hi) as (g & before & Hg & Hbuf & Hnext).
    by exists g, before.
Qed.

(** What two consecutive emitted buffers have in common. *)
Lemma emitted_overlap (size overlapSize : Z) (text : jsstring) (i : nat)
    (buf buf' : jsstring) :
  emitted size overlapSize text !! i = Some buf →
  emitted size overlapSize text !! S i = Some buf' →
  (∃ r, buf' = getOverlapText buf overlapSize ++ r ∧ blank r = false)
  ∧ carried overlapSize buf `suffix_of` trim buf
  ∧ carried overlapSize buf `prefix_of` trim buf'
  ∧ ((1 ≤ overlapSize)%Z →
     (Z.of_nat (length (carried overlapSize buf)) ≤ overlapSize)%Z).
Proof.
  destruct (emitted_chained size overlapSize text)
    as (groups & Hconcat & Hne & ->).
  intros Hi Hsi.
  assert (Hsentences : ∀ group, group ∈ groups → Forall sentenceLike group).
  { intros group Hg. apply Forall_forall. intros s Hs.
    pose proof (splitIntoSentences_sentences text) as Hall.
    rewrite <- Hconcat in Hall. rewrite Forall_forall in Hall. apply Hall.
    apply list_elem_of_In, in_concat. exists group.
    split; by apply list_elem_of_In. }
  rewrite Forall_forall in Hne.
  destruct (chained_lookup _ _ _ _ _ Hi) as (group & before & Hg & Hbuf & Hn).
  destruct (Hn buf' Hsi) as (next & Hnext & Hbuf').
  apply list_elem_of_lookup_2 in Hg, Hnext.
  pose proof (concat_sentences_blank next (Hsentences _ Hnext)
                (Hne _ Hnext)) as Hblank.
  split; [by exists (concat next)|]. split.
  { apply trim_suffix, getOverlapText_suffix. }
  split.
  { rewrite Hbuf'. by apply trim_prefix_app. }
  intros Hov.
  destruct (concat_sentences_space group (Hsentences _ Hg) (Hne _ Hg))
    as [x Hx].
  rewrite Hbuf, Hx, app_assoc. by apply carried_length.
Qed.

(** C2.  The overlap between consecutive passages.  The passages are the
    buffers that the loop emits, trimmed.  For every two consecutive
    buffers [buf] and [buf'], which make the passages [p] and [q]: [buf']
    is the overlap text that [getOverlapText] takes from [buf], followed
    by further sentences; the overlap text, trimmed as the passages are,
    is a tail of [p] and a prefix of [q]; for an overlap size of at least
    1 it has at most [overlapSize] characters.  So, for every overlap size
    that is not negative, a tail of [p] of length at most [overlapSize] is
    a prefix of [q]: the text carried over, and for the overlap size 0,
    where the whole buffer is carried over, the empty tail. *)
Theorem chunkText_overlap {num} (config : RagConfig num) (text : jsstring)
    (chunkSize overlap : option Z) (passages : list jsstring) :
  let size := or_default chunkSize config.(Config.chunkSize) in
  let overlapSize := or_default overlap config.(Config.chunkOverlap) in
  chunkText config text chunkSize overlap = Returned passages →
  passages = trim <$> emitted size overlapSize text
  ∧ ∀ i buf buf',
      emitted size overlapSize text !! i = Some buf →
      emitted size overlapSize text !! S i = Some buf' →
      let p := trim buf in
      let q := trim buf' in
      let over := trim (getOverlapText buf overlapSize) in
      passages !! i = Some p ∧ passages !! S i = Some q
      ∧ (∃ r, buf' = getOverlapText buf overlapSize ++ r ∧ blank r = false)
      ∧ over `suffix_of` p
      ∧ over `prefix_of` q
      ∧ ((1 ≤ overlapSize)%Z → (Z.of_nat (length over) ≤ overlapSize)%Z)
      ∧ (overlapSize = 0%Z → over = p)
      ∧ ((0 ≤ overlapSize)%Z →
         ∃ t, t `suffix_of` p ∧ t `prefix_of` q
              ∧ (Z.of_nat (length t) ≤ overlapSize)%Z
              ∧ ((1 ≤ overlapSize)%Z → t = over)).
Proof.
  cbn zeta. unfold chunkText.
  set (size := or_default chunkSize (Config.chunkSize config)).
  set (overlapSize := or_default overlap (Config.chunkOverlap config)).
  destruct (_ <=? 0)%Z; [done|]. destruct (_ >=? _)%Z; [done|].
  intros [= <-]. split; [apply chunksOf_emitted|].
  intros i buf buf' Hi Hsi.
  destruct (emitted_overlap _ _ _ _ _ _ Hi Hsi)
    as (Hseed & Hsuffix & Hprefix & Hlength).
  rewrite chunksOf_emitted, !list_lookup_fmap, Hi, Hsi.
  split; [done|]. split; [done|]. split; [done|]. split; [done|].
  split; [done|]. split; [done|]. split.
  { intros Hz. by rewrite Hz, getOverlapText_zero. }
  intros Hov.
  destruct (decide (overlapSize = 0%Z)) as [Hz|Hnz].
  - exists []. split; [apply suffix_nil|]. split; [apply prefix_nil|].
    split; [cbn; lia | lia].
  - exists (trim (getOverlapText buf overlapSize)).
    split; [done|]. split; [done|]. split; [apply Hlength; lia | done].
Qed.

End BufferFacts.


Module HistoryFacts.
Import VectorDB VectorDBFacts JsonFacts StoreFacts History.

Section Generic.
Context {num : Type} `{!Number num} `{!FileSystem num}.
Implicit Types (db : VectorDb num) (disk : directory num) (st : state num).











(** The collections that [listCollections] names are those with
    statistics. *)
Lemma listCollections_elem db disk (c : jsstring) :
  c ∈ (listCollections db disk).1.1
  ↔ is_Some ((ensureInitialized db disk).1.(collections) !! c).
Proof.
  unfold listCollections. destruct (ensureInitialized db disk) as [db' disk'].
  cbn. rewrite list_elem_of_fmap. split.
  - intros ([c' docs] & -> & Hin). apply elem_of_map_to_list in Hin.
    by exists docs.
  - intros [docs Hdocs]. exists (c, docs). split; [done|].
    by apply elem_of_map_to_list.
Qed.

Lemma getCollectionStats_lookup db disk (c : jsstring) :
  (getCollectionStats db disk c).1.1
  = (λ docs, (c, length docs))
      <$> (ensureInitialized db disk).1.(collections) !! c.
Proof.
  unfold getCollectionStats. by destruct (ensureInitialized db disk).
Qed.

(** X9.  What [listCollections] and [getCollectionStats] report follows the
    calls of [addDocuments] and [deleteCollection].  After [addDocuments]
    the collection is listed and its count has grown by the number of
    passages (from 0 when the collection is new, and also when no passage
    is given); after [deleteCollection] it is not listed and has no
    statistics; the reports on every other collection are as before. *)
Theorem reports_follow_updates db disk (c : jsstring)
    (chunks : list DocumentChunk) (embeddings : list (list num)) :
  let added := addDocuments db disk c chunks embeddings in
  let deleted := deleteCollection db disk c in
  let count (r : option (jsstring * nat)) := default 0 (snd <$> r) in
  ((getCollectionStats added.1.2 added.2 c).1.1
     = Some (c, count (getCollectionStats db disk c).1.1 + length chunks)
   ∧ c ∈ (listCollections added.1.2 added.2).1.1)
  ∧ ((getCollectionStats deleted.1.2 deleted.2 c).1.1 = None
     ∧ c ∉ (listCollections deleted.1.2 deleted.2).1.1)
  ∧ (∀ c', c' ≠ c →
       (getCollectionStats added.1.2 added.2 c').1.1
         = (getCollectionStats db disk c').1.1
       ∧ (getCollectionStats deleted.1.2 deleted.2 c').1.1
         = (getCollectionStats db disk c').1.1
       ∧ (c' ∈ (listCollections added.1.2 added.2).1.1
          ↔ c' ∈ (listCollections db disk).1.1)
       ∧ (c' ∈ (listCollections deleted.1.2 deleted.2).1.1
          ↔ c' ∈ (listCollections db disk).1.1)).
Proof.
  cbn zeta.
  assert (Hadd : ∀ c',
    (ensureInitialized (addDocuments db disk c chunks embeddings).1.2
       (addDocuments db disk c chunks embeddings).2).1.(collections) !! c'
    = if decide (c' = c)
      then Some (default [] ((ensureInitialized db disk).1.(collections) !! c)
                 ++ newDocuments chunks embeddings)
      else (ensureInitialized db disk).1.(collections) !! c').
  { intros c'. unfold addDocuments.
    pose proof (ensureInitialized_initialized db disk) as Hi.
    destruct (ensureInitialized db disk) as [db' disk'].
    cbn [fst snd] in *. rewrite ensureInitialized_done by done.
    cbn [fst collections].
    destruct (decide (c' = c)) as [->|Hne];
      [by rewrite lookup_insert_eq | by rewrite lookup_insert_ne]. }
  assert (Hdel : ∀ c',
    (ensureInitialized (deleteCollection db disk c).1.2
       (deleteCollection db disk c).2).1.(collections) !! c'
    = if decide (c' = c) then None
      else (ensureInitialized db disk).1.(collections) !! c').
  { intros c'. unfold deleteCollection.
    pose proof (ensureInitialized_initialized db disk) as Hi.
    destruct (ensureInitialized db disk) as [db' disk'].
    cbn [fst snd] in *. rewrite ensureInitialized_done by done.
    cbn [fst collections].
    destruct (decide (c' = c)) as [->|Hne];
      [by rewrite lookup_delete_eq | by rewrite lookup_delete_ne]. }
  rewrite !getCollectionStats_lookup. split; [|split].
  - rewrite listCollections_elem, Hadd, decide_True by done. split; [|done].
    cbn. rewrite length_app.
    unfold newDocuments. rewrite length_imap.
    by destruct (collections (ensureInitialized db disk).1 !! c).
  - rewrite listCollections_elem, Hdel, decide_True by done.
    split; [done|]. by intros [? ?].
  - intros c' Hne. rewrite !getCollectionStats_lookup, !listCollections_elem.
    by rewrite Hadd, Hdel, !decide_False by done.
Qed.

(** X10.  The number of results of [search]: with [n] the number of records of
    the collection, [min(limit, n)] for a limit that is not negative, and
    [max(n + limit, 0)] for a negative one, which [slice] counts from the
    end. *)
Theorem search_result_count (config : RagConfig num) db disk (c : jsstring)
    (q : list num) (limit : option Z)
    (collection : list (StoredDocument num))
    (results : list (SearchResult num)) :
  let n := Z.of_nat (length collection) in
  let k := limitOf config limit in
  (ensureInitialized db disk).1.(collections) !! c = Some collection →
  (search config db disk c q limit).1.1 = Returned results →
  Z.of_nat (length results)
  = if (k <? 0)%Z then Z.max (n + k) 0 else Z.min k n.
Proof.
  cbn zeta. intros Hc. unfold search.
  destruct (ensureInitialized db disk) as [db' disk']. cbn [fst] in Hc.
  rewrite Hc. destruct (Nat.eqb_spec (length collection) 0) as [H0|H0].
  { cbn. intros [= <-]. rewrite H0. cbn.
    destruct (Z.ltb_spec (limitOf config limit) 0); lia. }
  destruct (similaritiesOf q collection) as [similarities|] eqn:Hs; [|done].
  cbn. intros [= <-]. rewrite length_fmap.
  apply length_mapM in Hs.
  unfold slice_to. rewrite length_take.
  rewrite (Permutation_length (SortFacts.sort_perm comesAfter similarities)).
  rewrite <- Hs.
  destruct (Z.ltb_spec (limitOf config limit) 0); lia.
Qed.

End Generic.
End HistoryFacts.


Module ReloadFacts.
Import VectorDB VectorDBFacts JsonFacts StoreFacts Reloading.

Section Generic.
Context {num : Type} `{!Number num} `{!FileSystem num}.
Implicit Types (db : VectorDb num) (disk : directory num).






End Generic.
End ReloadFacts.


Module GeometryFacts.
Import VectorDB CosineFacts.

(** The product of two doubles does not depend on their order. *)
Lemma SFmul_comm (prec emax : Z) (x y : spec_float) :
  SFmul prec emax x y = SFmul prec emax y x.
Proof.
  destruct x as [sx|sx| |sx mx ex], y as [sy|sy| |sy my ey]; cbn;
    try reflexivity; try (by rewrite xorb_comm).
  by rewrite xorb_comm, Pos.mul_comm, Z.add_comm.
Qed.

Lemma mul_comm (x y : float) : (x * y)%float = (y * x)%float.
Proof. apply Prim2SF_inj. rewrite !mul_spec. apply SFmul_comm. Qed.

Section Symmetric.
Context {num : Type} `{!Number num}.
Hypothesis num_mul_comm : ∀ x y : num, num_mul x y = num_mul y x.

Lemma dotProduct_comm (a b : list num) : dotProduct a b = dotProduct b a.
Proof using num_mul_comm.
  unfold dotProduct. generalize (num_zero : num). revert b.
  induction a as [|x a IH]; intros [|y b] acc; cbn; try done.
  rewrite (num_mul_comm x y). apply IH.
Qed.

Lemma cosineSimilarity_comm (a b : list num) :
  cosineSimilarity a b = cosineSimilarity b a.
Proof using num_mul_comm.
  rewrite !cosineSimilarity_cases. rewrite (Nat.eqb_sym (length b)).
  destruct (length a =? length b)%nat; cbn [negb]; [|done].
  rewrite (dotProduct_comm b a), (orb_comm (num_eqb (squaredNorm b) _)).
  by rewrite (num_mul_comm (num_sqrt (squaredNorm b))).
Qed.

End Symmetric.

(** X12.  The cosine similarity of doubles.  It is symmetric: the score of
    [a] against [b] is, bit for bit, the score of [b] against [a].  The
    score of a vector against itself is [n / (sqrt n * sqrt n)] for its
    squared norm [n] as computed (0 when [n] is 0), which rounding can
    leave below 1, as it does for [(1, 1)]; and the score of two parallel
    vectors can exceed 1, as it does for [(0.6, 0.8)] and
    [(1.2375, 1.65)]. *)
Theorem cosineSimilarity_symmetric :
  (∀ a b : list float, cosineSimilarity a b = cosineSimilarity b a)
  ∧ (∀ a : list float,
       cosineSimilarity a a
       = if PrimFloat.eqb (squaredNorm a) 0 then 0%float
         else (squaredNorm a
               / (PrimFloat.sqrt (squaredNorm a)
                  * PrimFloat.sqrt (squaredNorm a)))%float)
  ∧ cosineSimilarity [1; 1]%float [1; 1]%float = 0x1.ffffffffffffep-1%float
  ∧ cosineSimilarity [0x1.3333333333333p-1; 0x1.999999999999ap-1]%float
      [0x1.3cccccccccccdp+0; 0x1.a666666666667p+0]%float
    = 0x1.0000000000001p+0%float.
Proof.
  split; [|split; [|split]].
  - apply cosineSimilarity_comm. apply mul_comm.
  - intros a. rewrite cosineSimilarity_self. reflexivity.
  - vm_compute. reflexivity.
  - vm_compute. reflexivity.
Qed.

End GeometryFacts.


Module HashFacts.
Import Cache Hashing.
Local Open Scope Z_scope.

Lemma toInt32_range (z : Z) : - 2 ^ 31 ≤ toInt32 z < 2 ^ 31.
Proof.
  unfold toInt32. pose proof (Z.mod_pos_bound (z + 2 ^ 31) (2 ^ 32)). lia.
Qed.

Lemma toInt32_mod (z : Z) : toInt32 z mod 2 ^ 32 = z mod 2 ^ 32.
Proof.
  unfold toInt32.
  rewrite Zminus_mod, Zmod_mod, <- Zminus_mod. f_equal. lia.
Qed.

Lemma toInt32_congruent (a b : Z) :
  a mod 2 ^ 32 = b mod 2 ^ 32 → toInt32 a = toInt32 b.
Proof.
  intros Hab. unfold toInt32.
  by rewrite (Zplus_mod a), Hab, <- Zplus_mod.
Qed.

Lemma toInt32_fixed (z : Z) : - 2 ^ 31 ≤ z < 2 ^ 31 → toInt32 z = z.
Proof. intros Hz. unfold toInt32. rewrite Z.mod_small; lia. Qed.

Lemma hashStep_mod (h h' : Z) (c : N) :
  h mod 2 ^ 32 = h' mod 2 ^ 32 →
  hashStep h c mod 2 ^ 32 = (31 * h' + Z.of_N c) mod 2 ^ 32.
Proof.
  intros Hh. unfold hashStep. rewrite toInt32_mod.
  rewrite Zplus_mod, Zminus_mod, toInt32_mod.
  rewrite (Zmult_mod h 32), Hh, <- Zmult_mod, <- Zminus_mod, <- Zplus_mod.
  f_equal. lia.
Qed.

Lemma fold_hashStep_mod (str : jsstring) (h h' : Z) :
  h mod 2 ^ 32 = h' mod 2 ^ 32 →
  fold_left hashStep str h mod 2 ^ 32 = polynomial31 h' str mod 2 ^ 32.
Proof.
  revert h h'. induction str as [|c str IH]; intros h h' Hh; [done|].
  cbn. apply IH. by apply hashStep_mod.
Qed.

Lemma signedHash_range (str : jsstring) :
  - 2 ^ 31 ≤ signedHash str < 2 ^ 31.
Proof.
  unfold signedHash.
  destruct str as [|c str _] using rev_ind; [cbn; lia|].
  rewrite fold_left_app. cbn. apply toInt32_range.
Qed.

Lemma signedHash_polynomial (str : jsstring) :
  signedHash str = toInt32 (polynomial31 0 str).
Proof.
  rewrite <- (toInt32_fixed (signedHash str)) by apply signedHash_range.
  apply toInt32_congruent. by apply fold_hashStep_mod.
Qed.

(** X13.  [hashString] is the string hash of Java in absolute value: the
    polynomial [s[0]*31^(n-1) + ... + s[n-1]] in the code units, wrapped
    to a signed 32-bit integer, without its sign.  The value lies between
    0 and 2^31. *)
Theorem hashString_polynomial (str : jsstring) :
  hashString str = Z.abs (toInt32 (polynomial31 0 str))
  ∧ 0 ≤ hashString str ≤ 2 ^ 31.
Proof.
  unfold hashString. fold (signedHash str).
  pose proof (signedHash_range str). split; [|lia].
  by rewrite signedHash_polynomial.
Qed.

Lemma polynomial31_app (h : Z) (a b : jsstring) :
  polynomial31 h (a ++ b) = polynomial31 (polynomial31 h a) b.
Proof. apply fold_left_app. Qed.

Lemma polynomial31_from (h : Z) (a : jsstring) :
  polynomial31 h a = h * 31 ^ Z.of_nat (length a) + polynomial31 0 a.
Proof.
  revert h. induction a as [|c a IH]; intros h; [cbn; lia|].
  cbn [polynomial31 fold_left length].
  fold (polynomial31 (31 * h + Z.of_N c) a).
  fold (polynomial31 (31 * 0 + Z.of_N c) a).
  rewrite (IH (31 * h + Z.of_N c)), (IH (31 * 0 + Z.of_N c)).
  rewrite Nat2Z.inj_succ, Z.pow_succ_r by lia. lia.
Qed.

Lemma polynomial31_mod (h h' : Z) (a : jsstring) :
  h mod 2 ^ 32 = h' mod 2 ^ 32 →
  polynomial31 h a mod 2 ^ 32 = polynomial31 h' a mod 2 ^ 32.
Proof.
  intros Hh. rewrite (polynomial31_from h), (polynomial31_from h').
  rewrite Zplus_mod, Zmult_mod, Hh, <- Zmult_mod, <- Zplus_mod. done.
Qed.

(** X14.  Collisions of [hashString] spread: when two strings of the same length
    leave the loop of [hashString] with the same value, so do the two
    strings that any text before them and any text after them make of
    them.  The keys of the cache are such hashes. *)
Theorem hashString_collisions_spread (a b : jsstring) :
  length a = length b →
  signedHash a = signedHash b →
  ∀ pre post : jsstring,
    hashString (pre ++ a ++ post) = hashString (pre ++ b ++ post).
Proof.
  intros Hlen Hab pre post. unfold hashString.
  fold (signedHash (pre ++ a ++ post)) (signedHash (pre ++ b ++ post)).
  f_equal. rewrite !signedHash_polynomial. apply toInt32_congruent.
  rewrite !polynomial31_app. apply polynomial31_mod.
  rewrite (polynomial31_from _ a), (polynomial31_from _ b), Hlen.
  rewrite !signedHash_polynomial in Hab.
  rewrite Zplus_mod, (Zplus_mod _ (polynomial31 0 b)).
  rewrite <- (toInt32_mod (polynomial31 0 a)), Hab, toInt32_mod. done.
Qed.

End HashFacts.


Module EmbeddingsMore.
Import Cache Embeddings EmbeddingsFacts.

Section Generic.
Context {num : Type}.
Implicit Types (cache seen : Cache.t num) (text : jsstring)
  (texts rest batch : list jsstring) (extract : extractor num).

(** ** One text *)

Lemma getEmbedding_same_hash cache text text' :
  hashString text' = hashString text →
  getEmbedding cache text' = getEmbedding cache text.
Proof. intros Hh. unfold getEmbedding. by rewrite Hh. Qed.

Lemma generateQueryEmbedding_hit (pipeline : option (extractor num))
    (s : service num) cache text (v : list num) :
  s.(initialized) = true → is_Some s.(the_extractor) →
  getEmbedding cache text = Some v →
  generateQueryEmbedding pipeline s cache text = (Returned v, s, cache).
Proof.
  intros Hi [extract He] Hv. unfold generateQueryEmbedding, ensureInitialized.
  rewrite Hi. cbn [negb]. rewrite He.
  unfold embedding_for, write_back. by rewrite Hv.
Qed.

(** X15.  Once [generateQueryEmbedding] has returned a vector for a text, the
    cache holds it, and every later call for that text, or for a text with
    the same hash, returns the same vector from the cache: the model is
    not asked again (whatever model the service then holds), and the cache
    and the service stay as they are. *)
Theorem generateQueryEmbedding_repeats (pipeline : option (extractor num))
    (s s' : service num) cache cache' text (v : list num) :
  generateQueryEmbedding pipeline s cache text = (Returned v, s', cache') →
  getEmbedding cache' text = Some v
  ∧ ∀ (pipeline2 : option (extractor num)) (s2 : service num) text2,
      s2.(initialized) = true → is_Some s2.(the_extractor) →
      hashString text2 = hashString text →
      generateQueryEmbedding pipeline2 s2 cache' text2
      = (Returned v, s2, cache').
Proof.
  intros Hq.
  assert (Hv : getEmbedding cache' text = Some v).
  { unfold generateQueryEmbedding in Hq.
    destruct (ensureInitialized pipeline s) as [[[]|err] s0]; [|done].
    destruct (the_extractor s0) as [extract|]; [|done].
    unfold embedding_for, write_back in Hq.
    destruct (getEmbedding cache text) as [e|] eqn:Hc.
    - by injection Hq as <- <- <-.
    - destruct (extract text) as [e|]; [|done].
      injection Hq as <- <- <-. rewrite getEmbedding_set.
      by rewrite decide_True. }
  split; [done|]. intros pipeline2 s2 text2 Hi He Hh.
  apply generateQueryEmbedding_hit; [done..|].
  by rewrite (getEmbedding_same_hash _ text).
Qed.

(** ** The cache is only added to *)

Lemma write_back_searchResults extract seen cache text :
  (write_back extract seen cache text).(searchResults)
  = cache.(searchResults).
Proof.
  unfold write_back. destruct (getEmbedding seen text); [done|].
  by destruct (extract text).
Qed.

Lemma write_backs_searchResults extract seen cache batch :
  (fold_left (write_back extract seen) batch cache).(searchResults)
  = cache.(searchResults).
Proof.
  revert cache. induction batch as [|t batch IH]; intros cache; [done|].
  cbn. by rewrite IH, write_back_searchResults.
Qed.

Lemma processBatches_searchResults extract (fuel : nat) cache rest
    (acc : list (list num)) :
  (processBatches fuel extract cache rest acc).2.(searchResults)
  = cache.(searchResults).
Proof.
  revert cache rest acc.
  induction fuel as [|fuel IH]; intros cache rest acc; [done|].
  cbn [processBatches]. destruct rest as [|t rest]; [done|].
  unfold processBatch.
  destruct (mapM _ _); cbn [snd];
    [rewrite IH|]; apply write_backs_searchResults.
Qed.

(** X16.  [generateEmbeddings] only adds to the cache, whether it returns or
    throws: a vector that the cache holds for a text before the call is
    still what it holds for that text afterwards, and the cached query
    responses are untouched. *)
Theorem generateEmbeddings_keeps_cache (pipeline : option (extractor num))
    (s : service num) cache texts :
  let after := (generateEmbeddings pipeline s cache texts).2 in
  (∀ text (v : list num),
      getEmbedding cache text = Some v → getEmbedding after text = Some v)
  ∧ after.(searchResults) = cache.(searchResults).
Proof.
  cbn zeta. unfold generateEmbeddings.
  destruct (ensureInitialized pipeline s) as [[[]|err] s0]; [|done].
  destruct (the_extractor s0) as [extract|]; [|done].
  pose proof (run_keeps extract cache texts) as Hkeep.
  pose proof (processBatches_searchResults extract (length texts) cache
                texts []) as Hsr.
  unfold run in Hkeep.
  destruct (processBatches (length texts) extract cache texts [])
    as [result cache']. cbn [snd] in *. split; [|done].
  intros text v. apply Hkeep.
Qed.

(** ** A text that the model rejects *)

Section Rejected.
Context (extract : extractor num) (text : jsstring) (texts : list jsstring).
Hypothesis rejected :
  ∀ t, t ∈ texts → hashString t = hashString text → extract t = None.

Lemma write_back_absent seen cache t :
  t ∈ texts → getEmbedding cache text = None →
  getEmbedding (write_back extract seen cache t) text = None.
Proof using rejected.
  intros Ht Hc. unfold write_back. destruct (getEmbedding seen t); [done|].
  destruct (extract t) as [e|] eqn:He; [|done].
  rewrite getEmbedding_set. case_decide as Hh; [|done].
  by rewrite (rejected t Ht Hh) in He.
Qed.

Lemma write_backs_absent seen cache batch :
  (∀ t, t ∈ batch → t ∈ texts) → getEmbedding cache text = None →
  getEmbedding (fold_left (write_back extract seen) batch cache) text = None.
Proof using rejected.
  revert cache. induction batch as [|t batch IH]; intros cache Hsub Hc;
    [done|].
  cbn. apply IH.
  - intros t' Ht'. apply Hsub. by right.
  - apply write_back_absent; [|done]. apply Hsub. by left.
Qed.

Lemma run_rejected cache texts' :
  (∀ t, t ∈ texts' → t ∈ texts) → text ∈ texts' →
  getEmbedding cache text = None →
  (run extract cache texts').1 = Thrown EmbeddingsFailed.
Proof using rejected.
  remember (length texts') as n eqn:Hn. revert cache texts' Hn.
  induction n as [n IH] using lt_wf_ind.
  intros cache texts' Hn Hsub Hin Hc.
  assert (Hne : texts' ≠ []) by (intros ->; by apply elem_of_nil in Hin).
  rewrite run_unfold by done.
  destruct (processBatch extract cache (take BATCH_SIZE texts'))
    as [[bes|] c1] eqn:Hb; [|done].
  assert (Hc1 : getEmbedding c1 text = None).
  { replace c1 with (processBatch extract cache (take BATCH_SIZE texts')).2
      by by rewrite Hb.
    apply write_backs_absent; [|done].
    intros t Ht. apply Hsub. by eapply subseteq_take. }
  assert (Hrest : text ∈ drop BATCH_SIZE texts').
  { rewrite <- (take_drop BATCH_SIZE texts') in Hin.
    apply elem_of_app in Hin as [Hin|Hin]; [|done].
    apply list_elem_of_lookup in Hin as [i Hi].
    destruct (processBatch_Some extract cache (take BATCH_SIZE texts') bes)
      as [Hlen Hbes].
    { by rewrite Hb. }
    pose proof (Hbes i text Hi) as Hv.
    pose proof (lookup_lt_Some _ _ _ Hi) as Hlt. rewrite <- Hlen in Hlt.
    apply lookup_lt_is_Some in Hlt as [v Hv']. rewrite Hv' in Hv.
    unfold embedding_for in Hv. rewrite Hc in Hv.
    rewrite (rejected text) in Hv; [done| |done].
    apply Hsub. rewrite <- (take_drop BATCH_SIZE texts').
    apply elem_of_app. left. by eapply list_elem_of_lookup_2. }
  assert (Hlt : length (drop BATCH_SIZE texts') < n).
  { subst n. rewrite length_drop. destruct texts'; [done|].
    cbn. unfold BATCH_SIZE. lia. }
  cbn [fst].
  rewrite (IH _ Hlt c1 (drop BATCH_SIZE texts') eq_refl); [done| |done..].
  intros t Ht. apply Hsub. by eapply subseteq_drop.
Qed.

End Rejected.

(** X17.  All or nothing: when the model rejects one of the texts, and neither
    the cache nor another text of the call provides a vector under the
    hash of that text, [generateEmbeddings] throws and returns no vector
    at all. *)
Theorem generateEmbeddings_rejected (pipeline : option (extractor num))
    (s : service num) cache texts extract text :
  (ensureInitialized pipeline s).1 = Returned () →
  (ensureInitialized pipeline s).2.(the_extractor) = Some extract →
  text ∈ texts →
  getEmbedding cache text = None →
  (∀ t, t ∈ texts → hashString t = hashString text → extract t = None) →
  (generateEmbeddings pipeline s cache texts).1.1 = Thrown EmbeddingsFailed.
Proof.
  intros Hinit Hext Hin Hc Hrej. unfold generateEmbeddings.
  destruct (ensureInitialized pipeline s) as [[[]|err] s0]; [|done].
  cbn [fst snd] in *. rewrite Hext.
  pose proof (run_rejected extract text texts Hrej cache texts
                (λ t Ht, Ht) Hin Hc) as Hrun.
  unfold run in Hrun.
  by destruct (processBatches (length texts) extract cache texts []).
Qed.

(** ** The vectors of the texts of a call, asked for again *)

Lemma generateEmbeddings_service (pipeline : option (extractor num))
    (s s' : service num) cache cache' texts (out : list (list num)) :
  generateEmbeddings pipeline s cache texts = (Returned out, s', cache') →
  s'.(initialized) = true
  ∧ ∃ extract, s'.(the_extractor) = Some extract
               ∧ run extract cache texts = (Returned out, cache').
Proof.
  unfold generateEmbeddings.
  destruct (ensureInitialized pipeline s) as [[[]|err] s0] eqn:Hs; [|done].
  destruct (the_extractor s0) as [extract|] eqn:He; [|done].
  fold (run extract cache texts).
  destruct (run extract cache texts) as [r c1] eqn:Hrun.
  intros [= -> <- <-]. split.
  - unfold ensureInitialized, initialize in Hs.
    destruct (initialized s) eqn:Hi; cbn [negb] in Hs.
    + by injection Hs as <-.
    + destruct pipeline; [|done]. by injection Hs as <-.
  - by exists extract.
Qed.

Lemma run_cached extract cache cache' texts (out : list (list num)) :
  run extract cache texts = (Returned out, cache') →
  collisionFree texts →
  length out = length texts
  ∧ ∀ i text, texts !! i = Some text →
      ∃ v, out !! i = Some v ∧ getEmbedding cache' text = Some v.
Proof.
  intros Hrun Hfree.
  destruct (run_Returned extract cache texts out cache' Hrun) as [Hlen Hat].
  split; [done|]. intros i text Hi.
  assert (Hin : text ∈ texts) by by eapply list_elem_of_lookup_2.
  assert (H0 : agrees extract texts cache cache) by (intros t _; by left).
  assert (Hout : out !! i = embedding_for extract cache text).
  { rewrite (Hat i text Hi). apply (embedding_for_agrees extract texts);
      [|done]. unfold cacheBefore.
    apply run_agrees; [done| |done]. intros x Hx. by eapply subseteq_take. }
  pose proof (run_agrees extract texts cache cache texts Hfree
                (λ x Hx, Hx) H0 text Hin) as Hag.
  rewrite Hrun in Hag. cbn [snd] in Hag.
  destruct (run_written extract cache texts out cache' Hrun text Hin)
    as [v Hv].
  exists v. split; [|done]. rewrite Hout. unfold embedding_for.
  destruct Hag as [Heq|[Hnone Hnew]].
  - by rewrite <- Heq, Hv.
  - by rewrite Hnone, <- Hnew.
Qed.

End Generic.
End EmbeddingsMore.


Module QueryFacts.
Import Rag RagFacts Indexing.

Section Query.
Context {num : Type} `{!Number num}.
Context (pipeline : option (Embeddings.extractor num)).
Context (config : RagConfig num).

Lemma ensureInitialized_ready (w : world num) :
  w.(rag).(initialized) = true →
  ensureInitialized pipeline w = (Returned (), w).
Proof. intros Hi. unfold ensureInitialized. by rewrite Hi. Qed.

Lemma query_caches (w w1 : world num) (request : QueryRequest num)
    (response : QueryResponse num) :
  query pipeline config w request = (Returned response, w1) →
  Cache.getSearchResult w1.(cache) request.(question) request.(collection)
  = Some response.
Proof.
  unfold query.
  destruct (ensureInitialized pipeline w) as [[[]|err] w0]; [|done].
  destruct (Cache.getSearchResult _ _ _) as [cached|] eqn:Hc.
  { by intros [= <- <-]. }
  destruct (Embeddings.generateQueryEmbedding _ _ _ _) as [[[qe|err] e] c1];
    [|done].
  destruct (VectorDB.search _ _ _ _ _ _) as [[[found|err] db] d1]; [|done].
  intros [= <- <-]. unfold Cache.getSearchResult, Cache.setSearchResult.
  cbn. by rewrite lookup_insert_eq.
Qed.

(** X18.  The answer to a question sticks.  Once [query] has returned a response
    for a question and a collection, every later request for that
    collection with that question, or with a question of the same hash,
    is answered with the same response as long as the cache keeps its
    entries: whatever limit and threshold the request has, and whatever
    has been added to or deleted from the store in the meantime. *)
Theorem query_answer_sticks (w w1 : world num) (request : QueryRequest num)
    (response : QueryResponse num) :
  query pipeline config w request = (Returned response, w1) →
  ∀ (w2 : world num) (request2 : QueryRequest num),
    w2.(rag).(initialized) = true →
    w2.(cache) = w1.(cache) →
    request2.(collection) = request.(collection) →
    Cache.hashString request2.(question) = Cache.hashString request.(question) →
    query pipeline config w2 request2 = (Returned response, w2).
Proof.
  intros Hq w2 request2 Hi Hcache Hc Hh.
  apply query_caches in Hq.
  apply query_cached; [by apply ensureInitialized_ready|].
  rewrite Hcache, Hc. unfold Cache.getSearchResult in *. by rewrite Hh.
Qed.

(** X19.  Asking a collection that does not exist, or that is empty, is not an
    error: for a question that is not cached and that the model embeds,
    [query] returns the sentence [noContent] as its answer, with no
    source. *)
Theorem query_without_documents (w w0 : world num)
    (request : QueryRequest num) (queryEmbedding : list num) :
  ensureInitialized pipeline w = (Returned (), w0) →
  Cache.getSearchResult w0.(cache) request.(question) request.(collection)
    = None →
  (Embeddings.generateQueryEmbedding pipeline w0.(rag).(embeddings)
     w0.(cache) request.(question)).1.1 = Returned queryEmbedding →
  (VectorDB.ensureInitialized w0.(rag).(vectorDb) w0.(disk)).1.(collections)
     !! request.(collection) = None
  ∨ (VectorDB.ensureInitialized w0.(rag).(vectorDb) w0.(disk)).1.(collections)
     !! request.(collection) = Some [] →
  (query pipeline config w request).1
  = Returned {| answer := noContent; sources := [] |}.
Proof.
  intros Hi Hc He Hs. unfold query. rewrite Hi, Hc.
  destruct (Embeddings.generateQueryEmbedding _ _ _ _) as [[embedded e] c1].
  cbn in He. subst embedded. unfold VectorDB.search.
  destruct (VectorDB.ensureInitialized _ _) as [db d1]. cbn [fst] in Hs.
  by destruct Hs as [-> | ->].
Qed.

End Query.

End QueryFacts.


Module QueryErrors.
Import Rag RagFacts EmbeddingsMore.

Section Query.
Context {num : Type} `{!Number num}.
Context (pipeline : option (Embeddings.extractor num)).
Context (config : RagConfig num).

Lemma generateQueryEmbedding_searchResults (s : Embeddings.service num)
    (c0 : Cache.t num) (text : jsstring) :
  (Embeddings.generateQueryEmbedding pipeline s c0 text).2.(Cache.searchResults)
  = c0.(Cache.searchResults).
Proof.
  unfold Embeddings.generateQueryEmbedding.
  destruct (Embeddings.ensureInitialized pipeline s) as [[[]|err] s0];
    [|done].
  destruct (Embeddings.the_extractor s0) as [extract|]; [|done].
  destruct (Embeddings.embedding_for extract c0 text); [|done].
  apply write_back_searchResults.
Qed.

Lemma similaritiesOf_None (q : list num) (docs : list (StoredDocument num))
    (doc : StoredDocument num) :
  doc ∈ docs → doc.(doc_embedding) = None →
  VectorDB.similaritiesOf q docs = None.
Proof.
  intros Hin Hnone. unfold VectorDB.similaritiesOf.
  destruct (mapM _ docs) as [scored|] eqn:Hm; [|done].
  apply mapM_Some in Hm.
  apply list_elem_of_lookup in Hin as [i Hi].
  destruct (Forall2_lookup_l _ _ _ _ _ Hm Hi) as (y & _ & Hy).
  by rewrite Hnone in Hy.
Qed.

(** X20.  The ways in which [query] fails.  When the model does not load,
    [query] throws the error of the initialisation and leaves everything
    as it is.  When the model rejects a question for which neither a
    response nor a vector is cached, and when a record of the collection
    holds no vector, it throws a 'Query failed' error and caches no
    response. *)
Theorem query_errors (w : world num) (request : QueryRequest num) :
  (pipeline = None →
   w.(rag).(initialized) = false →
   w.(rag).(embeddings).(Embeddings.initialized) = false →
   query pipeline config w request
   = (Thrown (InitializationFailed ModelInitFailed), w))
  ∧ (∀ (w0 : world num) (extract : Embeddings.extractor num),
       ensureInitialized pipeline w = (Returned (), w0) →
       Cache.getSearchResult w0.(cache) request.(question)
         request.(collection) = None →
       w0.(rag).(embeddings).(Embeddings.initialized) = true →
       w0.(rag).(embeddings).(Embeddings.the_extractor) = Some extract →
       Cache.getEmbedding w0.(cache) request.(question) = None →
       extract request.(question) = None →
       (query pipeline config w request).1
       = Thrown (QueryFailed QueryEmbeddingFailed)
       ∧ (query pipeline config w request).2.(cache) = w0.(cache))
  ∧ (∀ (w0 : world num) (queryEmbedding : list num)
       (docs : list (StoredDocument num)) (doc : StoredDocument num),
       ensureInitialized pipeline w = (Returned (), w0) →
       Cache.getSearchResult w0.(cache) request.(question)
         request.(collection) = None →
       (Embeddings.generateQueryEmbedding pipeline w0.(rag).(embeddings)
          w0.(cache) request.(question)).1.1 = Returned queryEmbedding →
       (VectorDB.ensureInitialized w0.(rag).(vectorDb)
          w0.(disk)).1.(collections) !! request.(collection) = Some docs →
       doc ∈ docs → doc.(doc_embedding) = None →
       (query pipeline config w request).1
       = Thrown (QueryFailed SearchFailed)
       ∧ Cache.getSearchResult (query pipeline config w request).2.(cache)
           request.(question) request.(collection) = None).
Proof.
  split; [|split].
  - intros -> Hi He. unfold query, ensureInitialized, initialize.
    rewrite Hi. cbn [negb]. unfold Embeddings.initialize. by rewrite He.
  - intros w0 extract Hw Hmiss Hi He Hc Hx. unfold query. rewrite Hw, Hmiss.
    unfold Embeddings.generateQueryEmbedding, Embeddings.ensureInitialized.
    rewrite Hi. cbn [negb]. rewrite He. unfold Embeddings.embedding_for.
    by rewrite Hc, Hx.
  - intros w0 qe docs doc Hw Hmiss Hqe Hdocs Hin Hnone.
    unfold query. rewrite Hw, Hmiss.
    pose proof (generateQueryEmbedding_searchResults w0.(rag).(embeddings)
                  w0.(cache) request.(question)) as Hsr.
    destruct (Embeddings.generateQueryEmbedding _ _ _ _)
      as [[embedded e] c1].
    cbn [fst snd] in Hqe, Hsr. subst embedded. unfold VectorDB.search.
    destruct (VectorDB.ensureInitialized _ _) as [db d1]. cbn [fst] in Hdocs.
    rewrite Hdocs.
    destruct (length docs =? 0)%nat eqn:Hlen.
    { apply Nat.eqb_eq in Hlen. destruct docs; [|done].
      by apply elem_of_nil in Hin. }
    rewrite (similaritiesOf_None qe docs doc Hin Hnone). cbn. split; [done|].
    unfold Cache.getSearchResult in *. by rewrite Hsr.
Qed.

End Query.
End QueryErrors.


Module RetrievalFacts.
Import Indexing VectorDB SortFacts CosineFacts SearchFacts.
Import EmbeddingsFacts EmbeddingsMore.

Section Found.
Context {num : Type} `{!Number num} `{!FileSystem num}.
Context (pipeline : option (Embeddings.extractor num)).
Context (config : RagConfig num).

(** An element of a sorted list stands behind elements only that need not
    come after it. *)
Lemma sorted_position {A} (after : A → A → bool) (l : list A) (x : A) :
  StronglySorted (inOrder after) l → x ∈ l →
  ∃ pre post, l = pre ++ x :: post ∧ Forall (λ y, after y x = false) pre.
Proof.
  induction 1 as [|y l Hs IH Hy]; intros Hx.
  { by apply elem_of_nil in Hx. }
  apply elem_of_cons in Hx as [->|Hx].
  - by exists [], l.
  - destruct (IH Hx) as (pre & post & -> & Hpre).
    exists (y :: pre), post. split; [done|]. constructor; [|done].
    rewrite Forall_forall in Hy. apply Hy.
    apply elem_of_app. right. by left.
Qed.

Lemma filter_all {A} (P : A → Prop) `{!∀ x, Decision (P x)} (l : list A) :
  Forall P l → filter P l = l.
Proof.
  induction 1 as [|x l Hx _ IH]; [done|].
  by rewrite filter_cons_True, IH.
Qed.

Lemma filter_length_perm {A} (P : A → Prop) `{!∀ x, Decision (P x)}
    (l l' : list A) :
  l ≡ₚ l' → length (filter P l) = length (filter P l').
Proof. intros Hp. by rewrite Hp. Qed.

(** X21.  A stored passage is found again.  Store passages as
    [indexDocument] does, with texts whose hashes differ, and then ask, in
    the same collection, a question that is the text of one of them, when
    no response is cached for it: the query returns; the vector [v] of the
    passage is the one the question is searched with; and the passage is
    among the sources, with the score [cosineSimilarity v v] of its vector
    against itself, as soon as the threshold lets this score pass and the
    limit does not cut the passage off, which it does not when it is at
    least the number of records of the collection, nor, for a consistent
    comparator, when it is at least the number of records that need not
    come after the passage (those whose score is not below its own). *)
Theorem stored_passage_is_found (w w1 : Rag.world num) (c : jsstring)
    (chunks : list DocumentChunk) (i : nat) (chunk : DocumentChunk)
    (request : QueryRequest num) :
  let limit' := or_default request.(limit) config.(Config.maxResults) in
  let least := match request.(threshold) with
               | Some t => t
               | None => config.(Config.similarityThreshold)
               end in
  w.(Rag.rag).(Rag.initialized) = true →
  storeChunks pipeline w c chunks = (Returned (), w1) →
  Embeddings.collisionFree (chunk_content <$> chunks) →
  chunks !! i = Some chunk →
  request.(question) = chunk.(chunk_content) →
  request.(collection) = c →
  Cache.getSearchResult w1.(Rag.cache) request.(question) c = None →
  (∀ docs doc,
     (ensureInitialized w.(Rag.rag).(Rag.vectorDb) w.(Rag.disk)).1.(collections)
       !! c = Some docs →
     doc ∈ docs → is_Some doc.(doc_embedding)) →
  ∃ (response : QueryResponse num) (v : list num)
    (docs : list (StoredDocument num)),
    (Rag.query pipeline config w1 request).1 = Returned response
    ∧ Cache.getEmbedding w1.(Rag.cache) chunk.(chunk_content) = Some v
    ∧ w1.(Rag.rag).(Rag.vectorDb).(collections) !! c = Some docs
    ∧ storedDocument chunk (Some v) ∈ docs
    ∧ (∀ r, r ∈ response.(sources) →
         num_leb least r.(res_score) = true
         ∧ ∃ doc e, doc ∈ docs ∧ doc.(doc_embedding) = Some e
                    ∧ r.(res_score) = cosineSimilarity v e
                    ∧ r.(res_content) = doc.(doc_content))
    ∧ (num_leb least (cosineSimilarity v v) = true →
       (Z.of_nat (length docs) ≤ limit')%Z
       ∨ (consistentComparator
            (λ a b : StoredDocument num * num, num_sub b.2 a.2)
            ((λ doc, (doc, cosineSimilarity v
                             (default [] doc.(doc_embedding)))) <$> docs)
          = true
          ∧ (Z.of_nat
               (length
                  (filter
                     (λ doc,
                        num_ltb num_zero
                          (num_sub (cosineSimilarity v v)
                             (cosineSimilarity v
                                (default [] doc.(doc_embedding))))
                        = false)
                     docs))
             ≤ limit')%Z) →
       {| res_content := chunk.(chunk_content);
          res_score := cosineSimilarity v v;
          res_metadata :=
            (storedDocument chunk (Some v)).(doc_metadata) |}
       ∈ response.(sources)).
Proof.
  cbn zeta.
  intros Hinit Hstore Hfree Hi Hq Hc Hmiss Hold.
  unfold storeChunks in Hstore.
  destruct (Embeddings.generateEmbeddings _ _ _ _)
    as [[[embeddings|err] e] cache1] eqn:Hg; [|done].
  destruct (addDocuments _ _ _ _ _) as [[added db] disk1] eqn:Ha.
  injection Hstore as -> <-. cbn [Rag.cache Rag.rag Rag.vectorDb] in *.
  (* the vectors *)
  destruct (generateEmbeddings_service _ _ _ _ _ _ _ Hg)
    as (Hei & extract & Hee & Hrun).
  destruct (run_cached extract _ _ _ _ Hrun Hfree) as [Hlen Hat].
  destruct (Hat i chunk.(chunk_content)) as (v & Hvi & Hvc).
  { by rewrite list_lookup_fmap, Hi. }
  rewrite length_fmap in Hlen.
  (* the collection *)
  unfold addDocuments in Ha.
  pose proof (StoreFacts.ensureInitialized_initialized
                w.(Rag.rag).(Rag.vectorDb) w.(Rag.disk)) as Hdbi.
  destruct (ensureInitialized (Rag.vectorDb (Rag.rag w)) (Rag.disk w))
    as [db0 disk0].
  cbn [fst] in *. injection Ha as <- <-.
  set (old := default [] (collections db0 !! c)) in *.
  set (stored := old ++ newDocuments chunks embeddings) in *.
  set (own := storedDocument chunk (Some v)).
  assert (Hown : own ∈ stored).
  { apply elem_of_app. right. apply list_elem_of_lookup. exists i.
    unfold newDocuments. by rewrite list_lookup_imap, Hi, Hvi. }
  assert (Hvectors : ∀ doc, doc ∈ stored → is_Some doc.(doc_embedding)).
  { intros doc Hdoc. apply elem_of_app in Hdoc as [Hdoc|Hdoc].
    - unfold old in Hdoc. destruct (collections db0 !! c) as [docs|] eqn:Hd.
      + by eapply Hold.
      + by apply elem_of_nil in Hdoc.
    - apply list_elem_of_lookup in Hdoc as [j Hj].
      unfold newDocuments in Hj. rewrite list_lookup_imap in Hj.
      destruct (chunks !! j) as [cj|] eqn:Hcj; [|done].
      injection Hj as <-. cbn. apply lookup_lt_is_Some.
      apply lookup_lt_Some in Hcj. lia. }
  (* the query *)
  set (limit' := or_default request.(limit) config.(Config.maxResults)) in *.
  set (ranked := sort comesAfter (scoresOf v stored)).
  assert (Hquery :
    (Rag.query pipeline config
       {| Rag.rag :=
            {| Rag.embeddings := e;
               Rag.vectorDb :=
                 {| collections := <[c := stored]> (collections db0);
                    initialized := initialized db0 |};
               Rag.initialized := Rag.initialized (Rag.rag w) |};
          Rag.cache := cache1;
          Rag.disk := saveCollectionToDisk
                        {| collections := <[c := stored]> (collections db0);
                           initialized := initialized db0 |} disk0 c |}
       request).1
    = Returned (Rag.respond config request
                  (searchResult <$> slice_to ranked limit'))).
  { unfold Rag.query. rewrite QueryFacts.ensureInitialized_ready by done.
    cbn [Rag.cache Rag.rag Rag.embeddings Rag.vectorDb Rag.disk].
    rewrite Hc, Hmiss, Hq.
    rewrite (generateQueryEmbedding_hit pipeline e cache1 _ v Hei) by
      (by rewrite ?Hee).
    pose proof (search_cases config
                  {| collections := <[c := stored]> (collections db0);
                     initialized := initialized db0 |}
                  (saveCollectionToDisk
                     {| collections := <[c := stored]> (collections db0);
                        initialized := initialized db0 |} disk0 c)
                  c v (Some limit')) as Hsearch.
    rewrite StoreFacts.ensureInitialized_done in Hsearch by done.
    cbn [fst collections] in Hsearch. rewrite lookup_insert_eq in Hsearch.
    rewrite similaritiesOf_scoresOf in Hsearch by done.
    destruct (search _ _ _ _ _ _) as [[found db'] disk'].
    cbn [fst] in Hsearch. by rewrite Hsearch. }
  exists (Rag.respond config request
            (searchResult <$> slice_to ranked limit')), v, stored.
  split; [exact Hquery|]. split; [done|].
  split; [cbn; by rewrite lookup_insert_eq|]. split; [done|].
  split.
  - intros r Hr. unfold Rag.respond in Hr. cbn [sources] in Hr.
    apply list_elem_of_In, filter_In in Hr as [Hr Hpass].
    split; [exact Hpass|].
    apply list_elem_of_In, list_elem_of_fmap in Hr as ([doc score] & -> & Hin).
    unfold slice_to in Hin. apply subseteq_take in Hin.
    unfold ranked in Hin. rewrite (sort_perm comesAfter) in Hin.
    apply list_elem_of_fmap in Hin as (doc' & [= -> ->] & Hdoc).
    destruct (Hvectors doc' Hdoc) as [e' He'].
    exists doc', e'. split; [done|]. split; [done|].
    cbn. unfold scoreOf. by rewrite He'.
  - intros Hpass Hlimit.
    assert (Hin : (own, cosineSimilarity v v) ∈ slice_to ranked limit').
    { assert (Hranked : (own, cosineSimilarity v v) ∈ ranked).
      { unfold ranked. rewrite (sort_perm comesAfter).
        apply list_elem_of_fmap. exists own. split; [|done].
        by unfold scoreOf. }
      assert (Hlen' : length ranked = length stored).
      { unfold ranked.
        rewrite (Permutation_length (sort_perm comesAfter _)).
        unfold scoresOf. by rewrite length_fmap. }
      rewrite slice_to_count.
      destruct Hlimit as [Hall | [Hcons Hfew]].
      - destruct (limit' <? 0)%Z eqn:Hneg; [lia|].
        rewrite take_ge; [done | lia].
      - destruct (limit' <? 0)%Z eqn:Hneg; [lia|].
        pose proof (sort_consistent _ _ Hcons) as [Hsorted _].
        change (StronglySorted (inOrder comesAfter) ranked) in Hsorted.
        destruct (sorted_position _ _ _ Hsorted Hranked)
          as (pre & post & Hsplit & Hpre).
        assert (Hcount :
          length pre + 1
          ≤ length (filter (λ doc : StoredDocument num,
                       num_ltb num_zero
                         (num_sub (cosineSimilarity v v)
                            (cosineSimilarity v
                               (default [] doc.(doc_embedding))))
                       = false) stored)).
        { set (P := λ x : StoredDocument num * num,
                      num_ltb num_zero
                        (num_sub (cosineSimilarity v v) x.2) = false).
          assert (Hfilter :
            length (filter P ranked)
            = length (filter (λ doc : StoredDocument num,
                        num_ltb num_zero
                          (num_sub (cosineSimilarity v v)
                             (cosineSimilarity v
                                (default [] doc.(doc_embedding))))
                        = false) stored)).
          { unfold ranked.
            rewrite (filter_length_perm P _ _
                       (sort_perm comesAfter (scoresOf v stored))).
            unfold scoresOf. clear.
            induction stored as [|d l IH]; [done|].
            rewrite fmap_cons, !filter_cons. unfold P at 1. cbn [snd].
            unfold scoreOf at 1.
            destruct (decide _); cbn [length]; by rewrite IH. }
          rewrite <- Hfilter, Hsplit, filter_app, length_app.
          rewrite filter_all by exact Hpre.
          rewrite filter_cons_True.
          - rewrite length_cons. apply Nat.add_le_mono_l. lia.
          - unfold P.
            apply (SortFacts.follows_irrefl _ _ Hcons
                     (own, cosineSimilarity v v)).
            apply list_elem_of_fmap. exists own. split; [|done].
            by unfold scoreOf. }
        rewrite Hsplit.
        assert (length pre < Z.to_nat limit') by lia.
        rewrite take_app. apply elem_of_app. right.
        replace (Z.to_nat limit' - length pre)
          with (S (Z.to_nat limit' - length pre - 1)) by lia.
        cbn. by left. }
    unfold Rag.respond. cbn [sources].
    apply list_elem_of_In, filter_In. split.
    + apply list_elem_of_In, list_elem_of_fmap.
      by exists (own, cosineSimilarity v v).
    + exact Hpass.
Qed.

End Found.
End RetrievalFacts.

(* ------------------------------------------------------------------ *)
(** * The further properties at concrete inputs *)

Module Checks.
Import Samples Fixtures.
#[local] Existing Instance entriesOnly.

(** ** The chunker *)

Lemma chunkText_passages_trimmed_witness :
  js "B. C." ≠ []
  ∧ Chunker.trim (js "B. C.") = js "B. C."
  ∧ Chunker.trimStart (js "B. C.") = js "B. C."
  ∧ Chunker.trimEnd (js "B. C.") = js "B. C.".
Proof.
  apply (ChunkingFacts.chunkText_passages_trimmed defaultConfig
           (js "A. B. C. D.") (Some 6%Z) (Some 2%Z)
           [js "A. B."; js "B. C."; js "C. D."]
           ltac:(vm_compute; reflexivity)).
  repeat constructor.
Defined.

(** The overlap at the scenario of the specification: [B.] is carried over
    from the first buffer into the second passage. *)
Lemma chunkText_overlap_witness :
  js "B." `suffix_of` js "A. B."
  ∧ js "B." `prefix_of` js "B. C."
  ∧ (Z.of_nat (length (js "B.")) ≤ 2)%Z
  ∧ js "B. C. " = js "B. " ++ js "C. ".
Proof.
  destruct (BufferFacts.chunkText_overlap defaultConfig (js "A. B. C. D.")
              (Some 6%Z) (Some 2%Z) [js "A. B."; js "B. C."; js "C. D."]
              ltac:(vm_compute; reflexivity)) as [_ Hpairs].
  destruct (Hpairs 0 (js "A. B. ") (js "B. C. ")
              ltac:(vm_compute; reflexivity) ltac:(vm_compute; reflexivity))
    as (_ & _ & _ & Hsuffix & Hprefix & Hlength & _).
  split; [exact Hsuffix|]. split; [exact Hprefix|].
  split; [apply Hlength; vm_compute; discriminate | reflexivity].
Defined.

(** The groups of the scenario: [A. B.], then [C.], then [D.]. *)
Lemma chunkText_buffers_witness :
  ∃ groups : list (list jsstring),
    concat groups = [js "A. "; js "B. "; js "C. "; js "D. "]
    ∧ length groups = 3
    ∧ [js "A. B."; js "B. C."; js "C. D."]
      = Chunker.trim <$> Passages.chained 2 [] groups.
Proof.
  destruct (BufferFacts.chunkText_buffers defaultConfig (js "A. B. C. D.")
              (Some 6%Z) (Some 2%Z) [js "A. B."; js "B. C."; js "C. D."]
              ltac:(vm_compute; reflexivity))
    as (groups & Hconcat & _ & Hlength & _ & Hpassages & _).
  exists groups. split; [exact Hconcat|]. split; [|exact Hpassages].
  by rewrite <- Hlength.
Defined.

(** Thirteen characters in one passage, for a chunk size of 5. *)
Lemma chunkText_unpunctuated_witness :
  Chunker.chunkText defaultConfig (js "  one two three  ") (Some 5%Z)
    (Some 2%Z)
  = Returned [js "one two three"].
Proof.
  exact (ChunkingFacts.chunkText_unpunctuated defaultConfig
           (js "  one two three  ") (Some 5%Z) (Some 2%Z)
           ltac:(cbn; lia) ltac:(cbn; lia) ltac:(repeat constructor)).
Defined.

Lemma chunkText_size_bound_witness :
  (Z.of_nat (length (js "B. C.")) < Z.max 6 (2 + 1 + 3))%Z.
Proof.
  apply (ChunkingFacts.chunkText_size_bound defaultConfig
           (js "A. B. C. D.") (Some 6%Z) (Some 2%Z)
           [js "A. B."; js "B. C."; js "C. D."] 3
           ltac:(cbn; lia) ltac:(vm_compute; reflexivity)).
  - intros s Hs.
    change (Chunker.splitIntoSentences (js "A. B. C. D."))
      with [js "A. "; js "B. "; js "C. "; js "D. "] in Hs.
    repeat (apply elem_of_cons in Hs as [->|Hs]); try (cbn; lia).
    by apply elem_of_nil in Hs.
  - repeat constructor.
Defined.

Lemma chunkText_keeps_sentences_witness :
  ∃ p pre post,
    p ∈ [js "A. B."; js "B. C."; js "C. D."]
    ∧ p = pre ++ Chunker.trim (js "B. ") ++ post.
Proof.
  apply (ChunkingFacts.chunkText_keeps_sentences defaultConfig
           (js "A. B. C. D.") (Some 6%Z) (Some 2%Z)
           [js "A. B."; js "B. C."; js "C. D."]
           ltac:(vm_compute; reflexivity)).
  change (Chunker.splitIntoSentences (js "A. B. C. D."))
    with [js "A. "; js "B. "; js "C. "; js "D. "].
  repeat constructor.
Defined.

Lemma chunkText_zero_overlap_accumulates_witness :
  js "A. B." `prefix_of` js "A. B. C.".
Proof.
  apply (ChunkingFacts.chunkText_zero_overlap_accumulates noOverlapConfig
           (js "A. B. C. D.") None None
           [js "A. B."; js "A. B. C."; js "A. B. C. D."]
           eq_refl ltac:(vm_compute; reflexivity) 0);
    reflexivity.
Defined.

(** ** The store *)


Example calls_leave_one_collection :
  (VectorDB.listCollections
     (History.run defaultConfig calls (VectorDB.emptyDb, None)).1
     (History.run defaultConfig calls (VectorDB.emptyDb, None)).2).1.1
  = [js "b"].
Proof. vm_compute. reflexivity. Qed.

Lemma search_result_count_witness :
  Z.of_nat (length [found])
  = if (5 <? 0)%Z then Z.max (1 + 5) 0 else Z.min 5 1.
Proof.
  apply (HistoryFacts.search_result_count defaultConfig
           slantedWorld.(Rag.rag).(Rag.vectorDb) (Some ∅) (js "t")
           [1; 0]%float None [slanted] [found]).
  - reflexivity.
  - vm_compute. reflexivity.
Defined.

(** All but the last of the ranking, for a limit of -1. *)
Example search_negative_limit :
  res_content <$>
    match (VectorDB.search defaultConfig
             (History.run defaultConfig calls (VectorDB.emptyDb, None)).1
             None (js "b") [3; 4]%float (Some (-1)%Z)).1.1 with
    | Returned results => results
    | Thrown _ => []
    end
  = [].
Proof. vm_compute. reflexivity. Qed.

(** ** The hash *)

Lemma hashString_collisions_spread_witness :
  Cache.hashString (js "what is Aa?") = Cache.hashString (js "what is BB?").
Proof.
  exact (HashFacts.hashString_collisions_spread (js "Aa") (js "BB")
           eq_refl eq_refl (js "what is ") (js "?")).
Defined.

(** ** The embeddings *)

(** The vector comes from the cache, also when the model is silent. *)
Lemma generateQueryEmbedding_repeats_witness :
  let cache' :=
    (Embeddings.generateQueryEmbedding (Some constantModel)
       Embeddings.fresh Cache.empty (js "q")).2 in
  Embeddings.generateQueryEmbedding None silentService cache' (js "q")
  = (Returned [1; 0]%float, silentService, cache').
Proof.
  cbn zeta.
  apply (EmbeddingsMore.generateQueryEmbedding_repeats (Some constantModel)
           Embeddings.fresh
           {| Embeddings.the_extractor := Some constantModel;
              Embeddings.initialized := true |}
           Cache.empty _ (js "q") [1; 0]%float eq_refl);
    by eauto.
Defined.

Lemma generateEmbeddings_rejected_witness :
  (Embeddings.generateEmbeddings (Some shyModel) Embeddings.fresh Cache.empty
     [js "a"; js "b"; js "c"]).1.1
  = Thrown EmbeddingsFailed.
Proof.
  apply (EmbeddingsMore.generateEmbeddings_rejected (Some shyModel)
           Embeddings.fresh Cache.empty [js "a"; js "b"; js "c"] shyModel
           (js "b") eq_refl eq_refl).
  - repeat constructor.
  - reflexivity.
  - intros t Ht Hh.
    repeat (apply elem_of_cons in Ht as [->|Ht]);
      try done; by apply elem_of_nil in Ht.
Defined.

(** ** The query *)

(** The response to the first request is the response to the second one,
    which asks for less. *)
Lemma query_answer_sticks_witness :
  let first := Rag.query (Some constantModel) defaultConfig slantedWorld
                 (ask 0.75%float) in
  Rag.query (Some constantModel) defaultConfig first.2 (ask 0.5%float)
  = (Returned {| answer := Rag.noContent; sources := [] |}, first.2).
Proof.
  cbn zeta.
  apply (QueryFacts.query_answer_sticks (Some constantModel) defaultConfig
           slantedWorld
           (Rag.query (Some constantModel) defaultConfig slantedWorld
              (ask 0.75%float)).2
           (ask 0.75%float)
           {| answer := Rag.noContent; sources := [] |});
    reflexivity.
Defined.

Lemma query_without_documents_witness :
  (Rag.query (Some constantModel) defaultConfig newWorld
     {| question := js "where?"; collection := js "none"; limit := None;
        threshold := None |}).1
  = Returned {| answer := Rag.noContent; sources := [] |}.
Proof.
  apply (QueryFacts.query_without_documents (Some constantModel)
           defaultConfig newWorld
           (Rag.ensureInitialized (Some constantModel) newWorld).2
           {| question := js "where?"; collection := js "none";
              limit := None; threshold := None |}
           [1; 0]%float).
  - reflexivity.
  - reflexivity.
  - reflexivity.
  - left. reflexivity.
Defined.

(** The passage [east] is stored and asked for: it is found, with a score
    below 1. *)
Lemma stored_passage_is_found_witness :
  let w1 := (Indexing.storeChunks (Some compassModel) readyWorld (js "t")
               [chunkOf "north"; chunkOf "east"]).2 in
  ∃ response : QueryResponse float,
    (Rag.query (Some compassModel) defaultConfig w1
       (askFor "east" 0.75%float)).1
    = Returned response
    ∧ {| res_content := js "east";
         res_score := 0x1.ffffffffffffep-1%float;
         res_metadata :=
           (@VectorDB.storedDocument float (chunkOf "east") None)
             .(doc_metadata) |}
      ∈ response.(sources).
Proof.
  cbn zeta.
  destruct (RetrievalFacts.stored_passage_is_found (Some compassModel)
              defaultConfig readyWorld
              (Indexing.storeChunks (Some compassModel) readyWorld (js "t")
                 [chunkOf "north"; chunkOf "east"]).2
              (js "t") [chunkOf "north"; chunkOf "east"] 1 (chunkOf "east")
              (askFor "east" 0.75%float))
    as (response & v & docs & Hquery & Hv & Hdocs & _ & _ & Hfound).
  - reflexivity.
  - vm_compute. reflexivity.
  - intros t t' Ht Ht' Hh.
    repeat (apply elem_of_cons in Ht as [->|Ht]);
      repeat (apply elem_of_cons in Ht' as [->|Ht']);
      try (apply elem_of_nil in Ht; destruct Ht);
      try (apply elem_of_nil in Ht'; destruct Ht');
      try reflexivity; vm_compute in Hh; discriminate.
  - reflexivity.
  - reflexivity.
  - reflexivity.
  - vm_compute. reflexivity.
  - intros docs doc Hdocs. done.
  - exists response. split; [exact Hquery|].
    assert (Hv' : v = [1; 1]%float).
    { apply (f_equal (default [])) in Hv. vm_compute in Hv. by symmetry. }
    subst v.
    assert (Hlen : length docs = 2).
    { apply (f_equal (λ o, length (default [] o))) in Hdocs.
      vm_compute in Hdocs. by symmetry. }
    apply Hfound.
    + vm_compute. reflexivity.
    + left. rewrite Hlen. vm_compute. discriminate.
Defined.

End Checks.
